(** * The patch subsystem of the tscircuit schematic editor

    A shallow embedding of the patch data model ([lib/patch.ts]), the
    connectivity engine ([lib/elk-service.ts]), the patch extractor
    ([lib/patch-extractor.ts]), the insertion and selection hooks of
    [lib/patch-api-client.ts], the library store ([lib/patch-manager.ts]),
    the project manager with its version control
    ([lib/project-manager.ts]) and the symbol registry
    ([lib/symbol-library.ts]), followed by the properties of the design
    document that these functions decide (C1 to C10) and by further
    properties of the same functions (X1 to X30).

    Conventions of the embedding:
    - JavaScript strings are [string]s of 8-bit characters; numbers that the
      code only counts, adds or prints are [Z], [N] or [nat];
    - an optional field ([name?: string]) is an [option];
    - a JavaScript object used as a record of named properties
      ([Record<string, ...>]) is an association list in insertion order, the
      order [Object.entries] enumerates keys that are not array indices;
    - a [Map] keyed by strings is a [gmap string _];
    - the clock ([Date.now()], [new Date()]) is an input: the [k]-th reading
      taken by the program is [clock k];
    - code that throws, mutates the manager or touches the file system lives
      in the monad [M] of section "patch-manager.ts";
    - the file system holds regular files by path; whether it takes a new
      file at a path, and the error it raises when it does not (the
      directory of the path does not exist, the path is a directory), is
      an input as the clock is; what comes and goes over the calls
      (permissions, a full disk) is left out. *)

From Stdlib Require Import Ascii String List ZArith NArith Lia.
From stdpp Require Import base decidable option list strings pretty gmap.

Local Open Scope stdpp_scope.

(** ** JavaScript string primitives used by the sources *)
Module Js.

(** The character [U+0022], spelled by its code. *)
Definition dquote : string := String (ascii_of_nat 34) EmptyString.

(** [s.startsWith(p)] *)
Definition startsWith (s p : string) : bool := String.prefix p s.

(** [String(n)] for a non-negative integer. *)
Definition ofN (n : N) : string := pretty n.
Definition ofNat (n : nat) : string := pretty n.

(** [a.join(sep)] *)
Fixpoint join (sep : string) (l : list string) : string :=
  match l with
  | [] => EmptyString
  | [s] => s
  | s :: rest => s +:+ sep +:+ join sep rest
  end.

(** [s.split(".")[0]]: the text before the first dot, all of [s] when it
    holds none. *)
Fixpoint beforeDot (s : string) : string :=
  match s with
  | EmptyString => EmptyString
  | String c rest =>
      if Ascii.eqb c "."%char then EmptyString else String c (beforeDot rest)
  end.

(** The class [\s] on code units below 256. *)
Definition isSpace (c : ascii) : bool :=
  match nat_of_ascii c with
  | 9 | 10 | 11 | 12 | 13 | 32 | 160 => true
  | _ => false
  end.

(** [s.replace(/\s+/g, r)]: every maximal run of white space becomes one
    [r]. [inRun] tells that the previous character was white space. *)
Fixpoint replaceSpacesFrom (inRun : bool) (r s : string) : string :=
  match s with
  | EmptyString => EmptyString
  | String c rest =>
      if isSpace c
      then (if inRun then replaceSpacesFrom true r rest
            else r +:+ replaceSpacesFrom true r rest)
      else String c (replaceSpacesFrom false r rest)
  end.
Definition replaceSpaces (r s : string) : string := replaceSpacesFrom false r s.

(** [s.toLowerCase()] on the letters [A-Z]. *)
Definition lowerChar (c : ascii) : ascii :=
  let n := nat_of_ascii c in
  if (65 <=? n)%nat && (n <=? 90)%nat then ascii_of_nat (n + 32) else c.
Fixpoint toLowerCase (s : string) : string :=
  match s with
  | EmptyString => EmptyString
  | String c rest => String (lowerChar c) (toLowerCase rest)
  end.

(** Truthiness of a [string | undefined]: [undefined] and the empty string
    are falsy. [orElse o d] is [o || d]. *)
Definition orElse (o : option string) (d : string) : string :=
  match o with
  | Some (String c rest) => String c rest
  | _ => d
  end.

(** [s.includes(sub)] *)
Fixpoint includes (s sub : string) : bool :=
  String.prefix sub s
  || match s with
     | EmptyString => false
     | String _ rest => includes rest sub
     end.

(** [s.replace(/[:.]/g, r)] *)
Fixpoint replaceColonsDots (r s : string) : string :=
  match s with
  | EmptyString => EmptyString
  | String c rest =>
      if Ascii.eqb c ":"%char || Ascii.eqb c "."%char
      then r +:+ replaceColonsDots r rest
      else String c (replaceColonsDots r rest)
  end.

(** The result of a call that may throw [new Error(msg)]. *)
Inductive Outcome (A : Type) :=
| Ok (a : A)
| Throw (msg : string).
Arguments Ok {A} a.
Arguments Throw {A} msg.

End Js.

(** ** lib/patch.ts: the patch data model *)
Module Patch.

Inductive PinPosition := Top | Bottom | Left | Right.
Inductive PinType := Power | Ground | Signal | Clock | Reset | Data.

Record PatchInterfacePin := {
  pin_id : string;
  pin_name : string;
  pin_position : PinPosition;
  internalNetName : string;
  pin_type : PinType
}.

(** [string | number] *)
Inductive PropValue := PStr (s : string) | PNum (z : Z).

Record Position := { pos_x : Z; pos_y : Z }.

Record PatchComponent := {
  comp_id : string;
  comp_name : string;
  comp_type : string;
  properties : list (string * PropValue);
  position : Position
}.

Record Connection := { componentId : string; pinName : string }.

Record PatchNet := {
  net_id : string;
  net_name : option string;
  connections : list Connection
}.

Record PatchMetadata := {
  name : string;
  description : option string;
  version : string;
  createdAt : string;
  modifiedAt : string;
  author : option string;
  tags : option (list string)
}.

(** [PatchData], over the element types of its two arrays: the converters
    below are written against [Record<string, any>] and pass the arrays
    through whatever they hold. *)
Record PatchOf (C N : Type) := {
  schemaVersion : string;
  metadata : PatchMetadata;
  components : list C;
  nets : list N;
  interfacePins : list PatchInterfacePin;
  symbolSvg : option string
}.
Arguments schemaVersion {C N} _.
Arguments metadata {C N} _.
Arguments components {C N} _.
Arguments nets {C N} _.
Arguments interfacePins {C N} _.
Arguments symbolSvg {C N} _.

Definition PatchData := PatchOf PatchComponent PatchNet.

Inductive ErrorType :=
  UnconnectedPin | FloatingNet | MissingInterfacePin | InvalidConnection.
Inductive Severity := SevError | SevWarning.

Record PatchValidationError := {
  err_type : ErrorType;
  severity : Severity;
  message : string;
  err_componentId : option string;
  err_netId : option string;
  err_pinId : option string
}.

Record PatchLibraryEntry := {
  entry_id : string;
  entry_name : string;
  filePath : string;
  entry_metadata : PatchMetadata;
  previewSvg : option string;
  lastUsed : option string
}.

#[global] Instance Severity_eq_dec : EqDecision Severity.
Proof. solve_decision. Defined.
#[global] Instance PropValue_eq_dec : EqDecision PropValue.
Proof. solve_decision. Defined.

(** [patch.nets.some(net => net.connections.some(conn =>
      conn.componentId === component.id && conn.pinName === pinName))] *)
Definition isConnected (patch : PatchData) (component : PatchComponent)
    (pin : string) : bool :=
  existsb (fun net =>
    existsb (fun conn =>
      bool_decide (componentId conn = comp_id component)
      && bool_decide (pinName conn = pin))
      (connections net))
    (nets patch).

Definition unconnectedPinError (component : PatchComponent) (pin : string)
    : PatchValidationError :=
  {| err_type := UnconnectedPin;
     severity := SevError;
     message := comp_name component +:+ " pin " +:+ pin +:+ " is unconnected";
     err_componentId := Some (comp_id component);
     err_netId := None;
     err_pinId := Some pin |}.

Definition floatingNetError (net : PatchNet) : PatchValidationError :=
  {| err_type := FloatingNet;
     severity := SevWarning;
     message := "Net " +:+ Js.dquote +:+ Js.orElse (net_name net) (net_id net)
                +:+ Js.dquote +:+ " has only "
                +:+ Js.ofNat (length (connections net)) +:+ " connection(s)";
     err_componentId := None;
     err_netId := Some (net_id net);
     err_pinId := None |}.

(** The first loop of [validatePatch], for one component. *)
Definition checkComponentPins (patch : PatchData) (component : PatchComponent)
    : list PatchValidationError :=
  kv ← properties component;
  if Js.startsWith kv.1 "pin_"
  then (if isConnected patch component kv.1 then []
        else [unconnectedPinError component kv.1])
  else [].

(** The second loop of [validatePatch], for one net. *)
Definition checkNet (net : PatchNet) : list PatchValidationError :=
  if (length (connections net) <? 2)%nat then [floatingNetError net] else [].

Definition validatePatch (patch : PatchData) : list PatchValidationError :=
  (components patch ≫= checkComponentPins patch) ++ (nets patch ≫= checkNet).

(** [createEmptyPatch(name)]; [now] is [new Date().toISOString()]. *)
Definition createEmptyPatch (now : string) (nm : string) : PatchData :=
  {| schemaVersion := "1.0";
     metadata := {| name := nm; description := None; version := "1.0.0";
                    createdAt := now; modifiedAt := now;
                    author := None; tags := None |};
     components := [];
     nets := [];
     interfacePins := [];
     symbolSvg := None |}.

(** *** The wire form

    [Record<string, any>]: every field may be missing. *)
Record JsonOf (C N : Type) := {
  j_schemaVersion : option string;
  j_metadata : option PatchMetadata;
  j_components : option (list C);
  j_nets : option (list N);
  j_interfacePins : option (list PatchInterfacePin);
  j_symbolSvg : option string
}.
Arguments j_schemaVersion {C N} _.
Arguments j_metadata {C N} _.
Arguments j_components {C N} _.
Arguments j_nets {C N} _.
Arguments j_interfacePins {C N} _.
Arguments j_symbolSvg {C N} _.

(** An object literal under construction: [setField k v o] is [o[k] = v],
    which overwrites an existing key in place and appends a new one. *)
Definition JsObject := list (string * PropValue).

Fixpoint setField (k : string) (v : PropValue) (o : JsObject) : JsObject :=
  match o with
  | [] => [(k, v)]
  | (k', v') :: rest =>
      if bool_decide (k' = k) then (k, v) :: rest
      else (k', v') :: setField k v rest
  end.

Fixpoint getField (k : string) (o : JsObject) : option PropValue :=
  match o with
  | [] => None
  | (k', v') :: rest => if bool_decide (k' = k) then Some v' else getField k rest
  end.

(** [{ name: comp.name, type: comp.type, ...comp.properties }] *)
Definition wireComponent (comp : PatchComponent) : JsObject :=
  foldl (fun o kv => setField kv.1 kv.2 o)
        [("name", PStr (comp_name comp)); ("type", PStr (comp_type comp))]
        (properties comp).

(** [{ name: net.name, connections: net.connections }] *)
Record WireNet := {
  wnet_name : option string;
  wnet_connections : list Connection
}.

Definition wireNet (net : PatchNet) : WireNet :=
  {| wnet_name := net_name net; wnet_connections := connections net |}.

Definition patchToCircuitJson (patch : PatchData) : JsonOf JsObject WireNet :=
  {| j_schemaVersion := Some "1.0";
     j_metadata := Some (metadata patch);
     j_components := Some (wireComponent <$> components patch);
     j_nets := Some (wireNet <$> nets patch);
     j_interfacePins := Some (interfacePins patch);
     j_symbolSvg := symbolSvg patch |}.

(** [circuitJsonToPatch(json)]; [now1] and [now2] are the two readings
    [new Date().toISOString()] that the default metadata takes. *)
Definition defaultMetadata (now1 now2 : string) : PatchMetadata :=
  {| name := "Unnamed Patch"; description := None; version := "1.0.0";
     createdAt := now1; modifiedAt := now2; author := None; tags := None |}.

Definition circuitJsonToPatch {C N : Type} (now1 now2 : string)
    (json : JsonOf C N) : PatchOf C N :=
  {| schemaVersion := Js.orElse (j_schemaVersion json) "1.0";
     metadata := default (defaultMetadata now1 now2) (j_metadata json);
     components := default [] (j_components json);
     nets := default [] (j_nets json);
     interfacePins := default [] (j_interfacePins json);
     symbolSvg := j_symbolSvg json |}.

(** The object a [PatchComponent] is, field by field, for comparison with
    what a conversion returns in its place. *)
Inductive FieldValue :=
| FScalar (v : PropValue)
| FProperties (o : JsObject)
| FPosition (p : Position).

Definition componentObject (comp : PatchComponent) : list (string * FieldValue) :=
  [("id", FScalar (PStr (comp_id comp)));
   ("name", FScalar (PStr (comp_name comp)));
   ("type", FScalar (PStr (comp_type comp)));
   ("properties", FProperties (properties comp));
   ("position", FPosition (position comp))].

Definition wireObject (o : JsObject) : list (string * FieldValue) :=
  prod_map id FScalar <$> o.

End Patch.

(** ** lib/elk-service.ts: the connectivity engine *)
Module Elk.
Import Patch.

Record GraphNode := {
  node_id : string;
  node_componentId : string;
  node_pinName : string;
  label : string
}.

Record GraphEdge := {
  edge_id : string;
  source : string;
  target : string;
  edge_netId : string
}.

Record Graph := {
  nodes : list GraphNode;
  edges : list GraphEdge;
  adjacencyList : gmap string (list string)
}.

Record UnconnectedPinEntry := {
  up_componentId : string;
  up_componentName : string;
  up_pinName : string
}.

Record FloatingNetEntry := {
  fn_netId : string;
  fn_netName : option string;
  connectionCount : nat
}.

Record ConnectivityAnalysis := {
  componentCount : nat;
  netCount : nat;
  unconnectedPins : list UnconnectedPinEntry;
  floatingNets : list FloatingNetEntry;
  subgraphCount : nat;
  isFullyConnected : bool
}.

(** [`${a}_${b}`] *)
Definition underscore (a b : string) : string := a +:+ "_" +:+ b.

(** The nodes of one component: one per property key with the pin prefix. *)
Definition pinNodes (component : PatchComponent) : list GraphNode :=
  kv ← properties component;
  if Js.startsWith kv.1 "pin_"
  then [ {| node_id := underscore (comp_id component) kv.1;
            node_componentId := comp_id component;
            node_pinName := kv.1;
            label := comp_name component +:+ "." +:+ kv.1 |} ]
  else [].

(** The iterations [i = 0 .. length - 2] of the edge loop over one net:
    the index with [connections[i]] and [connections[i + 1]]. *)
Fixpoint chainFrom (i : nat) (l : list Connection)
    : list (nat * Connection * Connection) :=
  match l with
  | c1 :: (c2 :: _) as rest => (i, c1, c2) :: chainFrom (S i) rest
  | _ => []
  end.

Definition netEdges (net : PatchNet) : list GraphEdge :=
  (fun '(i, conn1, conn2) =>
     {| edge_id := underscore (net_id net) (Js.ofNat i);
        source := underscore (componentId conn1) (pinName conn1);
        target := underscore (componentId conn2) (pinName conn2);
        edge_netId := net_id net |}) <$> chainFrom 0 (connections net).

(** [adjacencyList.get(a)?.push(b)]: nothing happens when [a] is no key. *)
Definition pushNeighbor (a b : string) (adj : gmap string (list string))
    : gmap string (list string) :=
  alter (fun l => l ++ [b]) a adj.

Definition buildGraph (patch : PatchData) : Graph :=
  let ns := components patch ≫= pinNodes in
  let es := nets patch ≫= netEdges in
  let adj0 := foldl (fun adj n => <[node_id n := []]> adj) ∅ ns in
  let adj := foldl (fun adj e =>
                pushNeighbor (target e) (source e)
                  (pushNeighbor (source e) (target e) adj)) adj0 es in
  {| nodes := ns; edges := es; adjacencyList := adj |}.

(** [net.connections.some(conn => conn.componentId === component.id)] *)
Definition netReferences (net : PatchNet) (component : PatchComponent) : bool :=
  existsb (fun conn => bool_decide (componentId conn = comp_id component))
          (connections net).

Definition findUnconnectedPins (patch : PatchData) (graph : Graph)
    : list UnconnectedPinEntry :=
  component ← components patch;
  net ← nets patch;
  if netReferences net component then []
  else [ {| up_componentId := comp_id component;
            up_componentName := comp_name component;
            up_pinName := "unspecified" |} ].

Definition findFloatingNets (patch : PatchData) : list FloatingNetEntry :=
  (fun net => {| fn_netId := net_id net;
                 fn_netName := net_name net;
                 connectionCount := length (connections net) |})
  <$> List.filter (fun net => (length (connections net) <? 2)%nat) (nets patch).

(** [dfs]: the recursion is cut after [fuel] nested calls. A nested call is
    made on a neighbor that is not yet visited, so the nesting never exceeds
    the number of identifiers that occur in the adjacency lists, and
    [dfsFuel] is never used up ([ElkProps.dfs_fuel_enough]). *)
Fixpoint dfs (fuel : nat) (nodeId : string)
    (adj : gmap string (list string)) (visited : gset string) : gset string :=
  match fuel with
  | O => visited
  | S fuel' =>
      foldl (fun vis neighbor =>
               if bool_decide (neighbor ∈ vis) then vis
               else dfs fuel' neighbor adj vis)
            ({[nodeId]} ∪ visited)
            (default [] (adj !! nodeId))
  end.

(** Every identifier that occurs in an adjacency list. *)
Definition allNeighbors (adj : gmap string (list string)) : list string :=
  map_to_list adj ≫= snd.

Definition dfsFuel (adj : gmap string (list string)) : nat :=
  S (length (allNeighbors adj)).

Definition countConnectedSubgraphs (graph : Graph) : nat :=
  snd (foldl (fun '(visited, count) node =>
                if bool_decide (node_id node ∈ visited) then (visited, count)
                else (dfs (dfsFuel (adjacencyList graph)) (node_id node)
                          (adjacencyList graph) visited, S count))
             (∅, 0%nat) (nodes graph)).

Definition analyzeConnectivity (patch : PatchData) : ConnectivityAnalysis :=
  let graph := buildGraph patch in
  let unconnected := findUnconnectedPins patch graph in
  let floating := findFloatingNets patch in
  let count := countConnectedSubgraphs graph in
  {| componentCount := length (components patch);
     netCount := length (nets patch);
     unconnectedPins := unconnected;
     floatingNets := floating;
     subgraphCount := count;
     isFullyConnected :=
       (length unconnected =? 0)%nat && (length floating =? 0)%nat |}.

(** *** [generateELKConfig] *)

Record ELKChild := {
  child_id : string;
  width : Z;
  height : Z;
  child_x : Z;
  child_y : Z;
  child_layoutOptions : list (string * string)
}.

Record ELKEdge := {
  elk_edge_id : string;
  sources : list string;
  targets : list string
}.

Record ELKGraph := {
  graph_id : string;
  layoutOptions : list (string * string);
  children : list ELKChild;
  elk_edges : list ELKEdge
}.

(** [a.slice(0, -1)] and [a.slice(1)] *)
Definition sliceInit {A} (a : list A) : list A := removelast a.
Definition sliceTail {A} (a : list A) : list A := tail a.

Definition generateELKConfig (patch : PatchData) : ELKGraph :=
  {| graph_id := "root";
     layoutOptions :=
       [("elk.algorithm", "layered");
        ("elk.direction", "RIGHT");
        ("elk.spacing.componentComponent", "20");
        ("elk.layered.spacing.edgeNodeBetweenLayers", "20")];
     children :=
       (fun comp =>
          {| child_id := comp_id comp;
             width := 100;
             height := 60;
             child_x := pos_x (position comp);
             child_y := pos_y (position comp);
             child_layoutOptions := [("elk.core.options", "default")] |})
       <$> components patch;
     elk_edges :=
       (fun net =>
          {| elk_edge_id := net_id net;
             sources := componentId <$> sliceInit (connections net);
             targets := componentId <$> sliceTail (connections net) |})
       <$> nets patch |}.

(** *** [RealtimeValidator]

    The validator keeps the patch it was made for and the analysis of the
    last call of [validate]. *)
Record RealtimeValidator := {
  patchData : PatchData;
  validationState : option ConnectivityAnalysis
}.

Definition validate (v : RealtimeValidator)
    : ConnectivityAnalysis * RealtimeValidator :=
  let analysis := analyzeConnectivity (patchData v) in
  (analysis, {| patchData := patchData v; validationState := Some analysis |}).

(** [new RealtimeValidator(patch)] *)
Definition newRealtimeValidator (patch : PatchData) : RealtimeValidator :=
  (validate {| patchData := patch; validationState := None |}).2.

(** [!this.validationState?.isFullyConnected ?? false]: the negation binds
    first, and the negation of [undefined] is [true]. *)
Definition hasErrors (v : RealtimeValidator) : bool :=
  match validationState v with
  | Some analysis => negb (isFullyConnected analysis)
  | None => true
  end.

Definition pinIssue (pin : UnconnectedPinEntry) : string :=
  "Unconnected pin: " +:+ up_componentName pin +:+ "." +:+ up_pinName pin.

Definition netIssue (n : FloatingNetEntry) : string :=
  "Floating net: " +:+ Js.dquote +:+ Js.orElse (fn_netName n) (fn_netId n)
  +:+ Js.dquote +:+ " (" +:+ Js.ofNat (connectionCount n) +:+ " connection(s))".

Definition islandIssue (count : nat) : string :=
  "Warning: Circuit has " +:+ Js.ofNat count +:+ " isolated subgraphs".

Definition getIssues (v : RealtimeValidator) : list string :=
  match validationState v with
  | None => []
  | Some analysis =>
      (pinIssue <$> unconnectedPins analysis)
      ++ (netIssue <$> floatingNets analysis)
      ++ (if (1 <? subgraphCount analysis)%nat
          then [islandIssue (subgraphCount analysis)] else [])
  end.

End Elk.

(** ** lib/patch-extractor.ts: from a selection to a patch *)
Module Extractor.
Import Js.

Record SchematicComponent := {
  sc_id : string;
  sc_type : string;
  sc_name : string;
  sc_x : Z;
  sc_y : Z;
  rotation : option Z;
  sc_properties : option Patch.JsObject;
  (** not declared by the interface: the field that the insertion hook's
      object spread carries over from a patch component *)
  sc_position : option Patch.Position
}.

Record SchematicConnection := {
  conn_id : string;
  net : option string;
  (** endpoints, each spelled [ComponentName.PinName] *)
  conn_connections : list string
}.

Record SchematicState := {
  components : list SchematicComponent;
  connections : list SchematicConnection
}.

(** The shape [extractPatchFromSchematic] returns. *)
Record ExtractedComponent := {
  xc_id : string;
  xc_type : string;
  xc_name : string;
  xc_x : Z;
  xc_y : Z;
  xc_rotation : Z;
  xc_properties : Patch.JsObject
}.

Record ExtractedNet := {
  xn_id : string;
  xn_name : option string;
  xn_connections : list string
}.

Record ExtractedPin := { xp_name : string; xp_net : option string }.

Record ExtractedMetadata := {
  xm_version : string;
  xm_createdAt : string;
  xm_updatedAt : string;
  xm_description : string
}.

Record ExtractedPatch := {
  patch_id : string;
  patch_name : string;
  patchComponents : list ExtractedComponent;
  nets : list ExtractedNet;
  interfacePins : list ExtractedPin;
  metadata : ExtractedMetadata
}.

(** The state of the loop over the connections. *)
Record LoopState := {
  internalNets : list ExtractedNet;
  pins : list ExtractedPin;
  processedNets : gset string
}.

Definition isSelected (selectedComponentNames : gset string)
    (endpoint : string) : bool :=
  bool_decide (beforeDot endpoint ∈ selectedComponentNames).

Definition selectedEndpoints (names : gset string)
    (conn : SchematicConnection) : list string :=
  List.filter (isSelected names) (conn_connections conn).

Definition externalEndpoints (names : gset string)
    (conn : SchematicConnection) : list string :=
  List.filter (fun endpoint => negb (isSelected names endpoint))
              (conn_connections conn).

(** What one pass of the loop body pushes, for a connection that is not
    skipped: the internal net of case 1 and the interface pins of case 2. *)
Definition pushedNets (names : gset string) (conn : SchematicConnection)
    : list ExtractedNet :=
  if (length (externalEndpoints names conn) =? 0)%nat
     && (0 <? length (selectedEndpoints names conn))%nat
  then [ {| xn_id := conn_id conn; xn_name := net conn;
            xn_connections := selectedEndpoints names conn |} ]
  else [].

Definition pushedPins (names : gset string) (conn : SchematicConnection)
    : list ExtractedPin :=
  if (0 <? length (selectedEndpoints names conn))%nat
     && (0 <? length (externalEndpoints names conn))%nat
  then (fun endpoint => {| xp_name := endpoint; xp_net := net conn |})
       <$> selectedEndpoints names conn
  else [].

Definition loopBody (names : gset string) (st : LoopState)
    (conn : SchematicConnection) : LoopState :=
  if bool_decide (conn_id conn ∈ processedNets st) then st
  else {| internalNets := internalNets st ++ pushedNets names conn;
          pins := pins st ++ pushedPins names conn;
          processedNets := {[conn_id conn]} ∪ processedNets st |}.

Definition loopStart : LoopState :=
  {| internalNets := []; pins := []; processedNets := ∅ |}.

Definition toPatchComponent (c : SchematicComponent) : ExtractedComponent :=
  {| xc_id := sc_id c; xc_type := sc_type c; xc_name := sc_name c;
     xc_x := sc_x c; xc_y := sc_y c;
     xc_rotation := default 0%Z (rotation c);
     xc_properties := default [] (sc_properties c) |}.

(** [components.filter((c) => selectedIds.has(c.id))] *)
Definition selectedComponentsOf (schematicState : SchematicState)
    (selectedIds : gset string) : list SchematicComponent :=
  List.filter (fun c => bool_decide (sc_id c ∈ selectedIds))
              (components schematicState).

(** [new Set(selectedComponents.map((c) => c.name))] *)
Definition selectedComponentNamesOf (schematicState : SchematicState)
    (selectedIds : gset string) : gset string :=
  list_to_set (sc_name <$> selectedComponentsOf schematicState selectedIds).

(** [extractPatchFromSchematic]; [created] and [updated] are the two
    readings of the clock, and the second component of the result is what
    went to [console.warn]. *)
Definition extractPatchFromSchematic (created updated : string)
    (schematicState : SchematicState) (selectedIds : gset string)
    (patchName : string) : Outcome (ExtractedPatch * list string) :=
  let selectedComponents := selectedComponentsOf schematicState selectedIds in
  let selectedComponentNames :=
    selectedComponentNamesOf schematicState selectedIds in
  if (length selectedComponents =? 0)%nat
  then Throw "至少選擇 2 個元件"
  else
    let final := foldl (loopBody selectedComponentNames) loopStart
                       (connections schematicState) in
    let warnings :=
      if (length (internalNets final) =? 0)%nat
         && (length (pins final) =? 0)%nat
      then ["警告：提取的 Patch 沒有連接"] else [] in
    Ok ({| patch_id := replaceSpaces "-" (toLowerCase patchName);
           patch_name := patchName;
           patchComponents := toPatchComponent <$> selectedComponents;
           nets := internalNets final;
           interfacePins := pins final;
           metadata :=
             {| xm_version := "1.0";
                xm_createdAt := created;
                xm_updatedAt := updated;
                xm_description :=
                  "Extracted patch from schematic containing "
                  +:+ ofNat (length selectedComponents) +:+ " components" |} |},
        warnings).

(** *** [validateExtractedPatch] *)

Record ExtractedValidation := {
  valid : bool;
  errors : list string;
  warnings : list string
}.

(** [`${net.name}`]: a missing name prints as [undefined]. *)
Definition shown (o : option string) : string := default "undefined" o.

Definition validateExtractedPatch (patch : ExtractedPatch)
    : ExtractedValidation :=
  let componentNames : gset string :=
    list_to_set (xc_name <$> patchComponents patch) in
  let errs :=
    (if bool_decide (patch_id patch = EmptyString)
        || bool_decide (patch_name patch = EmptyString)
     then ["Patch 必須有 ID 和名稱"] else [])
    ++ (if (length (patchComponents patch) =? 0)%nat
        then ["Patch 至少必須有一個元件"] else [])
    ++ (n ← nets patch;
        connection ← xn_connections n;
        if bool_decide (beforeDot connection ∈ componentNames) then []
        else ["網絡 " +:+ shown (xn_name n) +:+ " 引用了不存在的元件 "
              +:+ beforeDot connection])
    ++ (pin ← interfacePins patch;
        if bool_decide (beforeDot (xp_name pin) ∈ componentNames) then []
        else ["接口引腳 " +:+ xp_name pin +:+ " 引用了不存在的元件 "
              +:+ beforeDot (xp_name pin)]) in
  let warns :=
    if (length (patchComponents patch) =? 1)%nat
    then ["Patch 只有一個元件，考慮使用符號代替"] else [] in
  {| valid := (length errs =? 0)%nat; errors := errs; warnings := warns |}.

End Extractor.

(** ** lib/patch-api-client.ts: the insertion hook [UseInsertPatch]

    The hook takes its patch as [any]; it is read here as the [PatchData]
    whose fields the hook reads ([position], [componentId], [pinName]). *)
Module Inserter.
Import Js Extractor.

Definition offset : Patch.Position := {| Patch.pos_x := 80; Patch.pos_y := 80 |}.

(** [`${id}-${Date.now()}`] *)
Definition stamped (ident : string) (now : N) : string :=
  ident +:+ "-" +:+ ofN now.

(** [c ? c + o : o] on a number: zero is falsy. *)
Definition shifted (c o : Z) : Z := if (c =? 0)%Z then o else (c + o)%Z.

Definition newComponent (now : N) (comp : Patch.PatchComponent)
    : SchematicComponent :=
  {| sc_id := stamped (Patch.comp_id comp) now;
     sc_type := Patch.comp_type comp;
     sc_name := Patch.comp_name comp;
     sc_x := shifted (Patch.pos_x (Patch.position comp)) (Patch.pos_x offset);
     sc_y := shifted (Patch.pos_y (Patch.position comp)) (Patch.pos_y offset);
     rotation := None;
     sc_properties := Some (Patch.properties comp);
     sc_position := Some (Patch.position comp) |}.

(** [newComponents.find(c => c.name === conn.componentId)?.id] *)
Definition findIdByName (newComponents : list SchematicComponent)
    (nm : string) : option string :=
  sc_id <$> List.find (fun c => bool_decide (sc_name c = nm)) newComponents.

Definition remap (newComponents : list SchematicComponent)
    (conn : Patch.Connection) : string :=
  orElse (findIdByName newComponents (Patch.componentId conn))
         (Patch.componentId conn)
  +:+ "." +:+ Patch.pinName conn.

Definition newConnection (newComponents : list SchematicComponent)
    (now : N) (n : Patch.PatchNet) : SchematicConnection :=
  {| conn_id := stamped (Patch.net_id n) now;
     net := Patch.net_name n;
     conn_connections := remap newComponents <$> Patch.connections n |}.

Section Clock.
(** [clock k] is the [k]-th reading of [Date.now()]; a call that starts
    at reading [tick] takes one reading per component, then one per
    net. *)
Variable clock : nat → N.

Definition newComponentsAt (tick : nat) (patch : Patch.PatchData)
    : list SchematicComponent :=
  imap (fun i comp => newComponent (clock (tick + i)) comp)
       (Patch.components patch).

Definition newConnectionsAt (tick : nat) (patch : Patch.PatchData)
    : list SchematicConnection :=
  let newComponents := newComponentsAt tick patch in
  imap (fun j n =>
          newConnection newComponents
            (clock (tick + length (Patch.components patch) + j)) n)
       (Patch.nets patch).

(** [onInsertPatch]: the next schematic state and the number of clock
    readings taken so far. *)
Definition onInsertPatch (tick : nat) (patch : Patch.PatchData)
    (prev : SchematicState) : SchematicState * nat :=
  ({| components := components prev ++ newComponentsAt tick patch;
      connections := connections prev ++ newConnectionsAt tick patch |},
   tick + length (Patch.components patch) + length (Patch.nets patch))%nat.

(** Two calls in a row on the same patch. *)
Definition insertTwice (tick : nat) (patch : Patch.PatchData)
    (prev : SchematicState) : SchematicState * nat :=
  let '(st1, tick1) := onInsertPatch tick patch prev in
  onInsertPatch tick1 patch st1.
End Clock.

(** *** The selection hook [UseMultiSelect] *)

(** [handleCanvasClick(event, componentAtClick?)]: the next set of selected
    identifiers. *)
Definition handleCanvasClick (shiftKey : bool)
    (componentAtClick : option SchematicComponent)
    (selectedComponentIds : gset string) : gset string :=
  match componentAtClick with
  | Some component =>
      if shiftKey
      then (if bool_decide (sc_id component ∈ selectedComponentIds)
            then selectedComponentIds ∖ {[sc_id component]}
            else {[sc_id component]} ∪ selectedComponentIds)
      else {[sc_id component]}
  | None => ∅
  end.

End Inserter.

(** ** lib/patch-manager.ts: the library store *)
Module Manager.
Import Js Patch.

Record PatchStorageConfig := {
  patchDir : string;
  libraryDir : string;
  backupDir : string
}.

(** What a file holds: the text [JSON.stringify] makes of a patch or of the
    array of library entries, or any other text. *)
Inductive File :=
| PatchFile (json : JsonOf PatchComponent PatchNet)
| IndexFile (entries : list PatchLibraryEntry)
| OtherFile (text : string).

(** The mutable world of a [PatchManager]: the patch objects the caller and
    the manager share by reference, the files, the manager's
    [libraryIndex] and the number of clock readings taken so far. An index
    entry holds its metadata by value, as it is when the entry is made and
    as the index file records it; in the source the entry shares the
    metadata object of its patch, so that a later write to that object also
    shows in the entry. No property below reads the metadata of an entry
    made earlier. *)
Record World := {
  heap : nat → PatchData;
  allocated : nat;
  fs : gmap string File;
  libraryIndex : gmap string PatchLibraryEntry;
  ticks : nat
}.

Definition setHeap (h : nat → PatchData) (w : World) : World :=
  {| heap := h; allocated := allocated w; fs := fs w;
     libraryIndex := libraryIndex w; ticks := ticks w |}.
Definition setAllocated (n : nat) (w : World) : World :=
  {| heap := heap w; allocated := n; fs := fs w;
     libraryIndex := libraryIndex w; ticks := ticks w |}.
Definition setFs (f : gmap string File) (w : World) : World :=
  {| heap := heap w; allocated := allocated w; fs := f;
     libraryIndex := libraryIndex w; ticks := ticks w |}.
Definition setLibraryIndex (i : gmap string PatchLibraryEntry) (w : World)
    : World :=
  {| heap := heap w; allocated := allocated w; fs := fs w;
     libraryIndex := i; ticks := ticks w |}.
Definition setTicks (t : nat) (w : World) : World :=
  {| heap := heap w; allocated := allocated w; fs := fs w;
     libraryIndex := libraryIndex w; ticks := t |}.

(** Computations that read and write the world and may throw; a throw
    keeps the world as it was when the error was raised. *)
Definition M (A : Type) : Type := World → Outcome A * World.

#[global] Instance M_ret : MRet M := fun A a w => (Ok a, w).
#[global] Instance M_bind : MBind M := fun A B f m w =>
  match m w with
  | (Ok a, w') => f a w'
  | (Throw msg, w') => (Throw msg, w')
  end.

Definition throw {A} (msg : string) : M A := fun w => (Throw msg, w).
Definition liftOutcome {A} (o : Outcome A) : M A := fun w => (o, w).

(** [try { body } catch (error) { handler }] *)
Definition tryCatch {A} (body : M A) (handler : string → M A) : M A :=
  fun w =>
    match body w with
    | (Ok a, w') => (Ok a, w')
    | (Throw msg, w') => handler msg w'
    end.

Definition exec {A} (m : M A) (w : World) : World := (m w).2.

(** The object store. *)
Definition readPatch (r : nat) : M PatchData := fun w => (Ok (heap w r), w).
Definition writePatch (r : nat) (p : PatchData) : M unit := fun w =>
  (Ok tt, setHeap (fun r' => if bool_decide (r' = r) then p else heap w r') w).
Definition allocPatch (p : PatchData) : M nat := fun w =>
  (Ok (allocated w),
   setAllocated (S (allocated w))
     (setHeap (fun r' => if bool_decide (r' = allocated w) then p
                         else heap w r') w)).

(** [fs]: the regular files. [writeFileSync] is in the section below: it
    needs to know where the file system takes a new file. *)
Definition existsSync (path : string) : M bool := fun w =>
  (Ok (bool_decide (is_Some (fs w !! path))), w).
Definition readFileSync (path : string) : M File := fun w =>
  match fs w !! path with
  | Some f => (Ok f, w)
  | None =>
      (Throw ("ENOENT: no such file or directory, open '" +:+ path +:+ "'"),
       w)
  end.

(** [this.libraryIndex] *)
Definition getIndex : M (gmap string PatchLibraryEntry) := fun w =>
  (Ok (libraryIndex w), w).
Definition indexSet (k : string) (e : PatchLibraryEntry) : M unit := fun w =>
  (Ok tt, setLibraryIndex (<[k := e]> (libraryIndex w)) w).
(** [for (const entry of data) this.libraryIndex.set(entry.id, entry)] *)
Definition indexSetAll (data : list PatchLibraryEntry) : M unit := fun w =>
  (Ok tt,
   setLibraryIndex
     (foldl (fun index entry => <[entry_id entry := entry]> index)
            (libraryIndex w) data) w).
Definition indexDelete (k : string) : M unit := fun w =>
  (Ok tt, setLibraryIndex (delete k (libraryIndex w)) w).

(** [patch.metadata.modifiedAt = now] *)
Definition withModifiedAt (now : string) (p : PatchData) : PatchData :=
  {| schemaVersion := schemaVersion p;
     metadata :=
       {| name := name (metadata p); description := description (metadata p);
          version := version (metadata p); createdAt := createdAt (metadata p);
          modifiedAt := now; author := author (metadata p);
          tags := tags (metadata p) |};
     components := components p; nets := nets p;
     interfacePins := interfacePins p; symbolSvg := symbolSvg p |}.

(** [JSON.stringify(patch)] of a well-typed patch, as the document
    [JSON.parse] gives back. *)
Definition stringifyPatch (p : PatchData) : File :=
  PatchFile {| j_schemaVersion := Some (schemaVersion p);
               j_metadata := Some (metadata p);
               j_components := Some (components p);
               j_nets := Some (nets p);
               j_interfacePins := Some (interfacePins p);
               j_symbolSvg := symbolSvg p |}.

(** [JSON.parse(content)] where a patch document is expected: an array has
    none of the fields. *)
Definition parsePatchJson (content : File)
    : Outcome (JsonOf PatchComponent PatchNet) :=
  match content with
  | PatchFile json => Ok json
  | IndexFile _ =>
      Ok {| j_schemaVersion := None; j_metadata := None; j_components := None;
            j_nets := None; j_interfacePins := None; j_symbolSvg := None |}
  | OtherFile _ => Throw "SyntaxError: Unexpected token in JSON"
  end.

(** [JSON.parse(content)] where the index is expected and iterated. *)
Definition parseIndexJson (content : File) : Outcome (list PatchLibraryEntry) :=
  match content with
  | IndexFile entries => Ok entries
  | PatchFile _ => Throw "TypeError: data is not iterable"
  | OtherFile _ => Throw "SyntaxError: Unexpected token in JSON"
  end.

Definition hasErrors (errors : list PatchValidationError) : bool :=
  existsb (fun e => bool_decide (severity e = SevError)) errors.

Definition errorMessages (errors : list PatchValidationError) : string :=
  join ", "
    (message <$> List.filter (fun e => bool_decide (severity e = SevError)) errors).

Section Store.
(** [this.config], [path.join], the clock ([clock k] is the [k]-th
    reading of [Date.now()]) and [Date.prototype.toISOString]. *)
Variable config : PatchStorageConfig.
Variable pathJoin : string → string → string.
(** [writeError path]: the error that the file system raises when a file
    is to be made at [path], where there is none: [ENOENT] when the
    directory that [path] lies in does not exist, [EISDIR] when [path] is
    a directory, and so on; [None] when it makes the file. The methods of
    the manager make and remove no directory, so that this does not change
    over the calls. *)
Variable writeError : string → option string.
Variable clock : nat → N.
Variable toISOString : N → string.

(** [Date.now()] *)
Definition dateNow : M N := fun w =>
  (Ok (clock (ticks w)), setTicks (S (ticks w)) w).
(** [new Date().toISOString()] *)
Definition nowISO : M string := t ← dateNow; mret (toISOString t).

Definition indexPath : string := pathJoin (libraryDir config) "index.json".

(** The error of a write at [path], if any. The index file lies in
    [libraryDir], which the constructor makes ([ensureDirectories]), and a
    file that exists is overwritten; for every other path, such as a patch
    file or a backup whose name holds a path separator, or an output
    path, [writeError] tells. *)
Definition refused (path : string) (w : World) : option string :=
  if bool_decide (path = indexPath) || bool_decide (is_Some (fs w !! path))
  then None
  else writeError path.

(** [writeFileSync(path, content)] *)
Definition writeFileSync (path : string) (content : File) : M unit := fun w =>
  match refused path w with
  | None => (Ok tt, setFs (<[path := content]> (fs w)) w)
  | Some msg => (Throw msg, w)
  end.

(** [saveLibraryIndex]: the array of the index's values. *)
Definition saveLibraryIndex : M unit :=
  index ← getIndex;
  writeFileSync indexPath (IndexFile ((map_to_list index).*2)).

(** [`patch_${patch.metadata.name.replace(/\s+/g, "_")}`] *)
Definition derivedId (p : PatchData) : string :=
  "patch_" +:+ replaceSpaces "_" (name (metadata p)).

Definition updateLibraryIndex (r : nat) (filepath : string) : M unit :=
  patch ← readPatch r;
  now ← nowISO;
  let entry := {| entry_id := derivedId patch;
                  entry_name := name (metadata patch);
                  filePath := filepath;
                  entry_metadata := metadata patch;
                  previewSvg := None;
                  lastUsed := Some now |} in
  _ ← indexSet (derivedId patch) entry;
  saveLibraryIndex.

(** [filename || `${name}_v${version}.tscircuit`] *)
Definition fileNameFor (filename : option string) (p : PatchData) : string :=
  orElse filename
    (replaceSpaces "_" (name (metadata p)) +:+ "_v"
     +:+ version (metadata p) +:+ ".tscircuit").

(** [savePatch(patch, filename?)]; [r] is the reference to [patch]. *)
Definition savePatch (r : nat) (filename : option string) : M string :=
  patch ← readPatch r;
  let errors := validatePatch patch in
  if hasErrors errors
  then throw ("Cannot save patch with errors: " +:+ errorMessages errors)
  else
    now ← nowISO;
    _ ← writePatch r (withModifiedAt now patch);
    patch ← readPatch r;
    let nm := fileNameFor filename patch in
    let filepath := pathJoin (patchDir config) nm in
    present ← existsSync filepath;
    _ ← ((if (present : bool)
         then
           stamp ← dateNow;
           let backupName := nm +:+ "." +:+ ofN stamp +:+ ".backup" in
           let backupPath := pathJoin (backupDir config) backupName in
           content ← readFileSync filepath;
           writeFileSync backupPath content
         else mret tt) : M unit);
    _ ← writeFileSync filepath (stringifyPatch patch);
    _ ← updateLibraryIndex r filepath;
    mret filepath.

(** [loadPatch(filepath)]: a reference to the fresh patch object. The
    default metadata reads the clock only when the document has none. *)
Definition loadPatch (filepath : string) : M nat :=
  present ← existsSync filepath;
  if negb present
  then throw ("Patch file not found: " +:+ filepath)
  else
    content ← readFileSync filepath;
    json ← liftOutcome (parsePatchJson content);
    patch ← match j_metadata json with
            | Some _ => mret (circuitJsonToPatch EmptyString EmptyString json)
            | None =>
                now1 ← nowISO;
                now2 ← nowISO;
                mret (circuitJsonToPatch now1 now2 json)
            end;
    allocPatch patch.

Definition getLibrary : M (list PatchLibraryEntry) :=
  index ← getIndex; mret ((map_to_list index).*2).

Definition getLibraryEntry (patchId : string) : M (option PatchLibraryEntry) :=
  index ← getIndex; mret (index !! patchId).

Definition deletePatch (patchId : string) : M bool :=
  index ← getIndex;
  match index !! patchId with
  | None => mret false
  | Some entry =>
      tryCatch
        (present ← existsSync (filePath entry);
         _ ← ((if (present : bool)
              then
                stamp ← dateNow;
                let backupName := "deleted_" +:+ ofN stamp +:+ "_"
                                  +:+ entry_name entry +:+ ".tscircuit" in
                let backupPath := pathJoin (backupDir config) backupName in
                content ← readFileSync (filePath entry);
                writeFileSync backupPath content
              else mret tt) : M unit);
         _ ← indexDelete patchId;
         _ ← saveLibraryIndex;
         mret true)
        (fun _ => mret false)
  end.

Definition importPatch (filepath : string) : M PatchLibraryEntry :=
  r ← loadPatch filepath;
  savedPath ← savePatch r None;
  patch ← readPatch r;
  stamp ← dateNow;
  now ← nowISO;
  let entry := {| entry_id := "patch_" +:+ ofN stamp;
                  entry_name := name (metadata patch);
                  filePath := savedPath;
                  entry_metadata := metadata patch;
                  previewSvg := None;
                  lastUsed := Some now |} in
  _ ← indexSet (entry_id entry) entry;
  _ ← saveLibraryIndex;
  mret entry.

(** [searchPatches(query)] *)
Definition matchesQuery (lowerQuery : string) (entry : PatchLibraryEntry) : bool :=
  includes (toLowerCase (entry_name entry)) lowerQuery
  || match tags (entry_metadata entry) with
     | Some ts => existsb (fun tag => includes (toLowerCase tag) lowerQuery) ts
     | None => false
     end.

Definition searchPatches (query : string) : M (list PatchLibraryEntry) :=
  index ← getIndex;
  mret (List.filter (matchesQuery (toLowerCase query)) ((map_to_list index).*2)).

(** [exportPatch(patchId, outputPath)] *)
Definition exportPatch (patchId outputPath : string) : M bool :=
  index ← getIndex;
  match index !! patchId with
  | None => mret false
  | Some entry =>
      tryCatch
        (content ← readFileSync (filePath entry);
         _ ← writeFileSync outputPath content;
         mret true)
        (fun _ => mret false)
  end.

(** [validatePatchId(patchId)] *)
Definition validatePatchId (patchId : string) : M (list PatchValidationError) :=
  index ← getIndex;
  match index !! patchId with
  | None => mret []
  | Some entry =>
      r ← loadPatch (filePath entry);
      patch ← readPatch r;
      mret (validatePatch patch)
  end.

(** [loadLibraryIndex], the last step of the constructor. *)
Definition loadLibraryIndex : M unit :=
  present ← existsSync indexPath;
  if (present : bool)
  then
    tryCatch
      (content ← readFileSync indexPath;
       data ← liftOutcome (parseIndexJson content);
       indexSetAll data)
      (fun _ => mret tt)
  else mret tt.

(** [new PatchManager(config)] over the files [files]. *)
Definition newPatchManager (objects : nat → PatchData) (next : nat)
    (files : gmap string File) (tick : nat) : World :=
  exec loadLibraryIndex
    {| heap := objects; allocated := next; fs := files;
       libraryIndex := ∅; ticks := tick |}.

(** The mutating calls a client makes, and a run of them; a call that
    throws leaves the world as it was at the throw. *)
Inductive Call :=
| CallSave (r : nat) (filename : option string)
| CallImport (filepath : string).

Definition perform (w : World) (c : Call) : World :=
  match c with
  | CallSave r filename => exec (savePatch r filename) w
  | CallImport filepath => exec (importPatch filepath) w
  end.

Definition performAll (calls : list Call) (w : World) : World :=
  foldl perform w calls.
End Store.

End Manager.

(** ** lib/project-manager.ts: projects and versions *)
Module Project.
Import Js.

Inductive FileType := Schematic | PatchType | Config.

Record ProjectFile := {
  file_id : string;
  file_name : string;
  path : string;
  file_type : FileType;
  file_modifiedAt : string;
  sizeBytes : Z
}.

Record ManifestMetadata := {
  m_version : string;
  m_createdAt : string;
  m_modifiedAt : string;
  m_author : option string
}.

Record Settings := {
  autoSave : option bool;
  autoSaveInterval : option Z;
  enableVersionControl : option bool
}.

Record ProjectManifest := {
  project_name : string;
  project_description : option string;
  mainFile : string;
  patches : list string;
  project_metadata : ManifestMetadata;
  settings : Settings
}.

Record ProjectStructure := {
  root : string;
  main : ProjectFile;
  structure_patches : list ProjectFile;
  config : option ProjectFile
}.

(** A [ProjectManager] with the number of clock readings taken so far. *)
Record ProjectManager := {
  projectRoot : string;
  manifest : option ProjectManifest;
  fileIndex : gmap string ProjectFile;
  readings : nat
}.

#[global] Instance FileType_eq_dec : EqDecision FileType.
Proof. solve_decision. Defined.

(** [new ProjectManager(projectRoot)] *)
Definition newProjectManager (rootDir : string) (tick : nat) : ProjectManager :=
  {| projectRoot := rootDir; manifest := None; fileIndex := ∅; readings := tick |}.

Definition withModified (now : string) (m : ProjectManifest) : ProjectManifest :=
  {| project_name := project_name m;
     project_description := project_description m;
     mainFile := mainFile m;
     patches := patches m;
     project_metadata :=
       {| m_version := m_version (project_metadata m);
          m_createdAt := m_createdAt (project_metadata m);
          m_modifiedAt := now;
          m_author := m_author (project_metadata m) |};
     settings := settings m |}.

Definition withPatches (l : list string) (m : ProjectManifest) : ProjectManifest :=
  {| project_name := project_name m;
     project_description := project_description m;
     mainFile := mainFile m;
     patches := l;
     project_metadata := project_metadata m;
     settings := settings m |}.

(** [a.splice(a.indexOf(x), 1)] when [x] is in [a]: the first [x] goes. *)
Fixpoint removeFirst (x : string) (a : list string) : list string :=
  match a with
  | [] => []
  | y :: rest => if bool_decide (y = x) then rest else y :: removeFirst x rest
  end.

Section Clock.
Variable clock : nat → N.
Variable toISOString : N → string.

(** [createProject(name, mainFileName)] *)
Definition createProject (nm mainFileName : string) (pm : ProjectManager)
    : ProjectManifest * ProjectManager :=
  let now := toISOString (clock (readings pm)) in
  let m := {| project_name := nm;
              project_description := None;
              mainFile := mainFileName;
              patches := [];
              project_metadata :=
                {| m_version := "1.0.0"; m_createdAt := now;
                   m_modifiedAt := now; m_author := None |};
              settings :=
                {| autoSave := Some true;
                   autoSaveInterval := Some 5000%Z;
                   enableVersionControl := Some true |} |} in
  (m, {| projectRoot := projectRoot pm; manifest := Some m;
         fileIndex := fileIndex pm; readings := S (readings pm) |}).

(** [loadProject(manifestPath)] *)
Definition loadProject (manifestPath : string) (pm : ProjectManager)
    : ProjectManifest * ProjectManager :=
  match manifest pm with
  | Some m => (m, pm)
  | None => createProject "Untitled Project" "main.tscircuit" pm
  end.

(** [saveProjectManifest()] *)
Definition saveProjectManifest (pm : ProjectManager) : bool * ProjectManager :=
  match manifest pm with
  | None => (false, pm)
  | Some m =>
      (true,
       {| projectRoot := projectRoot pm;
          manifest := Some (withModified (toISOString (clock (readings pm))) m);
          fileIndex := fileIndex pm;
          readings := S (readings pm) |})
  end.

(** [addPatchFile(patchPath, patchName)] *)
Definition addPatchFile (patchPath patchName : string) (pm : ProjectManager)
    : ProjectManager :=
  match manifest pm with
  | None => pm
  | Some m =>
      if bool_decide (patchPath ∈ patches m) then pm
      else
        let file :=
          {| file_id := "patch_" +:+ ofN (clock (readings pm));
             file_name := patchName;
             path := patchPath;
             file_type := PatchType;
             file_modifiedAt := toISOString (clock (S (readings pm)));
             sizeBytes := 0 |} in
        (saveProjectManifest
           {| projectRoot := projectRoot pm;
              manifest := Some (withPatches (patches m ++ [patchPath]) m);
              fileIndex := <[patchName := file]> (fileIndex pm);
              readings := S (S (readings pm)) |}).2
  end.

(** [removePatchFile(patchName)] *)
Definition removePatchFile (patchName : string) (pm : ProjectManager)
    : bool * ProjectManager :=
  match manifest pm with
  | None => (false, pm)
  | Some m =>
      match fileIndex pm !! patchName with
      | None => (false, pm)
      | Some file =>
          if bool_decide (path file ∈ patches m)
          then
            (true,
             (saveProjectManifest
                {| projectRoot := projectRoot pm;
                   manifest :=
                     Some (withPatches (removeFirst (path file) (patches m)) m);
                   fileIndex := delete patchName (fileIndex pm);
                   readings := readings pm |}).2)
          else (false, pm)
      end
  end.

(** [getProjectStructure()]; the files come in no particular order. *)
Definition getProjectStructure (pm : ProjectManager)
    : ProjectStructure * ProjectManager :=
  let mainName :=
    orElse (mainFile <$> manifest pm) "main.tscircuit" in
  ({| root := projectRoot pm;
      main := {| file_id := "main"; file_name := mainName; path := mainName;
                 file_type := Schematic;
                 file_modifiedAt := toISOString (clock (readings pm));
                 sizeBytes := 0 |};
      structure_patches :=
        List.filter (fun f => bool_decide (file_type f = PatchType))
                    ((map_to_list (fileIndex pm)).*2);
      config := None |},
   {| projectRoot := projectRoot pm; manifest := manifest pm;
      fileIndex := fileIndex pm; readings := S (readings pm) |}).

(** [getAllFiles()] *)
Definition getAllFiles (pm : ProjectManager) : list ProjectFile :=
  (map_to_list (fileIndex pm)).*2.

(** The calls that change the patch list of a project. *)
Inductive Edit :=
| Add (patchPath patchName : string)
| Remove (patchName : string)
| Save.

Definition apply (pm : ProjectManager) (e : Edit) : ProjectManager :=
  match e with
  | Add patchPath patchName => addPatchFile patchPath patchName pm
  | Remove patchName => (removePatchFile patchName pm).2
  | Save => (saveProjectManifest pm).2
  end.

(** *** [VersionControlSystem] *)
Record VersionControlSystem := {
  vcs_root : string;
  versions : gmap string (list string);
  vcs_readings : nat
}.

Definition versionsOf (patchId : string) (v : VersionControlSystem) : list string :=
  default [] (versions v !! patchId).

(** [createSnapshot(patchId, patchContent)] *)
Definition createSnapshot (patchId patchContent : string)
    (v : VersionControlSystem) : string * VersionControlSystem :=
  let timestamp :=
    replaceColonsDots "-" (toISOString (clock (vcs_readings v))) in
  let versionId := patchId +:+ "_v" +:+ timestamp in
  (versionId,
   {| vcs_root := vcs_root v;
      versions := <[patchId := versionsOf patchId v ++ [versionId]]> (versions v);
      vcs_readings := S (vcs_readings v) |}).

(** [getVersions(patchId)] *)
Definition getVersions (patchId : string) (v : VersionControlSystem)
    : list string :=
  versionsOf patchId v.

(** [restoreVersion(patchId, versionId)] *)
Definition restoreVersion (patchId versionId : string)
    (v : VersionControlSystem) : bool :=
  bool_decide (versionId ∈ versionsOf patchId v).

(** [cleanupOldVersions(patchId, keepCount)] on an integer [keepCount]:
    [Math.max(0, versions.length - keepCount)] versions go from the front. *)
Definition cleanupOldVersions (patchId : string) (keepCount : Z)
    (v : VersionControlSystem) : Z * VersionControlSystem :=
  let vs := versionsOf patchId v in
  let deletedCount := Z.max 0 (Z.of_nat (length vs) - keepCount) in
  if (0 <? deletedCount)%Z
  then (deletedCount,
        {| vcs_root := vcs_root v;
           versions := <[patchId := drop (Z.to_nat deletedCount) vs]> (versions v);
           vcs_readings := vcs_readings v |})
  else (deletedCount, v).

End Clock.

End Project.

(** ** lib/symbol-library.ts: the symbol registry *)
Module SymbolLibrary.
Import Js.

Inductive Category :=
  Passive | Active | PowerCat | Connector | Logic | Analog | PatchCat.

(** The string a category is in the source. *)
Definition categoryName (c : Category) : string :=
  match c with
  | Passive => "Passive" | Active => "Active" | PowerCat => "Power"
  | Connector => "Connector" | Logic => "Logic" | Analog => "Analog"
  | PatchCat => "Patch"
  end.

Record SymbolPin := {
  sp_id : string;
  sp_name : string;
  sp_position : Patch.PinPosition;
  sp_type : Patch.PinType
}.

Record Symbol := {
  symbol_id : string;
  symbol_name : string;
  symbol_type : string;
  category : Category;
  svg : string;
  pins : list SymbolPin;
  defaultProperties : option Patch.JsObject;
  isPatch : option bool;
  fallbackSymbol : option string
}.

(** The two maps of a [SymbolLibraryService]. *)
Record Library := {
  symbols : gmap string Symbol;
  categories : gmap string (list Symbol)
}.

(** [initializeCategories()] on a new service *)
Definition initializeCategories : Library :=
  {| symbols := ∅;
     categories :=
       foldl (fun m cat => <[cat := []]> m) ∅
             ["Passive"; "Active"; "Power"; "Connector"; "Logic"; "Analog";
              "Patch"] |}.

(** [getSymbolsByCategory(category)] *)
Definition getSymbolsByCategory (cat : string) (lib : Library) : list Symbol :=
  default [] (categories lib !! cat).

(** [registerSymbol(symbol)] *)
Definition registerSymbol (symbol : Symbol) (lib : Library) : Library :=
  {| symbols := <[symbol_id symbol := symbol]> (symbols lib);
     categories :=
       <[categoryName (category symbol) :=
           getSymbolsByCategory (categoryName (category symbol)) lib ++ [symbol]]>
         (categories lib) |}.

(** [getSymbol(id)] *)
Definition getSymbol (ident : string) (lib : Library) : option Symbol :=
  symbols lib !! ident.

(** [searchSymbols(query)]; the symbols come in no particular order. *)
Definition searchSymbols (query : string) (lib : Library) : list Symbol :=
  List.filter
    (fun symbol =>
       includes (toLowerCase (symbol_name symbol)) (toLowerCase query)
       || includes (toLowerCase (symbol_type symbol)) (toLowerCase query))
    ((map_to_list (symbols lib)).*2).

(** [getStatistics()] *)
Record Statistics := {
  totalSymbols : nat;
  symbolsByCategory : gmap string nat
}.

Definition getStatistics (lib : Library) : Statistics :=
  {| totalSymbols := size (symbols lib);
     symbolsByCategory := length <$> categories lib |}.

End SymbolLibrary.

(** * The vocabulary of the properties and the sample inputs *)

(** ** Strings: definitions *)
Module StringSpec.
Import Js.

(** [needle] occurs in [hay]. *)
Definition occursIn (needle hay : string) : Prop :=
  ∃ before after, hay = before +:+ needle +:+ after.

End StringSpec.

(** ** lib/patch.ts: definitions *)
Module PatchSpec.
Import Js Patch.

(** The patch of the test "Patch Manager: Save & Load": one resistor with
    the property [resistance], no net. *)
Definition savedTestPatch : PatchData :=
  {| schemaVersion := "1.0";
     metadata := {| name := "Save Test Patch"; description := None;
                    version := "1.0.0"; createdAt := "2024-01-01T00:00:00.000Z";
                    modifiedAt := "2024-01-01T00:00:00.000Z";
                    author := None; tags := None |};
     components := [ {| comp_id := "r1"; comp_name := "R1";
                        comp_type := "resistor";
                        properties := [("resistance", PStr "10k")];
                        position := {| pos_x := 0; pos_y := 0 |} |} ];
     nets := [];
     interfacePins := [];
     symbolSvg := None |}.

(** The same patch with a net that has a single endpoint. *)
Definition floatingTestPatch : PatchData :=
  {| schemaVersion := schemaVersion savedTestPatch;
     metadata := metadata savedTestPatch;
     components := components savedTestPatch;
     nets := [ {| net_id := "net1"; net_name := None;
                  connections := [ {| componentId := "r1"; pinName := "pin1" |} ] |} ];
     interfacePins := [];
     symbolSvg := None |}.

End PatchSpec.

(** ** lib/elk-service.ts: definitions *)
Module ElkSpec.
Import Js Patch Elk.

Definition entryOf (component : PatchComponent) : UnconnectedPinEntry :=
  {| up_componentId := comp_id component;
     up_componentName := comp_name component;
     up_pinName := "unspecified" |}.

(** The patch of the test "Integration: Complete Workflow": a battery, a
    resistor and a LED in a loop of three nets. *)
Definition workflowPatch : PatchData :=
  {| schemaVersion := "1.0";
     metadata := {| name := "Complete Test Circuit"; description := None;
                    version := "1.0.0"; createdAt := "2024-01-01T00:00:00.000Z";
                    modifiedAt := "2024-01-01T00:00:00.000Z";
                    author := None; tags := None |};
     components :=
       [ {| comp_id := "battery"; comp_name := "VCC1"; comp_type := "battery";
            properties := [("voltage", PStr "5V")];
            position := {| pos_x := 0; pos_y := 0 |} |};
         {| comp_id := "resistor"; comp_name := "R1"; comp_type := "resistor";
            properties := [("resistance", PStr "220ohm")];
            position := {| pos_x := 50; pos_y := 0 |} |};
         {| comp_id := "led"; comp_name := "D1"; comp_type := "led";
            properties := [];
            position := {| pos_x := 100; pos_y := 0 |} |} ];
     nets :=
       [ {| net_id := "net_vcc"; net_name := Some "VCC";
            connections := [ {| componentId := "battery"; pinName := "pos" |};
                             {| componentId := "resistor"; pinName := "pin1" |} ] |};
         {| net_id := "net_led"; net_name := Some "LED";
            connections := [ {| componentId := "resistor"; pinName := "pin2" |};
                             {| componentId := "led"; pinName := "anode" |} ] |};
         {| net_id := "net_gnd"; net_name := Some "GND";
            connections := [ {| componentId := "led"; pinName := "cathode" |};
                             {| componentId := "battery"; pinName := "neg" |} ] |} ];
     interfacePins := [];
     symbolSvg := None |}.

(** The scenario of the design document: R1 at (0,0), D1 at (50,0) and the
    net VCC from pin2 of R1 to the anode of D1, the endpoints naming the
    components by their identifiers. The property records of the two
    components are left open. *)
Definition scenarioPatch (propsR propsD : list (string * PropValue)) : PatchData :=
  {| schemaVersion := "1.0";
     metadata := {| name := "Scenario"; description := None;
                    version := "1.0.0"; createdAt := "2024-01-01T00:00:00.000Z";
                    modifiedAt := "2024-01-01T00:00:00.000Z";
                    author := None; tags := None |};
     components :=
       [ {| comp_id := "R1"; comp_name := "R1"; comp_type := "resistor";
            properties := propsR;
            position := {| pos_x := 0; pos_y := 0 |} |};
         {| comp_id := "D1"; comp_name := "D1"; comp_type := "led";
            properties := propsD;
            position := {| pos_x := 50; pos_y := 0 |} |} ];
     nets :=
       [ {| net_id := "VCC"; net_name := Some "VCC";
            connections := [ {| componentId := "R1"; pinName := "pin2" |};
                             {| componentId := "D1"; pinName := "anode" |} ] |} ];
     interfacePins := [];
     symbolSvg := None |}.

(** The report on the scenario as the design document states it, for given
    property records. *)
Definition scenarioAsStated (propsR propsD : list (string * PropValue)) : Prop :=
  let analysis := analyzeConnectivity (scenarioPatch propsR propsD) in
  componentCount analysis = 2%nat
  ∧ netCount analysis = 1%nat
  ∧ length (unconnectedPins analysis) ≠ 0%nat
  ∧ (∃ e, e ∈ unconnectedPins analysis ∧ up_componentId e = "R1")
  ∧ (∃ e, e ∈ unconnectedPins analysis ∧ up_componentId e = "D1").

(** The neighbors that are not visited yet. *)
Definition unvisited (adj : gmap string (list string)) (visited : gset string)
    : gset string :=
  list_to_set (allNeighbors adj) ∖ visited.

End ElkSpec.

(** ** lib/patch-extractor.ts: definitions *)
Module ExtractorSpec.
Import Js Extractor.

(** The three things the loop can do with a connection record. *)
Inductive Category := InternalNet | InterfacePins | Ignored.

(** What one pass of the loop body, started in state [st], does with
    [conn]: it pushes one internal net and no pin, or at least one pin and
    no net, or nothing. *)
Definition classifiedAs (names : gset string) (st : LoopState)
    (conn : SchematicConnection) (cat : Category) : Prop :=
  let st' := loopBody names st conn in
  match cat with
  | InternalNet =>
      (∃ n, internalNets st' = internalNets st ++ [n]) ∧ pins st' = pins st
  | InterfacePins =>
      internalNets st' = internalNets st
      ∧ (∃ p ps, pins st' = pins st ++ p :: ps)
  | Ignored =>
      internalNets st' = internalNets st ∧ pins st' = pins st
  end.

(** The records the loop does not skip: the first one of every identifier
    that is not in [seen]. *)
Fixpoint firstById (seen : gset string) (l : list SchematicConnection)
    : list SchematicConnection :=
  match l with
  | [] => []
  | conn :: rest =>
      if bool_decide (conn_id conn ∈ seen) then firstById seen rest
      else conn :: firstById ({[conn_id conn]} ∪ seen) rest
  end.

(** The endpoints a patch holds: those of its nets and those its interface
    pins are named after. *)
Definition patchEndpoints (patch : ExtractedPatch) : list string :=
  (nets patch ≫= xn_connections) ++ (xp_name <$> interfacePins patch).

(** The law as the design document states it, over all the records. *)
Definition unionAsStated (schematicState : SchematicState)
    (selectedIds : gset string) (patch : ExtractedPatch) : Prop :=
  ∀ endpoint,
    endpoint ∈ patchEndpoints patch ↔
    ∃ conn, conn ∈ connections schematicState
            ∧ endpoint ∈ conn_connections conn
            ∧ beforeDot endpoint
                ∈ selectedComponentNamesOf schematicState selectedIds.

(** The diagram of the design document: components A, B and C, a
    connection from A.1 to B.1 and one from B.2 to C.1. *)
Definition part (ident nm : string) : SchematicComponent :=
  {| sc_id := ident; sc_type := "resistor"; sc_name := nm;
     sc_x := 0; sc_y := 0; rotation := None; sc_properties := None;
     sc_position := None |}.

Definition abcDiagram : SchematicState :=
  {| components := [part "a" "A"; part "b" "B"; part "c" "C"];
     connections :=
       [ {| conn_id := "c1"; net := Some "N1";
            conn_connections := ["A.1"; "B.1"] |};
         {| conn_id := "c2"; net := Some "N2";
            conn_connections := ["B.2"; "C.1"] |} ] |}.

Definition abPatch : ExtractedPatch :=
  {| patch_id := "my-patch";
     patch_name := "My Patch";
     patchComponents :=
       [ {| xc_id := "a"; xc_type := "resistor"; xc_name := "A"; xc_x := 0;
            xc_y := 0; xc_rotation := 0; xc_properties := [] |};
         {| xc_id := "b"; xc_type := "resistor"; xc_name := "B"; xc_x := 0;
            xc_y := 0; xc_rotation := 0; xc_properties := [] |} ];
     nets := [ {| xn_id := "c1"; xn_name := Some "N1";
                  xn_connections := ["A.1"; "B.1"] |} ];
     interfacePins := [ {| xp_name := "B.2"; xp_net := Some "N2" |} ];
     metadata :=
       {| xm_version := "1.0"; xm_createdAt := "t1"; xm_updatedAt := "t2";
          xm_description :=
            "Extracted patch from schematic containing 2 components" |} |}.

(** The same diagram with the identifier [c1] used a second time, by a
    connection from A.2 to B.2. *)
Definition repeatedIdDiagram : SchematicState :=
  {| components := [part "a" "A"; part "b" "B"];
     connections :=
       [ {| conn_id := "c1"; net := Some "N1";
            conn_connections := ["A.1"; "B.1"] |};
         {| conn_id := "c1"; net := Some "N2";
            conn_connections := ["A.2"; "B.2"] |} ] |}.

Definition repeatedIdPatch : ExtractedPatch :=
  {| patch_id := "my-patch";
     patch_name := "My Patch";
     patchComponents := patchComponents abPatch;
     nets := [ {| xn_id := "c1"; xn_name := Some "N1";
                  xn_connections := ["A.1"; "B.1"] |} ];
     interfacePins := [];
     metadata := metadata abPatch |}.

End ExtractorSpec.

(** ** lib/patch-api-client.ts: definitions *)
Module InserterSpec.
Import Js Extractor Inserter.

(** No character of [s] is the dash. *)
Fixpoint noDash (s : string) : bool :=
  match s with
  | EmptyString => true
  | String c rest => negb (Ascii.eqb c "-"%char) && noDash rest
  end.

(** The components two calls in a row add to the diagram. *)
Definition addedByTwo (clock : nat → N) (tick : nat) (patch : Patch.PatchData)
    : list SchematicComponent :=
  newComponentsAt clock tick patch
  ++ newComponentsAt clock
       (tick + length (Patch.components patch) + length (Patch.nets patch)) patch.

Definition emptyDiagram : SchematicState :=
  {| components := []; connections := [] |}.

(** A clock that advances by one millisecond between two readings. *)
Definition tickingClock (k : nat) : N := (1700000000000 + N.of_nat k)%N.

(** A clock that does not advance over the two calls. *)
Definition stillClock (k : nat) : N := 1700000000000%N.

End InserterSpec.

(** ** lib/patch-manager.ts: definitions *)
Module ManagerSpec.
Import Js Patch Manager InserterSpec.

(** The heap after [patch.metadata.modifiedAt = now] on the object [r]. *)
Definition touched (now : string) (r : nat) (w : World) : nat → PatchData :=
  fun r' => if bool_decide (r' = r) then withModifiedAt now (heap w r) else heap w r'.

(** Every entry sits under its own identifier. *)
Definition keyed (index : gmap string PatchLibraryEntry) : Prop :=
  ∀ k e, index !! k = Some e → entry_id e = k.

(** The computation keeps the index keyed, whether it returns or throws. *)
Definition preserves {A} (m : M A) : Prop :=
  ∀ w, keyed (libraryIndex w) → keyed (libraryIndex (m w).2).

(** No file is referenced by two entries: the invariant as the design
    document states it. *)
Definition oneEntryPerFile (index : gmap string PatchLibraryEntry) : Prop :=
  ∀ k1 k2 e1 e2, index !! k1 = Some e1 → index !! k2 = Some e2 →
                 filePath e1 = filePath e2 → k1 = k2.

Definition storage : PatchStorageConfig :=
  {| patchDir := "./patches";
     libraryDir := "./patches/library";
     backupDir := "./patches/.backup" |}.

(** Stand-ins for [path.join], on paths that need no normalising, and for
    the ISO notation of a time. *)
Definition slashJoin (dir file : string) : string := dir +:+ "/" +:+ file.
Definition isoStamp (t : N) : string := ofN t.

(** The text of [path] before its last slash, when it holds one. *)
Fixpoint dirOf (path : string) : option string :=
  match path with
  | EmptyString => None
  | String c rest =>
      match dirOf rest with
      | Some d => Some (String c d)
      | None => if Ascii.eqb c "/"%char then Some EmptyString else None
      end
  end.

(** A storage in which the working directory and the three directories of
    [storage] exist and no other directory does. *)
Definition flatStorage (path : string) : option string :=
  match dirOf path with
  | Some d =>
      if bool_decide (d ∈ [patchDir storage; libraryDir storage;
                           backupDir storage])
      then None
      else Some ("ENOENT: no such file or directory, open '" +:+ path +:+ "'")
  | None => None
  end.

(** The paths of a call [savePatch(patch, filename)] on the object [r]: the
    patch file, the backup of the file it overwrites, and the one it
    writes first, which is the backup when there is a file to overwrite. *)
Definition targetPath (config : PatchStorageConfig)
    (pathJoin : string → string → string) (w : World) (r : nat)
    (filename : option string) : string :=
  pathJoin (patchDir config) (fileNameFor filename (heap w r)).

Definition backupPath (config : PatchStorageConfig)
    (pathJoin : string → string → string) (clock : nat → N) (w : World)
    (r : nat) (filename : option string) : string :=
  pathJoin (backupDir config)
    (fileNameFor filename (heap w r) +:+ "."
     +:+ ofN (clock (S (ticks w))) +:+ ".backup").

Definition firstWrite (config : PatchStorageConfig)
    (pathJoin : string → string → string) (clock : nat → N) (w : World)
    (r : nat) (filename : option string) : string :=
  if bool_decide (is_Some (fs w !! targetPath config pathJoin w r filename))
  then backupPath config pathJoin clock w r filename
  else targetPath config pathJoin w r filename.

(** The entry [updateLibraryIndex] makes for [patch] saved at [path], the
    clock being read for the [t]-th time. *)
Definition entryFor (toISOString : N → string) (clock : nat → N)
    (patch : PatchData) (path : string) (t : nat) : PatchLibraryEntry :=
  {| entry_id := derivedId patch;
     entry_name := name (metadata patch);
     filePath := path;
     entry_metadata := metadata patch;
     previewSvg := None;
     lastUsed := Some (toISOString (clock t)) |}.

(** The fields of an entry that are the entry's own. Its metadata is the
    metadata object of the patch it was made from, which a later
    [savePatch] of that patch writes to. *)
Definition ownFields (e : PatchLibraryEntry) :=
  (entry_id e, entry_name e, filePath e, previewSvg e, lastUsed e).

(** A resistor that declares a pin slot no net reaches. *)
Definition danglingPatch : PatchData :=
  {| schemaVersion := "1.0";
     metadata := metadata PatchSpec.savedTestPatch;
     components := [ {| comp_id := "r1"; comp_name := "R1";
                        comp_type := "resistor";
                        properties := [("pin_1", PStr "a"); ("pin_2", PStr "b")];
                        position := {| pos_x := 0; pos_y := 0 |} |} ];
     nets := [];
     interfacePins := [];
     symbolSvg := None |}.

(** A fresh manager over the files [files], the caller holding [patch]. *)
Definition worldWith (patch : PatchData) (files : gmap string File) : World :=
  newPatchManager storage slashJoin (fun _ => patch) 1 files 0.

Definition incoming : gmap string File :=
  {[ "incoming.tscircuit" := stringifyPatch PatchSpec.savedTestPatch ]}.

Definition afterImport : World :=
  performAll storage slashJoin flatStorage tickingClock isoStamp
    [CallImport "incoming.tscircuit"]
    (worldWith PatchSpec.savedTestPatch incoming).

Definition accepted : World := worldWith PatchSpec.savedTestPatch ∅.
Definition rejected : World := worldWith danglingPatch ∅.
Definition afterSave : World :=
  exec (Manager.savePatch storage slashJoin flatStorage tickingClock isoStamp
          0 None) accepted.

Definition savedPath : string := "./patches/Save_Test_Patch_v1.0.0.tscircuit".

(** The saved patch under a name that holds a slash, in a fresh manager,
    and the manager after that patch is saved under a file name of the
    caller's. *)
Definition slashedPatch : PatchData :=
  {| schemaVersion := schemaVersion PatchSpec.savedTestPatch;
     metadata := {| name := "Filter A/B"; description := None;
                    version := "1.0.0"; createdAt := "2024-01-01T00:00:00.000Z";
                    modifiedAt := "2024-01-01T00:00:00.000Z";
                    author := None; tags := None |};
     components := components PatchSpec.savedTestPatch;
     nets := nets PatchSpec.savedTestPatch;
     interfacePins := interfacePins PatchSpec.savedTestPatch;
     symbolSvg := symbolSvg PatchSpec.savedTestPatch |}.

Definition slashed : World := worldWith slashedPatch ∅.

Definition afterSlashedSave : World :=
  exec (Manager.savePatch storage slashJoin flatStorage tickingClock isoStamp
          0 (Some "fab.tscircuit")) slashed.

Definition importedEntry : PatchLibraryEntry :=
  {| entry_id := "patch_1700000000002";
     entry_name := "Save Test Patch";
     filePath := savedPath;
     entry_metadata :=
       {| name := "Save Test Patch"; description := None; version := "1.0.0";
          createdAt := "2024-01-01T00:00:00.000Z";
          modifiedAt := "1700000000000"; author := None; tags := None |};
     previewSvg := None;
     lastUsed := Some "1700000000003" |}.

End ManagerSpec.

(** * Further vocabulary and sample inputs *)

(** ** lib/patch.ts: further definitions *)
Module PatchTerms.
Import Js Patch PatchSpec.

(** [patch.nets.push(net)] *)
Definition withNet (net : PatchNet) (patch : PatchData) : PatchData :=
  {| schemaVersion := schemaVersion patch; metadata := metadata patch;
     components := components patch; nets := nets patch ++ [net];
     interfacePins := interfacePins patch; symbolSvg := symbolSvg patch |}.

(** The results of severity warning. *)
Definition warningsOf (results : list PatchValidationError)
    : list PatchValidationError :=
  List.filter (fun e => bool_decide (severity e = SevWarning)) results.

(** A resistor whose properties hold a key [name]. *)
Definition shadowed : PatchComponent :=
  {| comp_id := "r1"; comp_name := "R1"; comp_type := "resistor";
     properties := [("resistance", PStr "10k"); ("name", PStr "load")];
     position := {| pos_x := 0; pos_y := 0 |} |}.

(** The dangling resistor and a net that reaches its first pin. *)
Definition danglingResistor : PatchComponent :=
  {| comp_id := "r1"; comp_name := "R1"; comp_type := "resistor";
     properties := [("pin_1", PStr "a")];
     position := {| pos_x := 0; pos_y := 0 |} |}.

Definition danglingOne : PatchData :=
  {| schemaVersion := "1.0"; metadata := metadata savedTestPatch;
     components := [danglingResistor]; nets := [];
     interfacePins := []; symbolSvg := None |}.

Definition reachingNet : PatchNet :=
  {| net_id := "n1"; net_name := None;
     connections := [ {| componentId := "r1"; pinName := "pin_1" |};
                      {| componentId := "r1"; pinName := "pin_1" |} ] |}.

End PatchTerms.

(** ** lib/elk-service.ts: further definitions *)
Module ElkTerms.
Import Js Patch Elk.

(** Two resistors with one pin slot each, and a net that has the pin of
    the first resistor as its only endpoint. *)
Definition loosePatch : PatchData :=
  {| schemaVersion := "1.0";
     metadata := metadata PatchSpec.savedTestPatch;
     components :=
       [ {| comp_id := "r1"; comp_name := "R1"; comp_type := "resistor";
            properties := [("pin_1", PStr "a")];
            position := {| pos_x := 0; pos_y := 0 |} |};
         {| comp_id := "r2"; comp_name := "R2"; comp_type := "resistor";
            properties := [("pin_1", PStr "a")];
            position := {| pos_x := 50; pos_y := 0 |} |} ];
     nets := [ {| net_id := "n1"; net_name := None;
                  connections := [ {| componentId := "r1"; pinName := "pin_1" |} ] |} ];
     interfacePins := [];
     symbolSvg := None |}.

End ElkTerms.

(** ** lib/project-manager.ts: further definitions *)
Module ProjectTerms.
Import Js Project.

(** The manager of a new project after a run of edits. *)
Definition projectAfter (clock : nat → N) (toISOString : N → string)
    (rootDir : string) (tick : nat) (nm mainFileName : string)
    (edits : list Edit) : ProjectManager :=
  foldl (apply clock toISOString)
        (createProject clock toISOString nm mainFileName
           (newProjectManager rootDir tick)).2
        edits.

(** The patch files are filed well: the project has a manifest whose patch
    paths are pairwise distinct; every indexed file is a patch file, filed
    under its name, whose path is in the manifest; and no two indexed files
    share a path. *)
Definition wellFiled (pm : ProjectManager) : Prop :=
  ∃ m, manifest pm = Some m
       ∧ NoDup (patches m)
       ∧ (∀ nm f, fileIndex pm !! nm = Some f →
            path f ∈ patches m ∧ file_name f = nm ∧ file_type f = PatchType)
       ∧ (∀ n1 n2 f1 f2,
            fileIndex pm !! n1 = Some f1 → fileIndex pm !! n2 = Some f2 →
            path f1 = path f2 → n1 = n2).

(** The project of the test "Phase 4: Project Management & Persistence". *)
Definition testProject : ProjectManager :=
  (createProject InserterSpec.tickingClock ManagerSpec.isoStamp
     "Test Project" "main.tscircuit"
     (newProjectManager "./test-project" 0)).2.

(** [new VersionControlSystem(projectRoot)] *)
Definition newVersionControlSystem (rootDir : string) (tick : nat)
    : VersionControlSystem :=
  {| vcs_root := rootDir; versions := ∅; vcs_readings := tick |}.

(** Three snapshots of one patch. *)
Definition threeSnapshots : VersionControlSystem :=
  let snapshot content v :=
    (createSnapshot InserterSpec.tickingClock ManagerSpec.isoStamp
       "patch1" content v).2 in
  snapshot "third"
    (snapshot "second"
       (snapshot "first" (newVersionControlSystem "./test-project" 0))).

End ProjectTerms.

(** ** lib/symbol-library.ts: further definitions *)
Module SymbolTerms.
Import Js SymbolLibrary.

(** A library after the registration of the symbols of [l], in order. *)
Definition registered (l : list Symbol) : Library :=
  foldl (fun lib symbol => registerSymbol symbol lib) initializeCategories l.

#[global] Instance Category_eq_dec : EqDecision Category.
Proof. solve_decision. Defined.

End SymbolTerms.

(** * Properties *)

(** ** Strings *)
Module StringFacts.
Import Js StringSpec.

Lemma append_nil_l (s : string) : EmptyString +:+ s = s.
Proof. reflexivity. Qed.

Lemma append_cons (c : ascii) (a b : string) :
  String c a +:+ b = String c (a +:+ b).
Proof. reflexivity. Qed.

Lemma append_nil_r (s : string) : s +:+ EmptyString = s.
Proof.
  induction s as [|c s IH]; [done|]. by rewrite append_cons, IH.
Qed.

Lemma append_assoc (a b c : string) : (a +:+ b) +:+ c = a +:+ b +:+ c.
Proof.
  induction a as [|x a IH]; [done|]. by rewrite !append_cons, IH.
Qed.

Lemma occursIn_refl (s : string) : occursIn s s.
Proof.
  exists EmptyString, EmptyString. by rewrite append_nil_l, append_nil_r.
Qed.

Lemma occursIn_prepend (needle pre hay : string) :
  occursIn needle hay → occursIn needle (pre +:+ hay).
Proof.
  intros (b & a & ->). exists (pre +:+ b), a. by rewrite append_assoc.
Qed.

Lemma occursIn_append (needle hay post : string) :
  occursIn needle hay → occursIn needle (hay +:+ post).
Proof.
  intros (b & a & ->). exists b, (a +:+ post). by rewrite !append_assoc.
Qed.

(** A joined list holds each of its items. *)
Lemma occursIn_join (sep item : string) (items : list string) :
  item ∈ items → occursIn item (join sep items).
Proof.
  induction items as [|s rest IH]; [by intros ?%elem_of_nil|].
  intros [->|Hin]%elem_of_cons.
  - destruct rest as [|s' rest']; simpl; [apply occursIn_refl|].
    apply occursIn_append, occursIn_refl.
  - destruct rest as [|s' rest']; [by apply elem_of_nil in Hin|].
    change (join sep (s :: s' :: rest'))
      with (s +:+ sep +:+ join sep (s' :: rest')).
    by apply occursIn_prepend, occursIn_prepend, IH.
Qed.

End StringFacts.

(** ** lib/patch.ts *)
Module PatchProps.
Import Js Patch PatchSpec.

Lemma elem_of_checkComponentPins patch component e :
  e ∈ checkComponentPins patch component ↔
  ∃ kv, kv ∈ properties component
        ∧ startsWith kv.1 "pin_" = true
        ∧ isConnected patch component kv.1 = false
        ∧ e = unconnectedPinError component kv.1.
Proof.
  unfold checkComponentPins. rewrite list_elem_of_bind. split.
  - intros (kv & He & Hkv). exists kv.
    destruct (startsWith kv.1 "pin_"); [|by apply elem_of_nil in He].
    destruct (isConnected patch component kv.1); [by apply elem_of_nil in He|].
    by apply list_elem_of_singleton in He.
  - intros (kv & Hkv & Hpre & Hcon & ->). exists kv.
    rewrite Hpre, Hcon. split; [apply list_elem_of_singleton; done | done].
Qed.

Lemma elem_of_checkNet net e :
  e ∈ checkNet net ↔
  (length (connections net) < 2)%nat ∧ e = floatingNetError net.
Proof.
  unfold checkNet.
  destruct (Nat.ltb_spec (length (connections net)) 2) as [Hlt|Hge].
  - rewrite list_elem_of_singleton. tauto.
  - split; [by intros ?%elem_of_nil | lia].
Qed.

Lemma elem_of_validatePatch patch e :
  e ∈ validatePatch patch ↔
  (∃ component, component ∈ components patch
                ∧ e ∈ checkComponentPins patch component)
  ∨ (∃ net, net ∈ nets patch ∧ e ∈ checkNet net).
Proof.
  unfold validatePatch. rewrite elem_of_app, !list_elem_of_bind.
  split; (intros [(y & ? & ?) | (y & ? & ?)]; [left | right]; by exists y).
Qed.

(** C10. [validatePatch] takes a property key for a pin slot exactly when
    the key starts with [pin_]: its error-severity results are exactly the
    unconnected-pin results of the prefixed keys that no net names; a
    component without a prefixed key gives no result at all in the pin
    check; and a patch none of whose components has a prefixed key gets
    warnings only. *)
Theorem validatePatch_pin_prefix (patch : PatchData) :
  (∀ e, e ∈ validatePatch patch ∧ severity e = SevError ↔
        ∃ component kv,
          component ∈ components patch ∧ kv ∈ properties component
          ∧ startsWith kv.1 "pin_" = true
          ∧ isConnected patch component kv.1 = false
          ∧ e = unconnectedPinError component kv.1)
  ∧ (∀ component,
        (∀ kv, kv ∈ properties component → startsWith kv.1 "pin_" = false) →
        checkComponentPins patch component = [])
  ∧ ((∀ component kv,
        component ∈ components patch → kv ∈ properties component →
        startsWith kv.1 "pin_" = false) →
     ∀ e, e ∈ validatePatch patch → severity e = SevWarning).
Proof.
  split; [|split].
  - intros e. rewrite elem_of_validatePatch. split.
    + intros [[(c & Hc & He) | (n & Hn & He)] Hsev].
      * apply elem_of_checkComponentPins in He as (kv & ? & ? & ? & ->).
        by exists c, kv.
      * apply elem_of_checkNet in He as [_ ->]. discriminate Hsev.
    + intros (c & kv & Hc & Hkv & Hpre & Hcon & ->). split; [|done].
      left. exists c. split; [done|].
      apply elem_of_checkComponentPins. by exists kv.
  - intros c Hnone.
    destruct (checkComponentPins patch c) as [|e rest] eqn:Heq; [done|].
    assert (e ∈ checkComponentPins patch c) as He by (rewrite Heq; left).
    apply elem_of_checkComponentPins in He as (kv & Hkv & Hpre & _).
    rewrite (Hnone kv Hkv) in Hpre. discriminate.
  - intros Hnone e [(c & Hc & He) | (n & Hn & He)]%elem_of_validatePatch.
    + apply elem_of_checkComponentPins in He as (kv & Hkv & Hpre & _).
      rewrite (Hnone c kv Hc Hkv) in Hpre. discriminate.
    + by apply elem_of_checkNet in He as [_ ->].
Qed.

Lemma validatePatch_pin_prefix_witness :
  length (validatePatch floatingTestPatch) = 1%nat
  ∧ Forall (fun e => severity e = SevWarning) (validatePatch floatingTestPatch).
Proof.
  split; [reflexivity|].
  apply Forall_forall.
  apply (validatePatch_pin_prefix floatingTestPatch).
  intros c kv Hc Hkv.
  apply list_elem_of_singleton in Hc as ->.
  apply list_elem_of_singleton in Hkv as ->.
  reflexivity.
Defined.

(** *** The wire form and back *)

(** What the two conversions keep, for every patch: the metadata with its
    timestamps, the interface pins, the symbol, and the name and the
    endpoints of every net. *)
Lemma roundtrip_kept (now1 now2 : string) (patch : PatchData) :
  let back := circuitJsonToPatch now1 now2 (patchToCircuitJson patch) in
  metadata back = metadata patch
  ∧ interfacePins back = interfacePins patch
  ∧ symbolSvg back = symbolSvg patch
  ∧ schemaVersion back = "1.0"
  ∧ nets back = wireNet <$> nets patch
  ∧ components back = wireComponent <$> components patch.
Proof. by repeat split. Qed.

(** The object spread never moves the first key of the literal. *)
Lemma setField_head k v k0 v0 rest :
  ∃ v' rest', setField k v ((k0, v0) :: rest) = (k0, v') :: rest'.
Proof.
  simpl. destruct (bool_decide (k0 = k)) eqn:Hk.
  - apply bool_decide_eq_true in Hk as ->. by eexists _, _.
  - by eexists _, _.
Qed.

Lemma wireComponent_head (comp : PatchComponent) :
  ∃ v rest, wireComponent comp = ("name", v) :: rest.
Proof.
  unfold wireComponent.
  generalize (PStr (comp_name comp)) as v0.
  generalize [("type", PStr (comp_type comp))] as rest0.
  induction (properties comp) as [|[k v] props IH]; intros rest0 v0.
  - by exists v0, rest0.
  - cbn [foldl fst snd].
    destruct (setField_head k v "name" v0 rest0) as (v' & rest' & ->).
    apply IH.
Qed.

(** No component comes back as the object it was: what comes back starts
    with the key [name], a patch component with the key [id]. *)
Lemma roundtrip_component_differs (comp : PatchComponent) :
  wireObject (wireComponent comp) ≠ componentObject comp.
Proof.
  destruct (wireComponent_head comp) as (v & rest & ->). discriminate.
Qed.

(** C1, on the patch of the test "Patch Manager: Save & Load": the
    round trip through [patchToCircuitJson] and [circuitJsonToPatch] does
    not give the patch back. The component returns as the flat object
    [{name, type, resistance}], which has neither the identifier nor the
    position nor the [properties] record of the component that went in. *)
Theorem roundtrip_loses_component_fields :
  let back := circuitJsonToPatch "t1" "t2" (patchToCircuitJson savedTestPatch) in
  components back
    = [ [("name", PStr "R1"); ("type", PStr "resistor");
         ("resistance", PStr "10k")] ]
  ∧ (wireObject <$> components back)
      ≠ (componentObject <$> components savedTestPatch)
  ∧ (∀ o, o ∈ components back →
          getField "id" o = None ∧ getField "position" o = None
          ∧ getField "properties" o = None).
Proof.
  simpl. split; [reflexivity|]. split; [discriminate|].
  intros o ->%list_elem_of_singleton. by repeat split.
Qed.

(** On the workflow patch the nets come back with their endpoints, which
    still name the components by identifiers that no component that comes
    back holds. *)
Lemma roundtrip_dangling_endpoints :
  let back := circuitJsonToPatch "t1" "t2"
                (patchToCircuitJson ElkSpec.workflowPatch) in
  (wnet_connections <$> nets back)
    = (connections <$> nets ElkSpec.workflowPatch)
  ∧ Forall (fun o => getField "id" o = None) (components back).
Proof. split; [reflexivity|]. by repeat constructor. Qed.

End PatchProps.

(** ** lib/elk-service.ts *)
Module ElkProps.
Import Js Patch Elk ElkSpec.

(** [findUnconnectedPins] makes one entry per pair of a component and a
    net that does not name it. *)
Lemma elem_of_findUnconnectedPins patch graph e :
  e ∈ findUnconnectedPins patch graph ↔
  ∃ component net,
    component ∈ components patch ∧ net ∈ nets patch
    ∧ netReferences net component = false ∧ e = entryOf component.
Proof.
  unfold findUnconnectedPins. rewrite list_elem_of_bind. split.
  - intros (c & (n & He & Hn)%list_elem_of_bind & Hc). exists c, n.
    destruct (netReferences n c); [by apply elem_of_nil in He|].
    by apply list_elem_of_singleton in He.
  - intros (c & n & Hc & Hn & Href & ->). exists c. split; [|done].
    apply list_elem_of_bind. exists n. rewrite Href.
    split; [by apply list_elem_of_singleton | done].
Qed.

(** C2, on the two patches of the tests. In the workflow patch every
    component is an endpoint of two nets, and [analyzeConnectivity] still
    lists each of them once, for the one net that does not name it. In
    the patch with a single resistor and no net, no net names the resistor
    and nothing is listed. *)
Theorem findUnconnectedPins_counts_per_net :
  (∀ component, component ∈ components workflowPatch →
     ∃ net, net ∈ nets workflowPatch ∧ netReferences net component = true)
  ∧ up_componentId <$> unconnectedPins (analyzeConnectivity workflowPatch)
    = ["battery"; "resistor"; "led"]
  ∧ length (components PatchSpec.savedTestPatch) = 1%nat
  ∧ nets PatchSpec.savedTestPatch = []
  ∧ unconnectedPins (analyzeConnectivity PatchSpec.savedTestPatch) = [].
Proof.
  split; [|by repeat split].
  intros c Hc. simpl in Hc.
  repeat (apply elem_of_cons in Hc as [-> | Hc]).
  - eexists. split; [left|]; reflexivity.
  - eexists. split; [left|]; reflexivity.
  - eexists. split; [right; left|]; reflexivity.
  - by apply elem_of_nil in Hc.
Qed.

(** C5, the scenario as the code reports it: two components, one net, and
    no entry in the list of unconnected pins, since the one net names both
    components; no floating net, and the patch counts as fully
    connected. *)
Theorem scenario_report (propsR propsD : list (string * PropValue)) :
  let analysis := analyzeConnectivity (scenarioPatch propsR propsD) in
  componentCount analysis = 2%nat
  ∧ netCount analysis = 1%nat
  ∧ unconnectedPins analysis = []
  ∧ floatingNets analysis = []
  ∧ isFullyConnected analysis = true.
Proof. by repeat split. Qed.

(** C5 fails as stated, whatever pins the two components declare: with
    two pin slots each as well as with none. *)
Lemma scenario_has_no_unconnected_entry :
  ¬ scenarioAsStated [("pin_1", PStr "a"); ("pin_2", PStr "b")]
                     [("pin_anode", PStr "a"); ("pin_cathode", PStr "k")]
  ∧ ¬ scenarioAsStated [] [].
Proof. split; intros (_ & _ & Hne & _); by apply Hne. Qed.

(** *** The fuel of the traversal *)

Lemma neighbors_in_all adj nodeId neighbor :
  neighbor ∈ default [] (adj !! nodeId) → neighbor ∈ allNeighbors adj.
Proof.
  destruct (adj !! nodeId) as [l|] eqn:Hl; [|by intros ?%elem_of_nil].
  intros Hin. apply list_elem_of_bind. exists (nodeId, l).
  split; [done | by apply elem_of_map_to_list].
Qed.

Lemma size_list_to_set_le (l : list string) :
  (size (list_to_set (C := gset string) l) ≤ length l)%nat.
Proof.
  induction l as [|x l IH]; [done|].
  cbn [list_to_set length]. rewrite size_union_alt, size_singleton.
  pose proof (subseteq_size (list_to_set l ∖ {[x]})
                (list_to_set (C := gset string) l)
                (subseteq_difference_l _ _ _ (reflexivity _))).
  lia.
Qed.

Lemma unvisited_bound adj visited :
  (size (unvisited adj visited) < dfsFuel adj)%nat.
Proof.
  unfold dfsFuel, unvisited.
  pose proof (subseteq_size (list_to_set (allNeighbors adj) ∖ visited)
                (list_to_set (C := gset string) (allNeighbors adj))
                (subseteq_difference_l _ _ _ (reflexivity _))) as H1.
  pose proof (size_list_to_set_le (allNeighbors adj)) as H2.
  lia.
Qed.

Lemma unvisited_mono adj (v1 v2 : gset string) :
  v1 ⊆ v2 → (size (unvisited adj v2) ≤ size (unvisited adj v1))%nat.
Proof.
  intros H. apply subseteq_size. unfold unvisited.
  intros x [Hx Hnot]%elem_of_difference. apply elem_of_difference.
  split; [done|]. intros Hin. by apply Hnot, H.
Qed.

Lemma unvisited_visit adj (visited : gset string) neighbor :
  neighbor ∈ allNeighbors adj → neighbor ∉ visited →
  (size (unvisited adj ({[neighbor]} ∪ visited)) < size (unvisited adj visited))%nat.
Proof.
  intros Hin Hnot. apply subset_size. unfold unvisited.
  apply strict_spec_alt. split.
  - intros x [Hx Hx']%elem_of_difference. apply elem_of_difference.
    split; [done|]. intros Hv. apply Hx', elem_of_union. by right.
  - intros Heq.
    assert (neighbor ∈ list_to_set (allNeighbors adj) ∖ visited) as H.
    { apply elem_of_difference. split; [by apply elem_of_list_to_set | done]. }
    rewrite <- Heq in H. apply elem_of_difference in H as [_ H].
    apply H, elem_of_union. left. by apply elem_of_singleton.
Qed.

(** The traversal only adds to the visited set. *)
Lemma dfs_grows fuel nodeId adj (visited : gset string) :
  visited ⊆ dfs fuel nodeId adj visited.
Proof.
  revert nodeId visited. induction fuel as [|fuel IH]; intros n vis; [done|].
  cbn [dfs]. transitivity ({[n]} ∪ vis); [apply union_subseteq_r|].
  generalize ({[n]} ∪ vis). induction (default [] (adj !! n)) as [|nb l IHl];
    intros v; [done|].
  cbn [foldl]. etransitivity; [|apply IHl].
  case_bool_decide; [done | apply IH].
Qed.

(** Two amounts of fuel above the number of unvisited neighbors give the
    same traversal. *)
Lemma dfs_fuel_irrelevant adj fuel1 fuel2 nodeId (visited : gset string) :
  (size (unvisited adj ({[nodeId]} ∪ visited)) < fuel1)%nat →
  (size (unvisited adj ({[nodeId]} ∪ visited)) < fuel2)%nat →
  dfs fuel1 nodeId adj visited = dfs fuel2 nodeId adj visited.
Proof.
  revert fuel2 nodeId visited.
  induction fuel1 as [|fuel1 IH]; intros [|fuel2] n vis H1 H2; try lia.
  cbn [dfs].
  assert (∀ nb, nb ∈ default [] (adj !! n) → nb ∈ allNeighbors adj) as Hall
    by (intros nb; apply neighbors_in_all).
  revert H1 H2 Hall. generalize ({[n]} ∪ vis).
  induction (default [] (adj !! n)) as [|nb l IHl]; intros v H1 H2 Hall; [done|].
  cbn [foldl]. case_bool_decide as Hnb.
  - apply IHl; [done | done |]. intros ? ?. apply Hall. by right.
  - assert (size (unvisited adj ({[nb]} ∪ v)) < size (unvisited adj v))%nat
      as Hless by (apply unvisited_visit; [apply Hall; left | done]).
    rewrite (IH fuel2 nb v) by lia.
    pose proof (unvisited_mono adj v (dfs fuel2 nb adj v) (dfs_grows _ _ _ _)).
    apply IHl; [lia | lia |]. intros ? ?. apply Hall. by right.
Qed.

(** [dfsFuel] is never used up: more fuel changes nothing. *)
Lemma dfs_fuel_enough adj fuel nodeId (visited : gset string) :
  (dfsFuel adj ≤ fuel)%nat →
  dfs fuel nodeId adj visited = dfs (dfsFuel adj) nodeId adj visited.
Proof.
  intros Hle. pose proof (unvisited_bound adj ({[nodeId]} ∪ visited)).
  apply dfs_fuel_irrelevant; lia.
Qed.

(** Two components with two pin slots each and one net from [pin_b] of the
    first to [pin_a] of the second: four graph nodes on three islands. *)
Lemma pinnedScenario_islands :
  let patch := scenarioPatch [("pin_a", PStr "1"); ("pin_b", PStr "2")]
                             [("pin_a", PStr "1"); ("pin_b", PStr "2")] in
  let wired :=
    {| schemaVersion := schemaVersion patch; metadata := metadata patch;
       components := components patch;
       nets := [ {| net_id := "n1"; net_name := None;
                    connections := [ {| componentId := "R1"; pinName := "pin_b" |};
                                     {| componentId := "D1"; pinName := "pin_a" |} ] |} ];
       interfacePins := []; symbolSvg := None |} in
  length (nodes (buildGraph wired)) = 4%nat
  ∧ subgraphCount (analyzeConnectivity wired) = 3%nat.
Proof. vm_compute. by split. Qed.

End ElkProps.

(** ** lib/patch-extractor.ts *)
Module ExtractorProps.
Import Js Extractor ExtractorSpec.

Lemma app_eq_self_nil {A} (l k : list A) : l = l ++ k → k = [].
Proof.
  intros H. apply (f_equal length) in H. rewrite length_app in H.
  destruct k; [done | simpl in H; lia].
Qed.

Lemma elem_of_selectedEndpoints names conn endpoint :
  endpoint ∈ selectedEndpoints names conn ↔
  endpoint ∈ conn_connections conn ∧ beforeDot endpoint ∈ names.
Proof.
  unfold selectedEndpoints, isSelected.
  rewrite !list_elem_of_In, filter_In, bool_decide_eq_true. tauto.
Qed.

(** Filtering with a predicate and with its negation splits the list. *)
Lemma selected_or_external names conn :
  length (selectedEndpoints names conn) = 0%nat →
  length (externalEndpoints names conn) = 0%nat →
  conn_connections conn = [].
Proof.
  unfold selectedEndpoints, externalEndpoints.
  destruct (conn_connections conn) as [|e l]; [done|]. simpl.
  destruct (isSelected names e); simpl; lia.
Qed.

Lemma pushed_endpoints names conn endpoint :
  endpoint ∈ (pushedNets names conn ≫= xn_connections)
             ++ (xp_name <$> pushedPins names conn) ↔
  endpoint ∈ selectedEndpoints names conn.
Proof.
  unfold pushedNets, pushedPins.
  destruct (selectedEndpoints names conn) as [|s sel] eqn:Hsel.
  - rewrite andb_false_r. simpl. done.
  - destruct (externalEndpoints names conn) as [|x ext]; simpl.
    + by rewrite !app_nil_r.
    + rewrite <- list_fmap_compose.
      change (xp_name ∘ _) with (@id string). by rewrite list_fmap_id.
Qed.

(** The loop, unrolled: it pushes, in order, what the body pushes for the
    records it does not skip. *)
Lemma loop_unrolled names l st :
  internalNets (foldl (loopBody names) st l)
    = internalNets st ++ (firstById (processedNets st) l ≫= pushedNets names)
  ∧ pins (foldl (loopBody names) st l)
    = pins st ++ (firstById (processedNets st) l ≫= pushedPins names).
Proof.
  revert st. induction l as [|conn l IH]; intros st.
  - simpl. by rewrite !app_nil_r.
  - cbn [foldl firstById]. destruct (IH (loopBody names st conn)) as [-> ->].
    unfold loopBody.
    destruct (bool_decide (conn_id conn ∈ processedNets st)); [done|].
    cbn [internalNets pins processedNets].
    change ((conn :: ?k) ≫= ?f) with (f conn ++ (k ≫= f)).
    by rewrite !app_assoc.
Qed.

(** Every pass of the loop body falls in exactly one category. *)
Lemma classified_once names st conn :
  ∃ cat, classifiedAs names st conn cat
         ∧ ∀ cat', classifiedAs names st conn cat' → cat' = cat.
Proof.
  assert (∀ (A : Type) (l : list A) a k, l ≠ l ++ a :: k) as Hgrow.
  { intros A l a k H%app_eq_self_nil. discriminate. }
  unfold classifiedAs, loopBody.
  destruct (bool_decide (conn_id conn ∈ processedNets st)).
  { exists Ignored. split; [done|].
    intros [] H; [destruct H as [[n Hn] _]; by apply Hgrow in Hn
                 |destruct H as [_ (p & ps & Hp)]; by apply Hgrow in Hp
                 |done]. }
  cbn [internalNets pins]. unfold pushedNets, pushedPins.
  destruct (selectedEndpoints names conn) as [|s sel].
  { rewrite andb_false_r. cbn [length Nat.ltb Nat.leb andb]. rewrite !app_nil_r.
    exists Ignored. split; [done|].
    intros [] H; [destruct H as [[n Hn] _]; by apply Hgrow in Hn
                 |destruct H as [_ (p & ps & Hp)]; by apply Hgrow in Hp
                 |done]. }
  destruct (externalEndpoints names conn) as [|x ext]; simpl.
  - rewrite app_nil_r. exists InternalNet. split; [by eauto|].
    intros [] H; [done
                 |destruct H as [H _]; symmetry in H; by apply Hgrow in H
                 |destruct H as [H _]; symmetry in H; by apply Hgrow in H].
  - rewrite app_nil_r. exists InterfacePins. split; [by eauto|].
    intros [] H; [destruct H as [_ H]; symmetry in H; by apply Hgrow in H
                 |done
                 |destruct H as [_ H]; symmetry in H; by apply Hgrow in H].
Qed.

Lemma firstById_subset seen l conn :
  conn ∈ firstById seen l → conn ∈ l.
Proof.
  revert seen. induction l as [|c l IH]; intros seen; simpl; [done|].
  destruct (bool_decide (conn_id c ∈ seen)).
  - intros H%IH. by right.
  - intros [->|H%IH]%elem_of_cons; [left | by right].
Qed.

(** With pairwise distinct identifiers no record is skipped. *)
Lemma firstById_distinct seen l :
  NoDup (conn_id <$> l) → (∀ conn, conn ∈ l → conn_id conn ∉ seen) →
  firstById seen l = l.
Proof.
  revert seen. induction l as [|c l IH]; intros seen Hnd Hseen; [done|].
  simpl. apply NoDup_cons in Hnd as [Hc Hnd].
  rewrite bool_decide_eq_false_2 by (apply Hseen; left).
  f_equal. apply IH; [done|].
  intros conn Hconn [Heq%elem_of_singleton | Hin]%elem_of_union.
  - apply Hc. rewrite <- Heq. by apply list_elem_of_fmap_2.
  - apply (Hseen conn); [by right | done].
Qed.

Lemma unrolled_endpoints names (l : list SchematicConnection) endpoint :
  endpoint ∈ ((l ≫= pushedNets names) ≫= xn_connections)
             ++ (xp_name <$> (l ≫= pushedPins names)) ↔
  ∃ conn, conn ∈ l ∧ endpoint ∈ selectedEndpoints names conn.
Proof.
  split.
  - intros [H|H]%elem_of_app.
    + apply list_elem_of_bind in H as (n & He & Hn).
      apply list_elem_of_bind in Hn as (conn & Hn & Hconn).
      exists conn. split; [done|]. apply pushed_endpoints, elem_of_app. left.
      apply list_elem_of_bind. by exists n.
    + apply list_elem_of_fmap in H as (p & -> & Hp).
      apply list_elem_of_bind in Hp as (conn & Hp & Hconn).
      exists conn. split; [done|]. apply pushed_endpoints, elem_of_app. right.
      by apply list_elem_of_fmap_2.
  - intros (conn & Hconn & [H|H]%pushed_endpoints%elem_of_app);
      apply elem_of_app; [left | right].
    + apply list_elem_of_bind in H as (n & He & Hn).
      apply list_elem_of_bind. exists n. split; [done|].
      apply list_elem_of_bind. by exists conn.
    + apply list_elem_of_fmap in H as (p & -> & Hp).
      apply list_elem_of_fmap_2, list_elem_of_bind. by exists conn.
Qed.

(** The endpoints of an extracted patch are the selected endpoints of the
    records the loop does not skip. *)
Lemma extracted_endpoints (created updated : string)
    (schematicState : SchematicState) (selectedIds : gset string)
    (patchName : string) (patch : ExtractedPatch) (warnings : list string)
    (endpoint : string) :
  extractPatchFromSchematic created updated schematicState selectedIds patchName
    = Ok (patch, warnings) →
  endpoint ∈ patchEndpoints patch ↔
  ∃ conn, conn ∈ firstById ∅ (connections schematicState)
          ∧ endpoint ∈ conn_connections conn
          ∧ beforeDot endpoint
              ∈ selectedComponentNamesOf schematicState selectedIds.
Proof.
  intros Hextract. unfold extractPatchFromSchematic in Hextract.
  destruct (length (selectedComponentsOf schematicState selectedIds) =? 0)%nat;
    [discriminate|].
  injection Hextract as <- _.
  unfold patchEndpoints. cbn [nets interfacePins].
  set (names := selectedComponentNamesOf schematicState selectedIds).
  destruct (loop_unrolled names (connections schematicState) loopStart)
    as [-> ->].
  cbn [loopStart internalNets pins processedNets app].
  rewrite unrolled_endpoints.
  split; intros (conn & Hconn & H); exists conn; (split; [done|]);
    by apply elem_of_selectedEndpoints.
Qed.

(** C4, as the code has it. Every pass of the loop over the connection
    records falls in exactly one of the three categories, a record whose
    identifier was met before being ignored; and the endpoints of the
    patch, those of its internal nets together with those naming its
    interface pins, are exactly the endpoints with a selected owner of the
    records that are the first of their identifier. *)
Theorem extraction_boundary_law (created updated : string)
    (schematicState : SchematicState) (selectedIds : gset string)
    (patchName : string) (patch : ExtractedPatch) (warnings : list string) :
  extractPatchFromSchematic created updated schematicState selectedIds patchName
    = Ok (patch, warnings) →
  let names := selectedComponentNamesOf schematicState selectedIds in
  (∀ st conn, ∃ cat, classifiedAs names st conn cat
                     ∧ ∀ cat', classifiedAs names st conn cat' → cat' = cat)
  ∧ (∀ endpoint,
       endpoint ∈ patchEndpoints patch ↔
       ∃ conn, conn ∈ firstById ∅ (connections schematicState)
               ∧ endpoint ∈ conn_connections conn
               ∧ beforeDot endpoint ∈ names).
Proof.
  intros Hextract names. split.
  - apply classified_once.
  - intros endpoint. subst names.
    by apply (extracted_endpoints created updated _ _ patchName patch warnings).
Qed.

(** When the identifiers of the records are pairwise distinct, this is the
    law over all the records of the diagram. *)
Lemma boundary_law_distinct_ids (created updated : string)
    (schematicState : SchematicState) (selectedIds : gset string)
    (patchName : string) (patch : ExtractedPatch) (warnings : list string) :
  NoDup (conn_id <$> connections schematicState) →
  extractPatchFromSchematic created updated schematicState selectedIds patchName
    = Ok (patch, warnings) →
  unionAsStated schematicState selectedIds patch.
Proof.
  intros Hnd Hextract endpoint.
  rewrite (extracted_endpoints _ _ _ _ _ _ _ endpoint Hextract).
  rewrite firstById_distinct; [done | done |].
  intros ? _. apply not_elem_of_empty.
Qed.

Lemma abPatch_extracted :
  extractPatchFromSchematic "t1" "t2" abcDiagram {[ "a"; "b" ]} "My Patch"
    = Ok (abPatch, []).
Proof. vm_compute. reflexivity. Qed.

Lemma extraction_boundary_law_witness :
  "B.2" ∈ patchEndpoints abPatch ↔
  ∃ conn, conn ∈ firstById ∅ (connections abcDiagram)
          ∧ "B.2" ∈ conn_connections conn
          ∧ beforeDot "B.2" ∈ selectedComponentNamesOf abcDiagram {[ "a"; "b" ]}.
Proof.
  apply (extraction_boundary_law "t1" "t2" abcDiagram {[ "a"; "b" ]}
           "My Patch" abPatch []).
  vm_compute. reflexivity.
Defined.

(** C4 fails as stated: the second record is skipped, and its endpoints,
    whose owners A and B are selected, are not in the patch. *)
Lemma boundary_law_fails_on_repeated_id :
  extractPatchFromSchematic "t1" "t2" repeatedIdDiagram {[ "a"; "b" ]} "My Patch"
    = Ok (repeatedIdPatch, [])
  ∧ ¬ unionAsStated repeatedIdDiagram {[ "a"; "b" ]} repeatedIdPatch.
Proof.
  split; [vm_compute; reflexivity|].
  intros Hlaw. destruct (Hlaw "A.2") as [_ Hin].
  assert ("A.2" ∈ patchEndpoints repeatedIdPatch) as Habs.
  { apply Hin. eexists. split; [right; left|]. split; [left|].
    vm_compute. reflexivity. }
  vm_compute in Habs.
  repeat (apply elem_of_cons in Habs as [Habs | Habs]; [discriminate|]).
  by apply elem_of_nil in Habs.
Qed.

End ExtractorProps.

(** ** lib/patch-api-client.ts *)
Module InserterProps.
Import Js Extractor Inserter StringSpec StringFacts InserterSpec.

Lemma noDash_pretty_N_go (x : N) (s : string) :
  noDash s = true → noDash (pretty_N_go x s) = true.
Proof.
  revert s. induction (N.lt_wf_0 x) as [x _ IH]; intros s Hs.
  assert (x = 0 ∨ 0 < x)%N as [-> | Hpos] by lia.
  - by rewrite pretty_N_go_0.
  - rewrite pretty_N_go_step by done. apply IH; [by apply N.div_lt|].
    cbn [noDash]. rewrite Hs, andb_true_r.
    unfold pretty_N_char. by repeat case_match.
Qed.

(** The decimal notation of a number holds no dash. *)
Lemma noDash_ofN (n : N) : noDash (ofN n) = true.
Proof.
  unfold ofN, pretty, pretty_N. case_decide; [done|].
  by apply noDash_pretty_N_go.
Qed.

Lemma noDash_with_dash (a b : string) :
  noDash (a +:+ String "-"%char b) = false.
Proof.
  induction a as [|c a IH]; [done|].
  rewrite append_cons. cbn [noDash]. by rewrite IH, andb_false_r.
Qed.

(** An identifier and its stamp can be read back from their concatenation:
    the stamp starts after the last dash. *)
Lemma dash_split (a b d1 d2 : string) :
  noDash d1 = true → noDash d2 = true →
  a +:+ String "-"%char d1 = b +:+ String "-"%char d2 → a = b ∧ d1 = d2.
Proof.
  intros H1 H2. revert b.
  induction a as [|c a IH]; intros [|c' b] Heq;
    rewrite ?append_nil_l, ?append_cons in Heq.
  - by injection Heq as ->.
  - injection Heq as _ ->. by rewrite noDash_with_dash in H1.
  - injection Heq as _ <-. by rewrite noDash_with_dash in H2.
  - injection Heq as -> Heq. by destruct (IH b Heq) as [-> ->].
Qed.

Lemma stamped_inj (a b : string) (t1 t2 : N) :
  stamped a t1 = stamped b t2 → a = b ∧ t1 = t2.
Proof.
  unfold stamped.
  change ("-" +:+ ofN t1) with (String "-"%char (ofN t1)).
  change ("-" +:+ ofN t2) with (String "-"%char (ofN t2)).
  intros [-> Ht]%dash_split; [|apply noDash_ofN..].
  split; [done|]. by apply (inj pretty).
Qed.

Lemma lookup_new_id clock tick patch i ident :
  (sc_id <$> newComponentsAt clock tick patch) !! i = Some ident →
  ∃ comp, Patch.components patch !! i = Some comp
          ∧ ident = stamped (Patch.comp_id comp) (clock (tick + i)).
Proof.
  unfold newComponentsAt. rewrite list_lookup_fmap, list_lookup_imap.
  destruct (Patch.components patch !! i) as [comp|]; [|done].
  intros [= <-]. by exists comp.
Qed.

Lemma length_new_ids clock tick patch :
  length (sc_id <$> newComponentsAt clock tick patch)
  = length (Patch.components patch).
Proof. unfold newComponentsAt. by rewrite length_fmap, length_imap. Qed.

Lemma insertTwice_components clock tick patch prev :
  components (insertTwice clock tick patch prev).1
  = components prev ++ addedByTwo clock tick patch.
Proof. unfold insertTwice, addedByTwo. simpl. by rewrite app_assoc. Qed.

(** Where the clock tells the two calls apart: when the components of the
    patch have pairwise distinct identifiers and, for every component, the
    clock reading taken for it by the second call differs from the one
    taken by the first, the components that two calls in a row add to the
    diagram have pairwise distinct identifiers. *)
Theorem insertion_ids_distinct (clock : nat → N) (tick : nat)
    (patch : Patch.PatchData) (prev : SchematicState) :
  NoDup (Patch.comp_id <$> Patch.components patch) →
  (∀ i, (i < length (Patch.components patch))%nat →
        clock (tick + i)%nat
        ≠ clock (tick + length (Patch.components patch)
                 + length (Patch.nets patch) + i)%nat) →
  components (insertTwice clock tick patch prev).1
    = components prev ++ addedByTwo clock tick patch
  ∧ NoDup (sc_id <$> addedByTwo clock tick patch).
Proof.
  intros Hids Hclock. split; [apply insertTwice_components|].
  assert (∀ i j c c', Patch.components patch !! i = Some c →
            Patch.components patch !! j = Some c' →
            Patch.comp_id c = Patch.comp_id c' → i = j) as Hsame.
  { intros i j c c' Hi Hj Heq.
    apply (proj1 (NoDup_alt _) Hids i j (Patch.comp_id c));
      rewrite list_lookup_fmap; [by rewrite Hi | by rewrite Hj, Heq]. }
  unfold addedByTwo. rewrite fmap_app.
  apply NoDup_alt. intros i j ident Hi Hj.
  apply lookup_app_Some in Hi as [Hi | [Hge Hi]];
    apply lookup_app_Some in Hj as [Hj | [Hge' Hj]];
    rewrite ?length_new_ids in *;
    apply lookup_new_id in Hi as (c & Hc & ->);
    apply lookup_new_id in Hj as (c' & Hc' & [Hid Ht]%stamped_inj);
    pose proof (Hsame _ _ _ _ Hc Hc' Hid) as Hij.
  - done.
  - apply lookup_lt_Some in Hc. destruct (Hclock i Hc). by rewrite Ht, Hij.
  - apply lookup_lt_Some in Hc'. destruct (Hclock j Hc'). by rewrite <- Ht, Hij.
  - lia.
Qed.

Lemma insertion_ids_distinct_witness :
  components (insertTwice tickingClock 0 ElkSpec.workflowPatch emptyDiagram).1
    = components emptyDiagram ++ addedByTwo tickingClock 0 ElkSpec.workflowPatch
  ∧ NoDup (sc_id <$> addedByTwo tickingClock 0 ElkSpec.workflowPatch).
Proof.
  apply (insertion_ids_distinct tickingClock 0 ElkSpec.workflowPatch emptyDiagram).
  - apply (bool_decide_unpack _). vm_compute. exact I.
  - intros i _. unfold tickingClock.
    change (length (Patch.components ElkSpec.workflowPatch)) with 3%nat.
    change (length (Patch.nets ElkSpec.workflowPatch)) with 3%nat.
    lia.
Defined.

(** Where it does not: a component for which both calls read the same
    millisecond is added twice under the same identifier. *)
Lemma equal_readings_collide (clock : nat → N) (tick : nat)
    (patch : Patch.PatchData) (i : nat) :
  (i < length (Patch.components patch))%nat →
  clock (tick + i)%nat
  = clock (tick + length (Patch.components patch)
           + length (Patch.nets patch) + i)%nat →
  ¬ NoDup (sc_id <$> addedByTwo clock tick patch).
Proof.
  intros Hi Hclock Hnd.
  destruct (lookup_lt_is_Some_2 _ _ Hi) as [c Hc].
  assert ((sc_id <$> addedByTwo clock tick patch) !! i
          = Some (stamped (Patch.comp_id c) (clock (tick + i)%nat))) as H1.
  { unfold addedByTwo. rewrite fmap_app.
    rewrite lookup_app_l by (rewrite length_new_ids; lia).
    unfold newComponentsAt. by rewrite list_lookup_fmap, list_lookup_imap, Hc. }
  assert ((sc_id <$> addedByTwo clock tick patch)
            !! (length (Patch.components patch) + i)%nat
          = Some (stamped (Patch.comp_id c) (clock (tick + i)%nat))) as H2.
  { unfold addedByTwo. rewrite fmap_app.
    rewrite lookup_app_r by (rewrite length_new_ids; lia).
    rewrite length_new_ids.
    replace (length (Patch.components patch) + i
             - length (Patch.components patch))%nat with i by lia.
    unfold newComponentsAt.
    rewrite list_lookup_fmap, list_lookup_imap, Hc, Hclock. done. }
  pose proof (proj1 (NoDup_alt _) Hnd _ _ _ H1 H2). lia.
Qed.

(** C3. Two insertions in a row of the same patch are to give no two
    components the same identifier. The code does not keep to this:
    [onInsertPatch] tells the calls apart by the reading of [Date.now()]
    alone, and when both calls read the same millisecond the resistor of
    the test patch is added twice under the identifier r1-1700000000000. *)
Theorem insertion_ids_collide :
  sc_id <$> components
              (insertTwice stillClock 0 PatchSpec.savedTestPatch emptyDiagram).1
    = ["r1-1700000000000"; "r1-1700000000000"]
  ∧ ¬ NoDup (sc_id <$> addedByTwo stillClock 0 PatchSpec.savedTestPatch).
Proof.
  split; [vm_compute; reflexivity|].
  intros [Hnotin _]%NoDup_cons. apply Hnotin. vm_compute. left.
Qed.

End InserterProps.

(** ** lib/patch-manager.ts *)
Module ManagerProps.
Import Js Patch Manager StringSpec StringFacts InserterSpec ManagerSpec.

(** How the monad computes. *)
Lemma bind_ok {A B} (m : M A) (f : A → M B) (w w' : World) (a : A) :
  m w = (Ok a, w') → (m ≫= f) w = f a w'.
Proof. intros H. unfold mbind, M_bind. by rewrite H. Qed.

Lemma bind_throw {A B} (m : M A) (f : A → M B) (w w' : World) (msg : string) :
  m w = (Throw msg, w') → (m ≫= f) w = (Throw msg, w').
Proof. intros H. unfold mbind, M_bind. by rewrite H. Qed.

Lemma hasErrors_true errors :
  hasErrors errors = true ↔ ∃ e, e ∈ errors ∧ severity e = SevError.
Proof.
  unfold hasErrors. rewrite existsb_exists. split.
  - intros (e & Hin & He). exists e.
    split; [by apply list_elem_of_In | by apply bool_decide_eq_true in He].
  - intros (e & Hin & He). exists e.
    split; [by apply list_elem_of_In | by apply bool_decide_eq_true].
Qed.

(** The thrown text names every blocking result. *)
Lemma errorMessages_complete errors e :
  e ∈ errors → severity e = SevError →
  occursIn (message e) (errorMessages errors).
Proof.
  intros Hin Hsev. unfold errorMessages. apply occursIn_join.
  apply list_elem_of_fmap_2, list_elem_of_In, filter_In.
  split; [by apply list_elem_of_In | by apply bool_decide_eq_true].
Qed.

(** What [savePatch] writes, [loadPatch] reads back: the document of a
    patch with a non-empty schema version converts to that patch. *)
Lemma stored_patch_reloads (now1 now2 : string) (patch : PatchData) :
  schemaVersion patch ≠ EmptyString →
  ∃ json, stringifyPatch patch = PatchFile json
          ∧ parsePatchJson (stringifyPatch patch) = Ok json
          ∧ circuitJsonToPatch now1 now2 json = patch.
Proof.
  intros Hversion. eexists. split; [reflexivity|]. split; [reflexivity|].
  destruct patch as [version meta comps ns pins svg]. cbn in *.
  unfold circuitJsonToPatch. cbn. by destruct version.
Qed.

Section Store.
Variable config : PatchStorageConfig.
Variable pathJoin : string → string → string.
Variable writeError : string → option string.
Variable clock : nat → N.
Variable toISOString : N → string.

Abbreviation savePatch :=
  (savePatch config pathJoin writeError clock toISOString).
Abbreviation deletePatch := (deletePatch config pathJoin writeError clock).
Abbreviation importPatch :=
  (importPatch config pathJoin writeError clock toISOString).
Abbreviation loadPatch := (loadPatch clock toISOString).
Abbreviation indexPath := (indexPath config pathJoin).

Lemma savePatch_rejected (w : World) (r : nat) (filename : option string) :
  hasErrors (validatePatch (heap w r)) = true →
  savePatch r filename w
  = (Throw ("Cannot save patch with errors: "
            +:+ errorMessages (validatePatch (heap w r))), w).
Proof.
  intros Herr. unfold Manager.savePatch.
  rewrite (bind_ok _ _ w w (heap w r)) by done.
  by rewrite Herr.
Qed.

(** C9. When [savePatch] throws on a validation error, nothing has changed:
    the world after the call is the world before it, and so the metadata of
    the patch with its modification time, every file and the index are what
    they were. *)
Theorem savePatch_rejected_changes_nothing (w : World) (r : nat)
    (filename : option string) :
  hasErrors (validatePatch (heap w r)) = true →
  (∃ msg, (savePatch r filename w).1 = Throw msg)
  ∧ exec (savePatch r filename) w = w
  ∧ metadata (heap (exec (savePatch r filename) w) r) = metadata (heap w r)
  ∧ fs (exec (savePatch r filename) w) = fs w
  ∧ libraryIndex (exec (savePatch r filename) w) = libraryIndex w.
Proof.
  intros Herr. unfold exec. rewrite (savePatch_rejected w r filename Herr).
  split; [by eexists | done].
Qed.

(** *** Writes *)

Abbreviation refused := (refused config pathJoin writeError).
Abbreviation writeFileSync := (writeFileSync config pathJoin writeError).

Lemma writeFileSync_ok (path : string) (content : File) (w : World) :
  refused path w = None →
  writeFileSync path content w = (Ok tt, setFs (<[path := content]> (fs w)) w).
Proof. intros H. unfold Manager.writeFileSync. by rewrite H. Qed.

Lemma writeFileSync_throw (path : string) (content : File) (w : World)
    (msg : string) :
  refused path w = Some msg →
  writeFileSync path content w = (Throw msg, w).
Proof. intros H. unfold Manager.writeFileSync. by rewrite H. Qed.

Lemma refused_index (w : World) : refused indexPath w = None.
Proof. unfold Manager.refused. by rewrite bool_decide_eq_true_2. Qed.

Lemma refused_present (path : string) (w : World) :
  is_Some (fs w !! path) → refused path w = None.
Proof.
  intros H. unfold Manager.refused.
  rewrite (bool_decide_eq_true_2 _ H). by rewrite orb_true_r.
Qed.

(** Only the files of the world matter. *)
Lemma refused_fs (path : string) (w1 w2 : World) :
  fs w1 = fs w2 → refused path w1 = refused path w2.
Proof. intros H. unfold Manager.refused. by rewrite H. Qed.

(** The entry [updateLibraryIndex] makes for the patch saved at [path], the
    clock being read for the [t]-th time. *)
Lemma updateLibraryIndex_run (w : World) (r : nat) (path : string) :
  updateLibraryIndex config pathJoin writeError clock toISOString r path w
  = (Ok tt,
     {| heap := heap w;
        allocated := allocated w;
        fs := <[indexPath :=
                  IndexFile
                    ((map_to_list
                        (<[derivedId (heap w r) :=
                             entryFor toISOString clock (heap w r) path (ticks w)]>
                           (libraryIndex w))).*2)]> (fs w);
        libraryIndex :=
          <[derivedId (heap w r) :=
              entryFor toISOString clock (heap w r) path (ticks w)]>
            (libraryIndex w);
        ticks := S (ticks w) |}).
Proof.
  unfold updateLibraryIndex, saveLibraryIndex.
  erewrite bind_ok by reflexivity.
  erewrite bind_ok by reflexivity.
  erewrite bind_ok by reflexivity.
  erewrite bind_ok by reflexivity.
  by rewrite writeFileSync_ok by apply refused_index.
Qed.

(** What a call of [savePatch] that passes the validation does. *)
Lemma savePatch_run (w : World) (r : nat) (filename : option string) :
  hasErrors (validatePatch (heap w r)) = false →
  let now := toISOString (clock (ticks w)) in
  let patch := withModifiedAt now (heap w r) in
  let path := targetPath config pathJoin w r filename in
  let backup := backupPath config pathJoin clock w r filename in
  savePatch r filename w
  = match fs w !! path with
    | Some content =>
        match refused backup w with
        | None =>
          (Ok path,
           {| heap := touched now r w;
              allocated := allocated w;
              fs := <[indexPath :=
                        IndexFile
                          ((map_to_list
                              (<[derivedId patch :=
                                   entryFor toISOString clock patch path
                                     (S (S (ticks w)))]>
                                 (libraryIndex w))).*2)]>
                      (<[path := stringifyPatch patch]>
                         (<[backup := content]> (fs w)));
              libraryIndex :=
                <[derivedId patch :=
                    entryFor toISOString clock patch path (S (S (ticks w)))]>
                  (libraryIndex w);
              ticks := S (S (S (ticks w))) |})
        | Some msg =>
          (Throw msg,
           {| heap := touched now r w;
              allocated := allocated w;
              fs := fs w;
              libraryIndex := libraryIndex w;
              ticks := S (S (ticks w)) |})
        end
    | None =>
        match refused path w with
        | None =>
          (Ok path,
           {| heap := touched now r w;
              allocated := allocated w;
              fs := <[indexPath :=
                        IndexFile
                          ((map_to_list
                              (<[derivedId patch :=
                                   entryFor toISOString clock patch path
                                     (S (ticks w))]>
                                 (libraryIndex w))).*2)]>
                      (<[path := stringifyPatch patch]> (fs w));
              libraryIndex :=
                <[derivedId patch :=
                    entryFor toISOString clock patch path (S (ticks w))]>
                  (libraryIndex w);
              ticks := S (S (ticks w)) |})
        | Some msg =>
          (Throw msg,
           {| heap := touched now r w;
              allocated := allocated w;
              fs := fs w;
              libraryIndex := libraryIndex w;
              ticks := S (ticks w) |})
        end
    end.
Proof.
  intros Hok now patch path backup.
  unfold Manager.savePatch.
  rewrite (bind_ok _ _ w w (heap w r)) by done.
  rewrite Hok.
  erewrite bind_ok by reflexivity.
  erewrite bind_ok by reflexivity.
  erewrite bind_ok by reflexivity.
  erewrite bind_ok by reflexivity.
  cbn [heap fs setHeap setTicks]. rewrite !(bool_decide_eq_true_2 (r = r)) by done.
  fold now. fold patch.
  change (fileNameFor filename patch) with (fileNameFor filename (heap w r)).
  change (pathJoin (patchDir config) (fileNameFor filename (heap w r)))
    with path.
  set (w1 := setHeap _ _).
  assert (fs w1 = fs w) as Hfs by done.
  destruct (fs w !! path) as [content|] eqn:Hfile.
  - rewrite bool_decide_eq_true_2 by by eexists.
    assert ((dateNow clock ≫= λ stamp,
               readFileSync path ≫= λ content,
                 writeFileSync
                   (pathJoin (backupDir config)
                      (fileNameFor filename (heap w r) +:+ "."
                       +:+ ofN stamp +:+ ".backup")) content) w1
            = writeFileSync backup content (setTicks (S (S (ticks w))) w1))
      as Hbackup.
    { erewrite bind_ok by reflexivity.
      erewrite bind_ok; [reflexivity|].
      unfold readFileSync. cbn [fs setTicks]. by rewrite Hfs, Hfile. }
    rewrite (refused_fs backup w (setTicks (S (S (ticks w))) w1))
      by done.
    destruct (refused backup (setTicks (S (S (ticks w))) w1)) as [msg|]
      eqn:Hdir.
    + erewrite bind_throw;
        [|rewrite Hbackup; by apply writeFileSync_throw].
      done.
    + erewrite bind_ok;
        [|rewrite Hbackup; by apply writeFileSync_ok].
      erewrite bind_ok.
      2:{ apply writeFileSync_ok, refused_present.
          cbn [fs setFs setTicks]. rewrite Hfs.
          apply lookup_insert_is_Some'. right. by eexists. }
      erewrite bind_ok by apply updateLibraryIndex_run.
      cbn. by rewrite !(bool_decide_eq_true_2 (r = r)) by done.
  - rewrite bool_decide_eq_false_2 by by intros [? [=]].
    erewrite bind_ok by reflexivity.
    rewrite (refused_fs path w w1) by done.
    destruct (refused path w1) as [msg|] eqn:Hdir.
    + erewrite bind_throw by by apply writeFileSync_throw.
      done.
    + erewrite bind_ok by by apply writeFileSync_ok.
      erewrite bind_ok by apply updateLibraryIndex_run.
      cbn. by rewrite !(bool_decide_eq_true_2 (r = r)) by done.
Qed.


(** What [savePatch] returned tells about the call. *)
Lemma savePatch_returned (w : World) (r : nat) (filename : option string)
    (path : string) :
  (savePatch r filename w).1 = Ok path →
  hasErrors (validatePatch (heap w r)) = false
  ∧ refused (firstWrite config pathJoin clock w r filename) w = None
  ∧ path = targetPath config pathJoin w r filename.
Proof.
  destruct (hasErrors (validatePatch (heap w r))) eqn:Herr.
  { by rewrite (savePatch_rejected w r filename Herr). }
  rewrite (savePatch_run w r filename Herr). unfold firstWrite.
  destruct (fs w !! targetPath config pathJoin w r filename) as [content|].
  - rewrite bool_decide_eq_true_2 by by eexists.
    destruct (refused _ w); [done | by intros [= <-]].
  - rewrite bool_decide_eq_false_2 by by intros [? [=]].
    destruct (refused _ w); [done | by intros [= <-]].
Qed.

Lemma savePatch_accepted (w : World) (r : nat) (filename : option string)
    (saved : string) :
  (savePatch r filename w).1 = Ok saved →
  let now := toISOString (clock (ticks w)) in
  let patch := withModifiedAt now (heap w r) in
  let path := pathJoin (patchDir config) (fileNameFor filename patch) in
  ∃ files index t,
    savePatch r filename w
    = (Ok path,
       {| heap := touched now r w;
          allocated := allocated w;
          fs := <[indexPath := IndexFile ((map_to_list index).*2)]>
                  (<[path := stringifyPatch patch]> files);
          libraryIndex := index;
          ticks := t |})
    ∧ (∀ q, is_Some (fs w !! q) → is_Some (files !! q))
    ∧ (∃ used, index = <[derivedId patch :=
                 {| entry_id := derivedId patch;
                    entry_name := name (metadata patch);
                    filePath := path;
                    entry_metadata := metadata patch;
                    previewSvg := None;
                    lastUsed := Some used |}]> (libraryIndex w)).
Proof.
  intros Hsaved now patch path.
  destruct (savePatch_returned w r filename saved Hsaved) as (Hok & Hdir & _).
  rewrite (savePatch_run w r filename Hok). unfold firstWrite in Hdir.
  change (targetPath config pathJoin w r filename) with path in *.
  destruct (fs w !! path) as [content|] eqn:Hfile.
  - rewrite bool_decide_eq_true_2 in Hdir by by eexists. rewrite Hdir.
    eexists _, _, _. split; [reflexivity|]. split; [|by eexists].
    intros q Hq. apply lookup_insert_is_Some'. by right.
  - rewrite bool_decide_eq_false_2 in Hdir by by intros [? [=]]. rewrite Hdir.
    eexists _, _, _. split; [reflexivity|]. split; [done | by eexists].
Qed.

(** C6. [savePatch] throws when [validatePatch] reports a result of
    severity error, and the text it throws then holds the message of every
    such result. It also throws, without any such result, when the file
    system refuses the first file it writes, the backup of the file it
    overwrites or else the patch file, and in no other case; it then throws
    the error of the file system, and the patch object carries the new
    modification time although no file is written and no entry is made,
    removed or changed in a field of its own. When it returns, the
    patch object carries the new modification time and the file written at
    the returned path is that patch, the index file being written after
    it. *)
Theorem savePatch_fails_on_errors_or_write (w : World) (r : nat)
    (filename : option string) :
  let errors := validatePatch (heap w r) in
  let w' := exec (savePatch r filename) w in
  ((∃ msg, (savePatch r filename w).1 = Throw msg) ↔
   (∃ e, e ∈ errors ∧ severity e = SevError)
   ∨ is_Some (refused (firstWrite config pathJoin clock w r filename) w))
  ∧ (∀ msg e, (savePatch r filename w).1 = Throw msg →
              e ∈ errors → severity e = SevError → occursIn (message e) msg)
  ∧ (∀ msg, hasErrors errors = false →
       refused (firstWrite config pathJoin clock w r filename) w = Some msg →
       (savePatch r filename w).1 = Throw msg
       ∧ modifiedAt (metadata (heap w' r)) = toISOString (clock (ticks w))
       ∧ fs w' = fs w
       ∧ ownFields <$> libraryIndex w' = ownFields <$> libraryIndex w)
  ∧ (∀ path, (savePatch r filename w).1 = Ok path →
       modifiedAt (metadata (heap w' r)) = toISOString (clock (ticks w))
       ∧ ∃ files,
           fs w' = <[indexPath := IndexFile ((map_to_list (libraryIndex w')).*2)]>
                     (<[path := stringifyPatch (heap w' r)]> files)).
Proof.
  intros errors w'. subst w'. unfold exec.
  destruct (hasErrors errors) eqn:Herr.
  - rewrite (savePatch_rejected w r filename Herr). cbn [fst snd].
    split; [|split; [|split]].
    + split; [intros _; left; by apply hasErrors_true | by eexists].
    + intros msg e [= <-] Hin Hsev.
      by apply occursIn_prepend, errorMessages_complete.
    + done.
    + intros path [=].
  - assert (¬ ∃ e, e ∈ errors ∧ severity e = SevError) as Hnone.
    { intros He%hasErrors_true. congruence. }
    assert (modifiedAt
              (metadata (touched (toISOString (clock (ticks w))) r w r))
            = toISOString (clock (ticks w))) as Htouched.
    { unfold touched. by rewrite bool_decide_eq_true_2. }
    destruct (refused (firstWrite config pathJoin clock w r filename) w)
      as [refusal|] eqn:Hdir.
    + revert Hdir. rewrite (savePatch_run w r filename Herr). unfold firstWrite.
      destruct (fs w !! targetPath config pathJoin w r filename);
        intros Hdir;
        [rewrite bool_decide_eq_true_2 in Hdir by by eexists
        |rewrite bool_decide_eq_false_2 in Hdir by by intros [? [=]]];
        rewrite Hdir; cbn [fst snd heap fs libraryIndex];
        (split; [|split; [|split]]);
        [ split; [by right | by eexists]
        | intros msg e _ Hin Hsev; exfalso; apply Hnone; by exists e
        | by intros msg _ [= <-]
        | intros path [=]
        | split; [by right | by eexists]
        | intros msg e _ Hin Hsev; exfalso; apply Hnone; by exists e
        | by intros msg _ [= <-]
        | intros path [=] ].
    + assert (∃ saved, (savePatch r filename w).1 = Ok saved) as [saved Hsaved].
      { revert Hdir. rewrite (savePatch_run w r filename Herr).
        unfold firstWrite.
        destruct (fs w !! targetPath config pathJoin w r filename).
        - rewrite bool_decide_eq_true_2 by by eexists. intros ->. by eexists.
        - rewrite bool_decide_eq_false_2 by by intros [? [=]].
          intros ->. by eexists. }
      destruct (savePatch_accepted w r filename saved Hsaved)
        as (files & index & t & -> & _ & _).
      cbn [fst snd heap fs libraryIndex]. split; [|split; [|split]].
      * split; [by intros [msg [=]] | intros [?|[? [=]]]; by destruct Hnone].
      * intros msg e [=].
      * intros msg _ [=].
      * intros path [= <-]. unfold touched.
        rewrite bool_decide_eq_true_2 by done. split; [done | by exists files].
Qed.

(** What [deletePatch] does for an identifier of the index. *)
Lemma deletePatch_run (w : World) (patchId : string)
    (entry : PatchLibraryEntry) :
  libraryIndex w !! patchId = Some entry →
  let backup :=
    pathJoin (backupDir config)
      ("deleted_" +:+ ofN (clock (ticks w)) +:+ "_"
       +:+ entry_name entry +:+ ".tscircuit") in
  let removed := delete patchId (libraryIndex w) in
  deletePatch patchId w
  = match fs w !! filePath entry with
    | Some content =>
        match refused backup w with
        | None =>
            (Ok true,
             {| heap := heap w;
                allocated := allocated w;
                fs := <[indexPath := IndexFile ((map_to_list removed).*2)]>
                        (<[backup := content]> (fs w));
                libraryIndex := removed;
                ticks := S (ticks w) |})
        | Some _ =>
            (Ok false,
             {| heap := heap w;
                allocated := allocated w;
                fs := fs w;
                libraryIndex := libraryIndex w;
                ticks := S (ticks w) |})
        end
    | None =>
        (Ok true,
         {| heap := heap w;
            allocated := allocated w;
            fs := <[indexPath := IndexFile ((map_to_list removed).*2)]> (fs w);
            libraryIndex := removed;
            ticks := ticks w |})
    end.
Proof.
  intros Hentry backup removed. unfold Manager.deletePatch.
  rewrite (bind_ok _ _ w w (libraryIndex w)) by done. rewrite Hentry.
  unfold tryCatch, saveLibraryIndex.
  erewrite bind_ok by reflexivity.
  assert (∀ w1, libraryIndex w1 = libraryIndex w →
            (indexDelete patchId ≫= λ _,
               (getIndex ≫= λ index,
                  writeFileSync indexPath (IndexFile (map_to_list index).*2))
               ≫= λ _, mret true) w1
            = (Ok true,
               setFs (<[indexPath := IndexFile ((map_to_list removed).*2)]>
                        (fs w1))
                     (setLibraryIndex removed w1))) as Hrest.
  { intros w1 Hindex.
    erewrite bind_ok by reflexivity.
    erewrite bind_ok.
    2:{ erewrite bind_ok by reflexivity.
        apply writeFileSync_ok, refused_index. }
    cbn. by rewrite Hindex. }
  destruct (fs w !! filePath entry) as [content|] eqn:Hfile.
  - rewrite bool_decide_eq_true_2 by by eexists.
    assert ((dateNow clock ≫= λ stamp,
               readFileSync (filePath entry) ≫= λ content,
                 writeFileSync
                   (pathJoin (backupDir config)
                      ("deleted_" +:+ ofN stamp +:+ "_"
                       +:+ entry_name entry +:+ ".tscircuit")) content) w
            = writeFileSync backup content (setTicks (S (ticks w)) w))
      as Hbackup.
    { erewrite bind_ok by reflexivity.
      erewrite bind_ok; [reflexivity|].
      unfold readFileSync. cbn [fs setTicks]. by rewrite Hfile. }
    rewrite (refused_fs backup w (setTicks (S (ticks w)) w)) by done.
    destruct (refused backup (setTicks (S (ticks w)) w)) as [msg|] eqn:Hdir.
    + erewrite bind_throw; [|rewrite Hbackup; by apply writeFileSync_throw].
      done.
    + erewrite bind_ok; [|rewrite Hbackup; by apply writeFileSync_ok].
      by rewrite Hrest.
  - rewrite bool_decide_eq_false_2 by by intros [? [=]].
    erewrite bind_ok by reflexivity. by rewrite Hrest.
Qed.

(** C7. [deletePatch] on an identifier that the index does not hold returns
    false and leaves the world, the index with it, as it was. On any
    identifier, every file that exists before the call exists after it, and
    no patch object changes. For an identifier in the index whose file
    exists, the call copies the file to the backup path; when the file
    system refuses that copy, the call returns false and leaves the index
    and the files as they were. Otherwise it returns true, removes the entry
    of that identifier and nothing else from the index, and writes the
    index file. *)
Theorem deletePatch_keeps_files (w : World) (patchId : string) :
  let w' := exec (deletePatch patchId) w in
  (libraryIndex w !! patchId = None → deletePatch patchId w = (Ok false, w))
  ∧ (∀ path, is_Some (fs w !! path) → is_Some (fs w' !! path))
  ∧ (∀ entry, libraryIndex w !! patchId = Some entry →
       let backupPath :=
         pathJoin (backupDir config)
           ("deleted_" +:+ ofN (clock (ticks w)) +:+ "_"
            +:+ entry_name entry +:+ ".tscircuit") in
       heap w' = heap w
       ∧ match fs w !! filePath entry with
         | Some content =>
             match refused backupPath w with
             | None =>
                 (deletePatch patchId w).1 = Ok true
                 ∧ libraryIndex w' = delete patchId (libraryIndex w)
                 ∧ fs w' = <[indexPath :=
                               IndexFile
                                 ((map_to_list
                                     (delete patchId (libraryIndex w))).*2)]>
                             (<[backupPath := content]> (fs w))
             | Some _ =>
                 (deletePatch patchId w).1 = Ok false
                 ∧ libraryIndex w' = libraryIndex w
                 ∧ fs w' = fs w
             end
         | None =>
             (deletePatch patchId w).1 = Ok true
             ∧ libraryIndex w' = delete patchId (libraryIndex w)
             ∧ fs w' = <[indexPath :=
                           IndexFile
                             ((map_to_list
                                 (delete patchId (libraryIndex w))).*2)]>
                         (fs w)
         end).
Proof.
  intros w'. subst w'. unfold exec.
  destruct (libraryIndex w !! patchId) as [entry|] eqn:Hentry.
  - rewrite (deletePatch_run w patchId entry Hentry).
    split; [done|]. split.
    + intros path Hpath.
      destruct (fs w !! filePath entry) as [content|];
        [destruct (refused _ w)|]; cbn [snd fs];
        rewrite ?lookup_insert_is_Some'; tauto.
    + intros ? [= <-].
      destruct (fs w !! filePath entry) as [content|];
        [destruct (refused _ w)|]; done.
  - unfold Manager.deletePatch.
    rewrite (bind_ok _ _ w w (libraryIndex w)) by done. rewrite Hentry.
    cbn. split; [done|]. split; [done|]. intros ? [=].
Qed.

(** *** The index over a run of calls *)

Lemma keyed_empty : keyed ∅.
Proof. intros k e H. by rewrite lookup_empty in H. Qed.

Lemma keyed_insert index e : keyed index → keyed (<[entry_id e := e]> index).
Proof.
  intros Hk k e'. rewrite lookup_insert. case_decide as Heq.
  - by intros [= <-].
  - apply Hk.
Qed.

Lemma keyed_delete index k : keyed index → keyed (delete k index).
Proof.
  intros Hk k' e. rewrite lookup_delete. case_decide; [done | apply Hk].
Qed.

Lemma preserves_bind {A B} (m : M A) (f : A → M B) :
  preserves m → (∀ a, preserves (f a)) → preserves (m ≫= f).
Proof.
  intros Hm Hf w Hw. unfold mbind, M_bind. specialize (Hm w Hw).
  destruct (m w) as [[a|msg] w1]; [by apply Hf | done].
Qed.

Lemma preserves_tryCatch {A} (body : M A) (handler : string → M A) :
  preserves body → (∀ msg, preserves (handler msg)) →
  preserves (tryCatch body handler).
Proof.
  intros Hb Hh w Hw. unfold tryCatch. specialize (Hb w Hw).
  destruct (body w) as [[a|msg] w1]; [done | by apply Hh].
Qed.

(** A computation that leaves the index alone. *)
Lemma preserves_frame {A} (m : M A) :
  (∀ w, libraryIndex (m w).2 = libraryIndex w) → preserves m.
Proof. intros H w Hw. by rewrite H. Qed.

Lemma preserves_readFileSync path : preserves (readFileSync path).
Proof.
  apply preserves_frame. intros w. unfold readFileSync.
  by destruct (fs w !! path).
Qed.

Lemma preserves_writeFileSync path content :
  preserves (writeFileSync path content).
Proof.
  apply preserves_frame. intros w. unfold Manager.writeFileSync.
  by destruct (Manager.refused _ _ _ _ _).
Qed.

Lemma preserves_indexSet e : preserves (indexSet (entry_id e) e).
Proof. intros w Hw. by apply keyed_insert. Qed.

Lemma preserves_indexSetAll data : preserves (indexSetAll data).
Proof.
  intros w Hw. cbn. revert Hw. generalize (libraryIndex w).
  induction data as [|e data IH]; intros index Hk; [done|].
  cbn [foldl]. by apply IH, keyed_insert.
Qed.

Lemma preserves_indexDelete k : preserves (indexDelete k).
Proof. intros w Hw. by apply keyed_delete. Qed.

(** The rules above, applied along the shape of a computation; the
    operations already dealt with are taken from the hint database. *)
Create HintDb preserving.

Ltac preserve :=
  repeat first
    [ solve [auto 1 with preserving nocore]
    | apply preserves_bind; [|intros ?]
    | apply preserves_tryCatch; [|intros ?]
    | apply preserves_readFileSync
    | apply preserves_writeFileSync
    | apply preserves_indexSetAll
    | apply preserves_indexDelete
    | apply (preserves_indexSet (Build_PatchLibraryEntry _ _ _ _ _ _))
    | apply preserves_frame; intros ?; reflexivity
    | match goal with
      | |- preserves (if ?b then _ else _) => destruct b
      | |- preserves (match ?x with _ => _ end) => destruct x
      end ].

Lemma preserves_saveLibraryIndex :
  preserves (saveLibraryIndex config pathJoin writeError).
Proof. unfold saveLibraryIndex, getIndex. preserve. Qed.
#[local] Hint Resolve preserves_saveLibraryIndex : preserving.

Lemma preserves_savePatch r filename : preserves (savePatch r filename).
Proof. unfold Manager.savePatch, updateLibraryIndex, nowISO. preserve. Qed.
#[local] Hint Resolve preserves_savePatch : preserving.

Lemma preserves_loadPatch filepath : preserves (loadPatch filepath).
Proof. unfold Manager.loadPatch, nowISO. preserve. Qed.
#[local] Hint Resolve preserves_loadPatch : preserving.

Lemma preserves_importPatch filepath : preserves (importPatch filepath).
Proof. unfold Manager.importPatch, nowISO. preserve. Qed.

Lemma preserves_deletePatch patchId : preserves (deletePatch patchId).
Proof. unfold Manager.deletePatch, getIndex. preserve. Qed.

Lemma preserves_loadLibraryIndex :
  preserves (loadLibraryIndex config pathJoin).
Proof. unfold loadLibraryIndex. preserve. Qed.

Lemma keyed_performAll calls w :
  keyed (libraryIndex w) →
  keyed (libraryIndex (performAll config pathJoin writeError clock toISOString calls w)).
Proof.
  revert w. induction calls as [|c calls IH]; intros w Hw; [done|].
  apply IH. destruct c as [r filename | filepath]; cbn.
  - by apply preserves_savePatch.
  - by apply preserves_importPatch.
Qed.

(** A successful [importPatch] leaves two entries for the file it saved: the
    one [savePatch] put under the identifier derived from the name, and the
    returned one under the identifier made from the clock. *)
Lemma importPatch_registers_twice (w : World) (filepath : string)
    (entry : PatchLibraryEntry) :
  (importPatch filepath w).1 = Ok entry →
  let index := libraryIndex (exec (importPatch filepath) w) in
  index !! entry_id entry = Some entry
  ∧ ∃ e, index !! ("patch_" +:+ replaceSpaces "_" (entry_name entry)) = Some e
         ∧ filePath e = filePath entry.
Proof.
  unfold exec, Manager.importPatch.
  destruct (loadPatch filepath w) as [[r|msg] w1] eqn:Hload;
    [rewrite (bind_ok _ _ _ _ _ Hload) | by rewrite (bind_throw _ _ _ _ _ Hload)].
  destruct (savePatch r None w1) as [[saved|msg] w2] eqn:Hsaved;
    [|by rewrite (bind_throw _ _ _ _ _ Hsaved)].
  destruct (savePatch_accepted w1 r None saved)
    as (files & index1 & t & Hsave & _ & used & ->); [by rewrite Hsaved|].
  clear Hsaved. rewrite (bind_ok _ _ _ _ _ Hsave).
  unfold saveLibraryIndex, nowISO, dateNow, readPatch, getIndex, indexSet,
    Manager.writeFileSync, mbind, M_bind, mret, M_ret.
  cbn. rewrite refused_index.
  cbn. unfold touched. rewrite !bool_decide_eq_true_2 by done. cbn.
  intros [= <-]. cbn. split; [apply lookup_insert_eq|].
  rewrite lookup_insert. case_decide as Heq; [by eexists|].
  unfold derivedId. cbn. rewrite lookup_insert_eq. by eexists.
Qed.

(** C8, as the code has it. The index holds one entry per identifier: from
    the construction of the manager on, through any run of [savePatch] and
    [importPatch] calls, every entry sits under its own identifier. A file
    may be referenced by more than one entry: a successful [importPatch]
    leaves the file it saved both under the identifier derived from the
    name and under the identifier of the returned entry. *)
Theorem index_one_entry_per_identifier :
  (∀ (objects : nat → PatchData) (next : nat) (files : gmap string File)
     (tick : nat) (calls : list Call),
     keyed (libraryIndex
              (performAll config pathJoin writeError clock toISOString calls
                 (newPatchManager config pathJoin objects next files tick))))
  ∧ (∀ (w : World) (filepath : string) (entry : PatchLibraryEntry),
       (importPatch filepath w).1 = Ok entry →
       let index := libraryIndex (exec (importPatch filepath) w) in
       index !! entry_id entry = Some entry
       ∧ ∃ e, index !! ("patch_" +:+ replaceSpaces "_" (entry_name entry)) = Some e
              ∧ filePath e = filePath entry).
Proof.
  split; [|apply importPatch_registers_twice].
  intros objects next files tick calls. apply keyed_performAll.
  unfold newPatchManager, exec. apply preserves_loadLibraryIndex.
  apply keyed_empty.
Qed.

End Store.

(** *** On a concrete store *)

Lemma savePatch_rejected_changes_nothing_witness :
  hasErrors (validatePatch (heap rejected 0)) = true
  ∧ exec (Manager.savePatch storage slashJoin flatStorage tickingClock
            isoStamp 0 None) rejected
    = rejected.
Proof.
  split; [reflexivity|].
  apply (savePatch_rejected_changes_nothing storage slashJoin flatStorage
           tickingClock isoStamp rejected 0 None).
  reflexivity.
Defined.

Lemma savePatch_fails_on_errors_or_write_witness :
  (modifiedAt (metadata (heap afterSave 0)) = "1700000000000"
   ∧ ∃ files,
       fs afterSave
       = <[Manager.indexPath storage slashJoin :=
             IndexFile ((map_to_list (libraryIndex afterSave)).*2)]>
           (<[savedPath := stringifyPatch (heap afterSave 0)]> files))
  ∧ (let w' := exec (Manager.savePatch storage slashJoin flatStorage
                       tickingClock isoStamp 0 None) slashed in
     (Manager.savePatch storage slashJoin flatStorage tickingClock isoStamp
        0 None slashed).1
     = Throw ("ENOENT: no such file or directory, open '"
              +:+ "./patches/Filter_A/B_v1.0.0.tscircuit" +:+ "'")
     ∧ modifiedAt (metadata (heap w' 0)) = "1700000000000"
     ∧ fs w' = fs slashed
     ∧ ownFields <$> libraryIndex w' = ownFields <$> libraryIndex slashed).
Proof.
  split.
  - apply (proj2 (proj2 (proj2
             (savePatch_fails_on_errors_or_write storage slashJoin flatStorage
                tickingClock isoStamp accepted 0 None))) savedPath).
    vm_compute. reflexivity.
  - apply (proj1 (proj2 (proj2
             (savePatch_fails_on_errors_or_write storage slashJoin flatStorage
                tickingClock isoStamp slashed 0 None)))).
    + vm_compute. reflexivity.
    + vm_compute. reflexivity.
Defined.

(** C6 fails as stated: the patch named Filter A/B has no validation
    result of severity error, and [savePatch] throws on it, since the file
    name made from the name lies in a directory that does not exist. *)
Lemma savePatch_fails_without_errors :
  (Manager.savePatch storage slashJoin flatStorage tickingClock isoStamp
     0 None slashed).1
  = Throw ("ENOENT: no such file or directory, open '"
           +:+ "./patches/Filter_A/B_v1.0.0.tscircuit" +:+ "'")
  ∧ ¬ ∃ e, e ∈ validatePatch (heap slashed 0) ∧ severity e = SevError.
Proof.
  split; [vm_compute; reflexivity|].
  intros (e & He & Hsev). vm_compute in He.
  repeat (apply elem_of_cons in He as [->|He]; [discriminate Hsev|]).
  by apply elem_of_nil in He.
Qed.

Lemma deletePatch_keeps_files_witness :
  Manager.deletePatch storage slashJoin flatStorage tickingClock "patch_unknown" afterSave
    = (Ok false, afterSave)
  ∧ is_Some (fs (exec (Manager.deletePatch storage slashJoin flatStorage tickingClock
                         "patch_Save_Test_Patch") afterSave) !! savedPath).
Proof.
  split.
  - apply (deletePatch_keeps_files storage slashJoin flatStorage tickingClock afterSave
             "patch_unknown").
    vm_compute. reflexivity.
  - apply (deletePatch_keeps_files storage slashJoin flatStorage tickingClock afterSave
             "patch_Save_Test_Patch").
    vm_compute. eexists. reflexivity.
Defined.

(** C7 fails as stated: the entry of the patch named Filter A/B is in the
    index and its file exists, and [deletePatch] on its identifier returns
    false and leaves the entry where it is, since the backup path made
    from the name lies in a directory that does not exist. *)
Lemma deletePatch_keeps_entry :
  (∃ entry, libraryIndex afterSlashedSave !! "patch_Filter_A/B" = Some entry
            ∧ filePath entry = "./patches/fab.tscircuit"
            ∧ is_Some (fs afterSlashedSave !! filePath entry))
  ∧ (Manager.deletePatch storage slashJoin flatStorage tickingClock
       "patch_Filter_A/B" afterSlashedSave).1 = Ok false
  ∧ libraryIndex (exec (Manager.deletePatch storage slashJoin flatStorage
                          tickingClock "patch_Filter_A/B") afterSlashedSave)
    = libraryIndex afterSlashedSave.
Proof.
  split; [|split; vm_compute; reflexivity].
  eexists. split; [vm_compute; reflexivity|].
  split; [reflexivity | vm_compute; by eexists].
Qed.

Lemma index_one_entry_per_identifier_witness :
  libraryIndex afterImport !! "patch_1700000000002" = Some importedEntry
  ∧ ∃ e, libraryIndex afterImport !! "patch_Save_Test_Patch" = Some e
         ∧ filePath e = savedPath.
Proof.
  apply (proj2 (index_one_entry_per_identifier storage slashJoin flatStorage
                  tickingClock isoStamp)
           (worldWith PatchSpec.savedTestPatch incoming) "incoming.tscircuit"
           importedEntry).
  vm_compute. reflexivity.
Defined.

(** C8 fails as stated: after one [importPatch] the file of the imported
    patch is referenced by two entries of the index. *)
Lemma import_leaves_two_entries :
  ¬ oneEntryPerFile (libraryIndex afterImport).
Proof.
  intros Hone.
  destruct (libraryIndex afterImport !! "patch_Save_Test_Patch")
    as [e1|] eqn:H1; [|vm_compute in H1; discriminate].
  destruct (libraryIndex afterImport !! "patch_1700000000002")
    as [e2|] eqn:H2; [|vm_compute in H2; discriminate].
  assert (filePath e1 = filePath e2) as Hpath.
  { vm_compute in H1, H2. by injection H1 as <-; injection H2 as <-. }
  discriminate (Hone _ _ _ _ H1 H2 Hpath).
Qed.

End ManagerProps.

(** * Further properties *)

(** ** Strings *)
Module StringLaws.
Import Js.

Lemma prefix_refl (s : string) : String.prefix s s = true.
Proof.
  induction s as [|c s IH]; [done|]. cbn [String.prefix].
  by destruct (ascii_dec c c).
Qed.

Lemma includes_refl (s : string) : includes s s = true.
Proof. destruct s; cbn [includes]; by rewrite prefix_refl. Qed.

End StringLaws.

(** ** lib/patch.ts *)
Module PatchLaws.
Import Js Patch PatchSpec PatchProps PatchTerms.

Lemma isConnected_withNet net patch component pin :
  isConnected (withNet net patch) component pin
  = isConnected patch component pin
    || existsb (fun conn =>
                  bool_decide (componentId conn = comp_id component)
                  && bool_decide (pinName conn = pin)) (connections net).
Proof.
  unfold isConnected, withNet. cbn [nets]. rewrite existsb_app. cbn [existsb].
  by rewrite orb_false_r.
Qed.

(** X1. Validation is monotone in the nets: a net pushed onto a patch
    brings no new result of severity error, and no result is left for a
    pin that the new net reaches. *)
Theorem validatePatch_withNet (patch : PatchData) (net : PatchNet)
    (component : PatchComponent) (pin : string) :
  {| componentId := comp_id component; pinName := pin |} ∈ connections net →
  (∀ e, e ∈ validatePatch (withNet net patch) → severity e = SevError →
        e ∈ validatePatch patch)
  ∧ (∀ e, e ∈ validatePatch (withNet net patch) →
          ¬ (err_componentId e = Some (comp_id component)
             ∧ err_pinId e = Some pin)).
Proof.
  intros Hnet. split.
  - intros e He Hsev. apply elem_of_validatePatch in He as [(c & Hc & He)|(n & Hn & He)].
    + apply elem_of_validatePatch. left. exists c. split; [done|].
      apply elem_of_checkComponentPins in He as (kv & Hkv & Hpre & Hcon & ->).
      apply elem_of_checkComponentPins. exists kv. repeat split; try done.
      rewrite isConnected_withNet in Hcon. by apply orb_false_iff in Hcon as [? _].
    + apply elem_of_checkNet in He as [_ ->]. discriminate Hsev.
  - intros e He [Hid Hpin].
    apply elem_of_validatePatch in He as [(c & Hc & He)|(n & Hn & He)].
    + apply elem_of_checkComponentPins in He as (kv & Hkv & Hpre & Hcon & ->).
      cbn in Hid, Hpin. injection Hid as Hid. injection Hpin as Hpin.
      rewrite isConnected_withNet in Hcon. apply orb_false_iff in Hcon as [_ Hcon].
      assert (existsb (fun conn =>
                bool_decide (componentId conn = comp_id c)
                && bool_decide (pinName conn = kv.1)) (connections net) = true)
        as Htrue; [|congruence].
      apply existsb_exists. eexists. split; [apply list_elem_of_In, Hnet|].
      cbn. rewrite Hid, Hpin. by rewrite !bool_decide_eq_true_2.
    + apply elem_of_checkNet in He as [_ ->]. discriminate Hid.
Qed.

Lemma warningsOf_pins patch component :
  warningsOf (checkComponentPins patch component) = [].
Proof.
  unfold warningsOf, checkComponentPins.
  induction (properties component) as [|kv props IH]; [done|].
  change ((kv :: props) ≫= ?f) with (f kv ++ (props ≫= f)).
  rewrite List.filter_app, IH, app_nil_r.
  destruct (startsWith kv.1 "pin_"); [|done].
  by destruct (isConnected patch component kv.1).
Qed.

(** X2. The two floating-net checks agree: the warnings of [validatePatch] are,
    in order, about the nets that [findFloatingNets] lists, and no other
    warning exists. *)
Theorem floating_checks_agree (patch : PatchData) :
  err_netId <$> warningsOf (validatePatch patch)
  = (fun f => Some (Elk.fn_netId f)) <$> Elk.findFloatingNets patch.
Proof.
  unfold validatePatch, warningsOf, Elk.findFloatingNets.
  rewrite List.filter_app.
  assert (List.filter (fun e => bool_decide (severity e = SevWarning))
            (components patch ≫= checkComponentPins patch) = []) as ->.
  { induction (components patch) as [|c cs IH]; [done|].
    change ((c :: cs) ≫= ?f) with (f c ++ (cs ≫= f)).
    rewrite List.filter_app, IH, app_nil_r. apply warningsOf_pins. }
  cbn [app]. induction (nets patch) as [|n ns IH]; [done|].
  change ((n :: ns) ≫= ?f) with (f n ++ (ns ≫= f)).
  rewrite List.filter_app, fmap_app, IH. cbn [List.filter]. unfold checkNet.
  by destruct (length (connections n) <? 2)%nat.
Qed.

Lemma getField_setField_eq k v o : getField k (setField k v o) = Some v.
Proof.
  induction o as [|[k' v'] o IH]; cbn [setField getField].
  - by rewrite bool_decide_eq_true_2.
  - destruct (bool_decide (k' = k)) eqn:Hk; cbn [getField].
    + by rewrite bool_decide_eq_true_2.
    + by rewrite Hk.
Qed.

Lemma getField_setField_ne k k' v o :
  k ≠ k' → getField k (setField k' v o) = getField k o.
Proof.
  intros Hne. induction o as [|[k0 v0] o IH]; cbn [setField getField].
  - by rewrite bool_decide_eq_false_2.
  - destruct (bool_decide (k0 = k')) eqn:Hk; cbn [getField].
    + apply bool_decide_eq_true in Hk as ->.
      by rewrite !bool_decide_eq_false_2 by done.
    + destruct (bool_decide (k0 = k)); [done | apply IH].
Qed.

Lemma getField_spread k props o :
  k ∉ props.*1 →
  getField k (foldl (fun o kv => setField kv.1 kv.2 o) o props) = getField k o.
Proof.
  revert o. induction props as [|[k' v'] props IH]; intros o Hk; [done|].
  cbn [foldl fst snd]. rewrite IH.
  - apply getField_setField_ne. intros ->. apply Hk. cbn. left.
  - intros Hin. apply Hk. cbn. by right.
Qed.

(** X3. In the wire form of a component every property reads back under its
    key, so that a property called [name] or [type] takes the place of the
    name or the type of the component; without such a property the name is
    the component's. *)
Theorem wireComponent_fields (comp : PatchComponent) :
  (∀ before k v after,
     properties comp = before ++ (k, v) :: after → k ∉ after.*1 →
     getField k (wireComponent comp) = Some v)
  ∧ ("name" ∉ (properties comp).*1 →
     getField "name" (wireComponent comp) = Some (PStr (comp_name comp)))
  ∧ ("type" ∉ (properties comp).*1 →
     getField "type" (wireComponent comp) = Some (PStr (comp_type comp))).
Proof.
  unfold wireComponent. split; [|split].
  - intros before k v after -> Hk. rewrite foldl_app. cbn [foldl fst snd].
    rewrite getField_spread by done. apply getField_setField_eq.
  - intros Hk. by rewrite getField_spread.
  - intros Hk. by rewrite getField_spread.
Qed.

Lemma wireComponent_fields_witness :
  getField "name" (wireComponent shadowed) = Some (PStr "load").
Proof.
  apply (proj1 (wireComponent_fields shadowed) [("resistance", PStr "10k")]
           "name" (PStr "load") []); [reflexivity|].
  intros H. by apply elem_of_nil in H.
Defined.

Lemma validatePatch_withNet_witness :
  length (validatePatch danglingOne) = 1%nat
  ∧ Forall (fun e => ¬ (err_componentId e = Some "r1" ∧ err_pinId e = Some "pin_1"))
           (validatePatch (withNet reachingNet danglingOne)).
Proof.
  split; [reflexivity|]. apply Forall_forall.
  apply (validatePatch_withNet danglingOne reachingNet danglingResistor "pin_1").
  left.
Defined.

End PatchLaws.

(** ** lib/elk-service.ts *)
Module ElkLaws.
Import Js Patch Elk ElkSpec ElkProps ElkTerms.

Lemma chainFrom_lookup (l : list Connection) (k i j : nat) conn1 conn2 :
  chainFrom k l !! i = Some (j, conn1, conn2) ↔
  j = (k + i)%nat ∧ l !! i = Some conn1 ∧ l !! S i = Some conn2.
Proof.
  revert k i. induction l as [|c1 l IH]; intros k i; cbn [chainFrom].
  - split; [done | by intros (_ & ? & _)].
  - destruct l as [|c2 l'].
    + split; [done|]. intros (_ & _ & H). by destruct i.
    + destruct i as [|i]; cbn [lookup list_lookup].
      * split.
        -- intros [= <- <- <-]. split; [lia | done].
        -- intros (-> & [= <-] & [= <-]). do 3 f_equal. lia.
      * rewrite IH. split; intros (-> & ? & ?); (split; [lia | done]).
Qed.

Lemma chainFrom_length (l : list Connection) (k : nat) :
  length (chainFrom k l) = (length l - 1)%nat.
Proof.
  revert k. induction l as [|c1 l IH]; intros k; [done|].
  destruct l as [|c2 l']; [done|].
  specialize (IH (S k)). cbn [chainFrom length] in IH |- *. lia.
Qed.

(** X4. The graph chains the endpoints of a net: a net with [n] endpoints gives
    [n - 1] edges, none for an empty net, and the edge of index [i] runs
    from endpoint [i] to endpoint [i + 1] under the identifier made of the
    net's and [i]. *)
Theorem netEdges_chain (net : PatchNet) :
  length (netEdges net) = (length (connections net) - 1)%nat
  ∧ ∀ i e, netEdges net !! i = Some e ↔
           ∃ conn1 conn2,
             connections net !! i = Some conn1
             ∧ connections net !! S i = Some conn2
             ∧ e = {| edge_id := underscore (net_id net) (ofNat i);
                      source := underscore (componentId conn1) (pinName conn1);
                      target := underscore (componentId conn2) (pinName conn2);
                      edge_netId := net_id net |}.
Proof.
  unfold netEdges. split; [by rewrite length_fmap, chainFrom_length|].
  intros i e. rewrite list_lookup_fmap. split.
  - destruct (chainFrom 0 (connections net) !! i) as [[[j c1] c2]|] eqn:Hi;
      [|done].
    apply chainFrom_lookup in Hi as (-> & H1 & H2). intros [= <-].
    by exists c1, c2.
  - intros (c1 & c2 & H1 & H2 & ->).
    assert (chainFrom 0 (connections net) !! i = Some (i, c1, c2)) as ->; [|done].
    by apply chainFrom_lookup.
Qed.

Lemma zip_chain (c : Connection) (l : list Connection) (k : nat) :
  zip (componentId <$> removelast (c :: l)) (componentId <$> l)
  = (fun t => (componentId t.1.2, componentId t.2)) <$> chainFrom k (c :: l).
Proof.
  revert c k. induction l as [|c2 l IH]; intros c k; [done|].
  change (removelast (c :: c2 :: l)) with (c :: removelast (c2 :: l)).
  cbn [chainFrom fmap list_fmap zip zip_with]. f_equal. apply IH.
Qed.

(** X5. The layout configuration follows the same chain: for every net the
    lists [sources] and [targets] are equally long and pair the components
    of endpoint [i] and endpoint [i + 1], as the edges of the graph do. *)
Theorem generateELKConfig_edges (patch : PatchData) :
  elk_edges (generateELKConfig patch)
  = (fun net =>
       {| elk_edge_id := net_id net;
          sources := (fun e => e.1) <$>
            ((fun t => (componentId t.1.2, componentId t.2))
             <$> chainFrom 0 (connections net));
          targets := (fun e => e.2) <$>
            ((fun t => (componentId t.1.2, componentId t.2))
             <$> chainFrom 0 (connections net)) |}) <$> nets patch.
Proof.
  cbn [generateELKConfig elk_edges]. apply list_fmap_ext. intros _ net _.
  unfold sliceInit, sliceTail.
  destruct (connections net) as [|c l]; [done|]. cbn [tail].
  rewrite <- (zip_chain c l 0).
  assert (length (componentId <$> removelast (c :: l))
          = length (componentId <$> l)) as Hlen.
  { rewrite !length_fmap. clear. revert c.
    induction l as [|c2 l IH]; intros c; [done|].
    change (removelast (c :: c2 :: l)) with (c :: removelast (c2 :: l)).
    cbn [length]. by rewrite IH. }
  f_equal.
  - symmetry. apply fst_zip. lia.
  - symmetry. apply snd_zip. lia.
Qed.

(** *** The adjacency lists *)

Lemma link_lookup (e : GraphEdge) (adj : gmap string (list string)) k :
  pushNeighbor (target e) (source e)
    (pushNeighbor (source e) (target e) adj) !! k
  = (fun l => l ++ (if bool_decide (source e = k) then [target e] else [])
                ++ (if bool_decide (target e = k) then [source e] else []))
    <$> adj !! k.
Proof.
  unfold pushNeighbor.
  destruct (decide (target e = k)) as [Ht|Ht], (decide (source e = k)) as [Hs|Hs];
    rewrite ?(bool_decide_eq_true_2 _ Ht), ?(bool_decide_eq_true_2 _ Hs),
            ?(bool_decide_eq_false_2 _ Ht), ?(bool_decide_eq_false_2 _ Hs).
  - rewrite Ht at 1. rewrite lookup_alter_eq. rewrite Hs at 1.
    rewrite lookup_alter_eq. destruct (adj !! k); cbn; [|done].
    by rewrite <- app_assoc.
  - rewrite Ht at 1. rewrite lookup_alter_eq, lookup_alter_ne by done.
    by destruct (adj !! k).
  - rewrite lookup_alter_ne by done. rewrite Hs at 1. rewrite lookup_alter_eq.
    destruct (adj !! k); cbn; [|done]. by rewrite ?app_nil_r.
  - rewrite !lookup_alter_ne by done.
    destruct (adj !! k); cbn; [|done]. by rewrite ?app_nil_r.
Qed.

Lemma links_lookup (es : list GraphEdge) (adj : gmap string (list string)) k :
  foldl (fun adj e => pushNeighbor (target e) (source e)
                        (pushNeighbor (source e) (target e) adj)) adj es !! k
  = (fun l => l ++ (es ≫= fun e =>
                (if bool_decide (source e = k) then [target e] else [])
                ++ (if bool_decide (target e = k) then [source e] else [])))
    <$> adj !! k.
Proof.
  revert adj. induction es as [|e es IH]; intros adj.
  - cbn. destruct (adj !! k); cbn; [|done]. by rewrite app_nil_r.
  - cbn [foldl]. rewrite IH, link_lookup.
    change ((e :: es) ≫= ?f) with (f e ++ (es ≫= f)).
    destruct (adj !! k); cbn; [|done]. by rewrite <- !app_assoc.
Qed.

Lemma slots_lookup (ns : list GraphNode) (adj : gmap string (list string)) k :
  foldl (fun adj n => <[node_id n := []]> adj) adj ns !! k
  = if bool_decide (k ∈ node_id <$> ns) then Some [] else adj !! k.
Proof.
  revert adj. induction ns as [|n ns IH]; intros adj; [done|].
  cbn [foldl]. rewrite IH. rewrite fmap_cons.
  destruct (decide (k ∈ node_id <$> ns)) as [Hin|Hin].
  - rewrite !bool_decide_eq_true_2; [done | by right | done].
  - rewrite (bool_decide_eq_false_2 _ Hin).
    destruct (decide (node_id n = k)) as [<-|Hne].
    + rewrite lookup_insert_eq. rewrite bool_decide_eq_true_2; [done | left].
    + rewrite lookup_insert_ne by done. rewrite bool_decide_eq_false_2; [done|].
      intros [?|?]%elem_of_cons; congruence.
Qed.

(** X6. The adjacency lists of the graph: the keys are the identifiers of the
    pin nodes and of nothing else, and the list of a node holds, in the
    order of the edges, the other end of every edge that starts or ends at
    it. An edge one end of which is no pin node leaves no trace at that
    end. *)
Theorem buildGraph_adjacency (patch : PatchData) (k : string) :
  adjacencyList (buildGraph patch) !! k
  = if bool_decide (k ∈ node_id <$> nodes (buildGraph patch))
    then Some (edges (buildGraph patch) ≫= fun e =>
                 (if bool_decide (source e = k) then [target e] else [])
                 ++ (if bool_decide (target e = k) then [source e] else []))
    else None.
Proof.
  cbn [buildGraph adjacencyList nodes edges].
  rewrite links_lookup, slots_lookup, lookup_empty.
  by destruct (bool_decide _).
Qed.

(** *** The verdict *)

(** X7. The analysis calls a patch fully connected exactly when every net has
    two endpoints or more and every net names every component. *)
Theorem isFullyConnected_iff (patch : PatchData) :
  isFullyConnected (analyzeConnectivity patch) = true ↔
  (∀ net, net ∈ nets patch → (2 ≤ length (connections net))%nat)
  ∧ (∀ component net,
       component ∈ components patch → net ∈ nets patch →
       ∃ conn, conn ∈ connections net
               ∧ componentId conn = comp_id component).
Proof.
  cbn [analyzeConnectivity isFullyConnected].
  rewrite andb_true_iff, !Nat.eqb_eq, !length_zero_iff_nil. split.
  - intros [Hpins Hnets]. split.
    + intros net Hnet. destruct (decide (2 ≤ length (connections net))%nat)
        as [|Hlt]; [done|]. exfalso.
      assert (net ∈ List.filter (fun net => (length (connections net) <? 2)%nat)
                      (nets patch)) as Hin.
      { apply list_elem_of_In, filter_In. split; [by apply list_elem_of_In|].
        apply Nat.ltb_lt. lia. }
      unfold findFloatingNets in Hnets. apply fmap_nil_inv in Hnets.
      rewrite Hnets in Hin. by apply elem_of_nil in Hin.
    + intros component net Hc Hn.
      destruct (netReferences net component) eqn:Href.
      * apply existsb_exists in Href as (conn & Hin & Heq).
        exists conn. split; [by apply list_elem_of_In|].
        by apply bool_decide_eq_true in Heq.
      * exfalso. assert (entryOf component ∈ findUnconnectedPins patch (buildGraph patch))
          as Hin; [|rewrite Hpins in Hin; by apply elem_of_nil in Hin].
        apply elem_of_findUnconnectedPins. by exists component, net.
  - intros [Hnets Hpins]. split.
    + destruct (findUnconnectedPins patch (buildGraph patch)) as [|e l] eqn:He;
        [done|]. exfalso.
      assert (e ∈ findUnconnectedPins patch (buildGraph patch)) as Hin
        by (rewrite He; left).
      apply elem_of_findUnconnectedPins in Hin as (c & n & Hc & Hn & Href & _).
      destruct (Hpins c n Hc Hn) as (conn & Hconn & Heq).
      assert (netReferences n c = true); [|congruence].
      apply existsb_exists. exists conn. split; [by apply list_elem_of_In|].
      by apply bool_decide_eq_true.
    + unfold findFloatingNets.
      destruct (List.filter _ (nets patch)) as [|n l] eqn:Hf; [done|]. exfalso.
      assert (In n (List.filter (fun net => (length (connections net) <? 2)%nat)
                      (nets patch))) as Hin by (rewrite Hf; left; done).
      apply filter_In in Hin as [Hin Hlt]. apply Nat.ltb_lt in Hlt.
      apply list_elem_of_In, Hnets in Hin. lia.
Qed.

(** *** The count of the islands *)

Lemma dfs_start fuel nodeId adj (visited : gset string) :
  nodeId ∈ dfs (S fuel) nodeId adj visited.
Proof.
  cbn [dfs].
  assert (nodeId ∈ ({[nodeId]} ∪ visited : gset string)) as H
    by (apply elem_of_union; left; by apply elem_of_singleton).
  revert H. generalize ({[nodeId]} ∪ visited).
  induction (default [] (adj !! nodeId)) as [|nb l IHl]; intros v Hv; [done|].
  cbn [foldl]. apply IHl. case_bool_decide; [done|]. by apply dfs_grows.
Qed.

Lemma count_fold adj (ns : list GraphNode) (visited roots : gset string)
    (count : nat) :
  roots ⊆ visited → size roots = count →
  ∃ roots' : gset string,
    size roots' = (foldl (fun '(visited, count) node =>
                if bool_decide (node_id node ∈ visited) then (visited, count)
                else (dfs (dfsFuel adj) (node_id node) adj visited, S count))
             (visited, count) ns).2
    ∧ roots ⊆ roots'
    ∧ roots' ⊆ roots ∪ list_to_set (node_id <$> ns).
Proof.
  revert visited roots count.
  induction ns as [|n ns IH]; intros visited roots count Hsub Hsize.
  - exists roots. cbn. split; [done|]. split; [done|].
    apply union_subseteq_l.
  - cbn [foldl]. case_bool_decide as Hn.
    + destruct (IH visited roots count Hsub Hsize) as (r' & H1 & H2 & H3).
      exists r'. split; [done|]. split; [done|].
      etransitivity; [exact H3|]. rewrite fmap_cons. cbn [list_to_set].
      intros x [?|?]%elem_of_union; apply elem_of_union; [by left|right].
      apply elem_of_union. by right.
    + destruct (IH (dfs (dfsFuel adj) (node_id n) adj visited)
                  ({[node_id n]} ∪ roots) (S count))
        as (r' & H1 & H2 & H3).
      * intros x [Hx%elem_of_singleton|Hx]%elem_of_union.
        -- subst x. apply dfs_start.
        -- by apply dfs_grows, Hsub.
      * rewrite size_union, size_singleton; [lia|].
        intros x Hx%elem_of_singleton Hr. subst x. by apply Hn, Hsub.
      * exists r'. split; [done|]. split.
        -- etransitivity; [|exact H2]. apply union_subseteq_r.
        -- etransitivity; [exact H3|]. rewrite fmap_cons. cbn [list_to_set].
           intros x [[?|?]%elem_of_union|?]%elem_of_union; apply elem_of_union.
           ++ right. apply elem_of_union. by left.
           ++ by left.
           ++ right. apply elem_of_union. by right.
Qed.

(** X8. The count of the islands is at most the number of distinct node
    identifiers, and it is zero for the graph without nodes only. *)
Theorem countConnectedSubgraphs_bounds (graph : Graph) :
  (countConnectedSubgraphs graph
   ≤ size (list_to_set (C := gset string) (node_id <$> nodes graph)))%nat
  ∧ (countConnectedSubgraphs graph = 0%nat ↔ nodes graph = []).
Proof.
  unfold countConnectedSubgraphs. split.
  - destruct (count_fold (adjacencyList graph) (nodes graph) ∅ ∅ 0)
      as (r & H1 & _ & H3); [done | done |].
    rewrite <- H1. etransitivity; [apply (subseteq_size _ _ H3)|].
    by rewrite (left_id_L ∅ (∪)).
  - split; [|by intros ->].
    destruct (nodes graph) as [|n ns]; [done|]. intros Hzero. exfalso.
    cbn [foldl] in Hzero. rewrite bool_decide_eq_false_2 in Hzero
      by apply not_elem_of_empty.
    destruct (count_fold (adjacencyList graph) ns
                (dfs (dfsFuel (adjacencyList graph)) (node_id n)
                     (adjacencyList graph) ∅) {[node_id n]} 1)
      as (r & H1 & H2 & _).
    + intros x Hx%elem_of_singleton. subst x. apply dfs_start.
    + apply size_singleton.
    + rewrite Hzero in H1. apply size_empty_inv in H1.
      assert (node_id n ∈ r) as Hin by (apply H2; by apply elem_of_singleton).
      rewrite H1 in Hin. by apply not_elem_of_empty in Hin.
Qed.

Lemma count_fold_isolated adj (ns : list GraphNode) (visited : gset string) :
  (∀ n, n ∈ ns → default [] (adj !! node_id n) = []) →
  (foldl (fun '(visited, count) node =>
            if bool_decide (node_id node ∈ visited) then (visited, count)
            else (dfs (dfsFuel adj) (node_id node) adj visited, S count))
         (visited, size visited) ns).2
  = size (visited ∪ list_to_set (node_id <$> ns)).
Proof.
  revert visited. induction ns as [|n ns IH]; intros visited Hadj.
  - cbn. by rewrite (right_id_L ∅ (∪)).
  - cbn [foldl]. rewrite fmap_cons. cbn [list_to_set].
    assert (∀ n, n ∈ ns → default [] (adj !! node_id n) = []) as Hadj'
      by (intros n' Hn'; apply Hadj; by right).
    case_bool_decide as Hn.
    + rewrite IH by done. f_equal. apply set_eq. intros x.
      rewrite !elem_of_union, elem_of_singleton. split; [tauto|].
      intros [?|[->|?]]; tauto.
    + assert (dfs (dfsFuel adj) (node_id n) adj visited
              = {[node_id n]} ∪ visited) as ->.
      { unfold dfsFuel. cbn [dfs]. rewrite Hadj; [done | left]. }
      assert (S (size visited) = size ({[node_id n]} ∪ visited)) as ->.
      { rewrite size_union, size_singleton; [done|].
        intros x Hx%elem_of_singleton. by subst x. }
      rewrite IH by done. f_equal. apply set_eq. intros x.
      rewrite !elem_of_union, elem_of_singleton. tauto.
Qed.

(** X9. Without an edge every pin is an island of its own: a patch whose nets
    have fewer than two endpoints each has as many islands as it has
    distinct pin nodes. *)
Theorem islands_without_edges (patch : PatchData) :
  (∀ net, net ∈ nets patch → (length (connections net) < 2)%nat) →
  subgraphCount (analyzeConnectivity patch)
  = size (list_to_set (C := gset string)
            (node_id <$> (components patch ≫= pinNodes))).
Proof.
  intros Hnets. cbn [analyzeConnectivity subgraphCount].
  unfold countConnectedSubgraphs.
  assert (edges (buildGraph patch) = []) as Hedges.
  { cbn [buildGraph edges]. induction (nets patch) as [|net ns IH]; [done|].
    change ((net :: ns) ≫= ?f) with (f net ++ (ns ≫= f)).
    rewrite IH by (intros n Hn; apply Hnets; by right).
    rewrite app_nil_r. apply length_zero_iff_nil.
    rewrite (proj1 (netEdges_chain net)).
    assert (length (connections net) < 2)%nat by (apply Hnets; left). lia. }
  change (∅, 0%nat) with ((∅ : gset string), size (∅ : gset string)).
  rewrite count_fold_isolated.
  - by rewrite (left_id_L ∅ (∪)).
  - intros n _. rewrite buildGraph_adjacency, Hedges. by case_bool_decide.
Qed.

(** *** The graph and the validation of the patch *)

Lemma elem_of_pinNodes component n :
  n ∈ pinNodes component ↔
  ∃ kv, kv ∈ properties component ∧ startsWith kv.1 "pin_" = true
        ∧ n = {| node_id := underscore (comp_id component) kv.1;
                 node_componentId := comp_id component;
                 node_pinName := kv.1;
                 label := comp_name component +:+ "." +:+ kv.1 |}.
Proof.
  unfold pinNodes. rewrite list_elem_of_bind. split.
  - intros (kv & Hn & Hkv). exists kv. split; [done|].
    destruct (startsWith kv.1 "pin_"); [|by apply elem_of_nil in Hn].
    by apply list_elem_of_singleton in Hn.
  - intros (kv & Hkv & Hpre & ->). exists kv. split; [|done].
    rewrite Hpre. by apply list_elem_of_singleton.
Qed.

(** Every pin that the validation of the patch reports as unconnected is a
    node of the graph, under the component and the pin the report names. *)
Lemma reported_pins_are_nodes (patch : PatchData) (e : PatchValidationError) :
  e ∈ validatePatch patch → severity e = SevError →
  ∃ n, n ∈ nodes (buildGraph patch)
       ∧ err_componentId e = Some (node_componentId n)
       ∧ err_pinId e = Some (node_pinName n).
Proof.
  intros He Hsev.
  apply PatchProps.elem_of_validatePatch in He as [(c & Hc & He)|(n & Hn & He)].
  - apply PatchProps.elem_of_checkComponentPins in He
      as (kv & Hkv & Hpre & _ & ->).
    exists {| node_id := underscore (comp_id c) kv.1;
              node_componentId := comp_id c;
              node_pinName := kv.1;
              label := comp_name c +:+ "." +:+ kv.1 |}.
    split; [|done].
    cbn [buildGraph nodes]. apply list_elem_of_bind. exists c. split; [|done].
    apply elem_of_pinNodes. by exists kv.
  - apply PatchProps.elem_of_checkNet in He as [_ ->]. discriminate Hsev.
Qed.

(** *** The validator *)

(** X10. The two answers of a validator agree: when it reports errors it lists
    an issue, and when it reports none the only issue it can list is the
    warning about isolated subgraphs. *)
Theorem validator_issues (patch : PatchData) :
  (hasErrors (newRealtimeValidator patch) = true →
   getIssues (newRealtimeValidator patch) ≠ [])
  ∧ (hasErrors (newRealtimeValidator patch) = false →
     ∀ issue, issue ∈ getIssues (newRealtimeValidator patch) →
       issue = islandIssue (subgraphCount (analyzeConnectivity patch))).
Proof.
  unfold newRealtimeValidator, validate, hasErrors, getIssues.
  cbn [snd validationState patchData].
  cbn [analyzeConnectivity isFullyConnected unconnectedPins floatingNets
       subgraphCount].
  generalize (countConnectedSubgraphs (buildGraph patch)) as count.
  generalize (findFloatingNets patch) as fs.
  generalize (findUnconnectedPins patch (buildGraph patch)) as ps.
  intros [|p ps] [|f fs] count;
    cbn [length Nat.eqb andb negb fmap list_fmap app]; split; try done.
  intros _ issue Hin. destruct (1 <? count)%nat.
  - by apply list_elem_of_singleton in Hin.
  - by apply elem_of_nil in Hin.
Qed.

Lemma islands_without_edges_witness :
  subgraphCount (analyzeConnectivity loosePatch)
  = size (list_to_set (C := gset string)
            (node_id <$> (components loosePatch ≫= pinNodes))).
Proof.
  apply (islands_without_edges loosePatch).
  intros net [->|Hnone%elem_of_nil]%elem_of_cons; [cbn; lia | done].
Defined.

End ElkLaws.

(** ** lib/patch-extractor.ts *)
Module ExtractorLaws.
Import Js Extractor ExtractorSpec ExtractorProps.

Lemma replaceSpaces_nonempty (r s : string) :
  r ≠ EmptyString → s ≠ EmptyString → replaceSpaces r s ≠ EmptyString.
Proof.
  intros Hr Hs. destruct s as [|c s]; [done|].
  unfold replaceSpaces. cbn [replaceSpacesFrom].
  destruct (isSpace c); [|done]. destruct r as [|c' r]; [done|].
  by rewrite StringFacts.append_cons.
Qed.

Lemma toLowerCase_nonempty (s : string) :
  s ≠ EmptyString → toLowerCase s ≠ EmptyString.
Proof. by destruct s. Qed.

Lemma extracted_names (schematicState : SchematicState)
    (selectedIds : gset string) :
  list_to_set (C := gset string)
    (xc_name <$> (toPatchComponent
                  <$> selectedComponentsOf schematicState selectedIds))
  = selectedComponentNamesOf schematicState selectedIds.
Proof.
  unfold selectedComponentNamesOf. by rewrite <- list_fmap_compose.
Qed.

Lemma bind_nil {A B} (f : A → list B) (l : list A) :
  (∀ x, x ∈ l → f x = []) → l ≫= f = [].
Proof.
  induction l as [|x l IH]; intros H; [done|].
  change ((x :: l) ≫= f) with (f x ++ (l ≫= f)).
  rewrite (H x) by left. apply IH. intros y Hy. apply H. by right.
Qed.

(** X11. A patch that [extractPatchFromSchematic] returns under a name that is
    not empty passes [validateExtractedPatch] with no error. *)
Theorem extraction_validates (created updated : string)
    (schematicState : SchematicState) (selectedIds : gset string)
    (patchName : string) (patch : ExtractedPatch) (warnings : list string) :
  extractPatchFromSchematic created updated schematicState selectedIds patchName
    = Ok (patch, warnings) →
  patchName ≠ EmptyString →
  valid (validateExtractedPatch patch) = true
  ∧ errors (validateExtractedPatch patch) = [].
Proof.
  intros Hextract Hname.
  assert (∀ endpoint, endpoint ∈ patchEndpoints patch →
            beforeDot endpoint
            ∈ selectedComponentNamesOf schematicState selectedIds) as Hends.
  { intros endpoint Hin.
    apply (extracted_endpoints _ _ _ _ _ _ _ endpoint Hextract) in Hin
      as (_ & _ & _ & H). exact H. }
  unfold extractPatchFromSchematic in Hextract.
  destruct (length (selectedComponentsOf schematicState selectedIds) =? 0)%nat
    eqn:Hlen; [done|].
  injection Hextract as <- _.
  assert (errors (validateExtractedPatch
            {| patch_id := replaceSpaces "-" (toLowerCase patchName);
               patch_name := patchName;
               patchComponents :=
                 toPatchComponent
                 <$> selectedComponentsOf schematicState selectedIds;
               nets := internalNets
                         (foldl (loopBody (selectedComponentNamesOf
                                             schematicState selectedIds))
                                loopStart (connections schematicState));
               interfacePins := pins
                         (foldl (loopBody (selectedComponentNamesOf
                                             schematicState selectedIds))
                                loopStart (connections schematicState));
               metadata :=
                 {| xm_version := "1.0"; xm_createdAt := created;
                    xm_updatedAt := updated;
                    xm_description :=
                      "Extracted patch from schematic containing "
                      +:+ ofNat (length (selectedComponentsOf schematicState
                                           selectedIds))
                      +:+ " components" |} |}) = []) as Herrors.
  { unfold validateExtractedPatch, patchEndpoints in *.
    cbn [errors patch_id patch_name patchComponents nets interfacePins] in *.
    rewrite extracted_names.
    rewrite bool_decide_eq_false_2
      by by apply replaceSpaces_nonempty, toLowerCase_nonempty.
    rewrite (bool_decide_eq_false_2 _ Hname). cbn [orb app].
    rewrite length_fmap, Hlen. cbn [app].
    rewrite !bind_nil; [done| |].
    - intros pin Hpin. rewrite bool_decide_eq_true_2; [done|].
      apply Hends, elem_of_app. right. by apply list_elem_of_fmap_2.
    - intros n Hn. apply bind_nil. intros connection Hc.
      rewrite bool_decide_eq_true_2; [done|].
      apply Hends, elem_of_app. left. apply list_elem_of_bind. by exists n. }
  split; [|exact Herrors].
  unfold validateExtractedPatch in *. cbn [valid errors] in *.
  by rewrite Herrors.
Qed.

Lemma filter_all {A} (f : A → bool) (l : list A) :
  length (List.filter (fun x => negb (f x)) l) = 0%nat → List.filter f l = l.
Proof.
  induction l as [|x l IH]; [done|]. cbn [List.filter].
  destruct (f x); cbn [negb length]; [|done]. intros H. by rewrite IH.
Qed.

Lemma filter_some {A} (f : A → bool) (l : list A) :
  (0 < length (List.filter f l))%nat → ∃ x, x ∈ l ∧ f x = true.
Proof.
  destruct (List.filter f l) as [|x k] eqn:Hf; cbn [length]; [lia|].
  intros _. assert (In x (List.filter f l)) as Hin by (rewrite Hf; by left).
  apply filter_In in Hin as [Hin Hx]. exists x.
  split; [by apply list_elem_of_In | done].
Qed.

Lemma elem_of_pushedNets names conn n :
  n ∈ pushedNets names conn →
  xn_id n = conn_id conn ∧ xn_name n = net conn
  ∧ xn_connections n = conn_connections conn
  ∧ conn_connections conn ≠ [].
Proof.
  unfold pushedNets.
  destruct (length (externalEndpoints names conn) =? 0)%nat eqn:Hext;
    [|by intros ?%elem_of_nil].
  destruct (0 <? length (selectedEndpoints names conn))%nat eqn:Hsel;
    [|by intros ?%elem_of_nil].
  cbn [andb]. intros ->%list_elem_of_singleton. cbn.
  apply Nat.eqb_eq in Hext. apply Nat.ltb_lt in Hsel.
  unfold selectedEndpoints, externalEndpoints in *.
  rewrite (filter_all _ _ Hext) in Hsel |- *.
  repeat split. intros Hnil. rewrite Hnil in Hsel. cbn in Hsel. lia.
Qed.

Lemma elem_of_pushedPins names conn p :
  p ∈ pushedPins names conn →
  xp_net p = net conn
  ∧ xp_name p ∈ conn_connections conn
  ∧ beforeDot (xp_name p) ∈ names
  ∧ ∃ outside, outside ∈ conn_connections conn ∧ beforeDot outside ∉ names.
Proof.
  unfold pushedPins.
  destruct (0 <? length (selectedEndpoints names conn))%nat;
    [|by intros ?%elem_of_nil].
  destruct (0 <? length (externalEndpoints names conn))%nat eqn:Hext;
    [|by intros ?%elem_of_nil].
  cbn [andb]. intros (endpoint & -> & Hin)%list_elem_of_fmap. cbn.
  apply elem_of_selectedEndpoints in Hin as [Hin Hsel].
  split; [done|]. split; [done|]. split; [done|].
  apply Nat.ltb_lt, filter_some in Hext as (outside & Hout & Hneg).
  exists outside. split; [done|].
  unfold isSelected in Hneg. apply negb_true_iff in Hneg.
  by apply bool_decide_eq_false in Hneg.
Qed.

(** X12. Where the nets and the interface pins of an extracted patch come from.
    A net stands for a record of the diagram all of whose endpoints belong
    to selected components, and carries the whole endpoint list of that
    record; an interface pin is an endpoint of a selected component in a
    record that also has an endpoint outside the selection. *)
Theorem extracted_nets_and_pins (created updated : string)
    (schematicState : SchematicState) (selectedIds : gset string)
    (patchName : string) (patch : ExtractedPatch) (warnings : list string) :
  extractPatchFromSchematic created updated schematicState selectedIds patchName
    = Ok (patch, warnings) →
  (∀ n, n ∈ nets patch →
     ∃ conn, conn ∈ connections schematicState
             ∧ xn_id n = conn_id conn ∧ xn_name n = net conn
             ∧ xn_connections n = conn_connections conn
             ∧ conn_connections conn ≠ [])
  ∧ (∀ p, p ∈ interfacePins patch →
       ∃ conn, conn ∈ connections schematicState
               ∧ xp_net p = net conn
               ∧ xp_name p ∈ conn_connections conn
               ∧ beforeDot (xp_name p)
                   ∈ selectedComponentNamesOf schematicState selectedIds
               ∧ ∃ outside,
                   outside ∈ conn_connections conn
                   ∧ beforeDot outside
                       ∉ selectedComponentNamesOf schematicState selectedIds).
Proof.
  intros Hextract. unfold extractPatchFromSchematic in Hextract.
  destruct (length (selectedComponentsOf schematicState selectedIds) =? 0)%nat;
    [done|].
  injection Hextract as <- _. cbn [nets interfacePins].
  destruct (loop_unrolled (selectedComponentNamesOf schematicState selectedIds)
              (connections schematicState) loopStart) as [-> ->].
  cbn [loopStart internalNets pins processedNets app]. split.
  - intros n (conn & Hn & Hconn)%list_elem_of_bind.
    exists conn. split; [by eapply firstById_subset|].
    by eapply elem_of_pushedNets.
  - intros p (conn & Hp & Hconn)%list_elem_of_bind.
    exists conn. split; [by eapply firstById_subset|].
    by eapply elem_of_pushedPins.
Qed.

Lemma firstById_ids seen l :
  NoDup (conn_id <$> firstById seen l)
  ∧ ∀ conn, conn ∈ firstById seen l → conn_id conn ∉ seen.
Proof.
  revert seen. induction l as [|c l IH]; intros seen.
  - split; [constructor | by intros ? ?%elem_of_nil].
  - cbn [firstById]. case_bool_decide as Hc; [apply IH|].
    destruct (IH ({[conn_id c]} ∪ seen)) as [Hnd Hout].
    split.
    + rewrite fmap_cons. apply NoDup_cons. split; [|done].
      intros (conn & Heq & Hin)%list_elem_of_fmap.
      apply (Hout conn Hin), elem_of_union. left.
      by apply elem_of_singleton.
    + intros conn [->|Hin]%elem_of_cons; [done|].
      intros Hseen. apply (Hout conn Hin), elem_of_union. by right.
Qed.

Lemma pushedNets_ids names (l : list SchematicConnection) :
  NoDup (conn_id <$> l) → NoDup (xn_id <$> (l ≫= pushedNets names)).
Proof.
  induction l as [|c l IH]; [constructor|].
  rewrite fmap_cons. intros [Hc Hnd]%NoDup_cons.
  change ((c :: l) ≫= ?f) with (f c ++ (l ≫= f)). rewrite fmap_app.
  assert (∀ x, x ∈ xn_id <$> (l ≫= pushedNets names) → x ∈ conn_id <$> l)
    as Hsub.
  { intros x (n & -> & (conn & Hn & Hconn)%list_elem_of_bind)%list_elem_of_fmap.
    apply elem_of_pushedNets in Hn as (-> & _).
    by apply list_elem_of_fmap_2. }
  unfold pushedNets at 1.
  destruct (_ && _); [|by apply IH].
  cbn. apply NoDup_cons. split; [|by apply IH].
  intros Hin. by apply Hc, Hsub.
Qed.

(** X13. The nets of an extracted patch have pairwise distinct identifiers,
    whatever identifiers the records of the diagram carry. *)
Theorem extracted_net_ids_distinct (created updated : string)
    (schematicState : SchematicState) (selectedIds : gset string)
    (patchName : string) (patch : ExtractedPatch) (warnings : list string) :
  extractPatchFromSchematic created updated schematicState selectedIds patchName
    = Ok (patch, warnings) →
  NoDup (xn_id <$> nets patch).
Proof.
  intros Hextract. unfold extractPatchFromSchematic in Hextract.
  destruct (length (selectedComponentsOf schematicState selectedIds) =? 0)%nat;
    [done|].
  injection Hextract as <- _. cbn [nets].
  destruct (loop_unrolled (selectedComponentNamesOf schematicState selectedIds)
              (connections schematicState) loopStart) as [-> _].
  cbn [loopStart internalNets processedNets app].
  apply pushedNets_ids, firstById_ids.
Qed.

Lemma extraction_validates_witness :
  valid (validateExtractedPatch abPatch) = true
  ∧ errors (validateExtractedPatch abPatch) = [].
Proof.
  apply (extraction_validates "t1" "t2" abcDiagram {[ "a"; "b" ]} "My Patch"
           abPatch []).
  - vm_compute. reflexivity.
  - discriminate.
Defined.

Lemma extracted_nets_and_pins_witness :
  ∃ conn, conn ∈ connections abcDiagram
          ∧ xp_net {| xp_name := "B.2"; xp_net := Some "N2" |} = net conn
          ∧ xp_name {| xp_name := "B.2"; xp_net := Some "N2" |}
              ∈ conn_connections conn
          ∧ beforeDot (xp_name {| xp_name := "B.2"; xp_net := Some "N2" |})
              ∈ selectedComponentNamesOf abcDiagram {[ "a"; "b" ]}
          ∧ ∃ outside,
              outside ∈ conn_connections conn
              ∧ beforeDot outside
                  ∉ selectedComponentNamesOf abcDiagram {[ "a"; "b" ]}.
Proof.
  assert (extractPatchFromSchematic "t1" "t2" abcDiagram {[ "a"; "b" ]}
            "My Patch" = Ok (abPatch, [])) as Hextract
    by (vm_compute; reflexivity).
  refine (proj2 (extracted_nets_and_pins "t1" "t2" abcDiagram {[ "a"; "b" ]}
                   "My Patch" abPatch [] Hextract)
            {| xp_name := "B.2"; xp_net := Some "N2" |} _).
  left.
Defined.

Lemma extracted_net_ids_distinct_witness :
  NoDup (xn_id <$> nets repeatedIdPatch).
Proof.
  apply (extracted_net_ids_distinct "t1" "t2" repeatedIdDiagram
           {[ "a"; "b" ]} "My Patch" repeatedIdPatch []).
  vm_compute. reflexivity.
Defined.

End ExtractorLaws.

(** ** lib/patch-api-client.ts *)
Module InserterLaws.
Import Js Extractor Inserter InserterSpec InserterProps.

Lemma shifted_add (c o : Z) : shifted c o = (c + o)%Z.
Proof. unfold shifted. destruct (Z.eqb_spec c 0); [by subst | done]. Qed.

(** X14. [onInsertPatch] keeps the diagram and adds to it: the components and
    the connections of the diagram come first, unchanged, and the components
    of the patch follow in their order, each under its name and type and
    moved by 80 along both axes, a coordinate of zero included. *)
Theorem onInsertPatch_places (clock : nat → N) (tick : nat)
    (patch : Patch.PatchData) (prev : SchematicState) :
  take (length (components prev))
       (components (onInsertPatch clock tick patch prev).1)
  = components prev
  ∧ (fun c => (sc_name c, sc_type c, sc_x c, sc_y c))
    <$> drop (length (components prev))
             (components (onInsertPatch clock tick patch prev).1)
    = (fun comp => (Patch.comp_name comp, Patch.comp_type comp,
                    (Patch.pos_x (Patch.position comp) + 80)%Z,
                    (Patch.pos_y (Patch.position comp) + 80)%Z))
      <$> Patch.components patch
  ∧ take (length (connections prev))
         (connections (onInsertPatch clock tick patch prev).1)
    = connections prev
  ∧ length (connections (onInsertPatch clock tick patch prev).1)
    = (length (connections prev) + length (Patch.nets patch))%nat.
Proof.
  cbn [onInsertPatch fst components connections].
  rewrite !take_app_length, drop_app_length, length_app.
  split; [done|]. split; [|split; [done|]].
  - unfold newComponentsAt. rewrite fmap_imap.
    generalize tick. induction (Patch.components patch) as [|comp l IH];
      intros k; [done|].
    rewrite imap_cons, fmap_cons. f_equal.
    + cbn. by rewrite !shifted_add.
    + rewrite <- (IH (S k)). apply imap_ext. by intros i c _.
  - unfold newConnectionsAt. by rewrite length_imap.
Qed.

Lemma stamped_nonempty (ident : string) (now : N) :
  ∃ c rest, stamped ident now = String c rest.
Proof.
  unfold stamped. destruct ident as [|c ident].
  - rewrite StringFacts.append_nil_l.
    change ("-" +:+ ofN now) with (String "-"%char (ofN now)). by eexists _, _.
  - rewrite StringFacts.append_cons. by eexists _, _.
Qed.

Lemma find_new (clock : nat → N) (nm : string)
    (l : list Patch.PatchComponent) (tick : nat) :
  findIdByName (imap (fun i comp => newComponent (clock (tick + i)) comp) l) nm
  = (fun hit => stamped (Patch.comp_id hit.2) (clock (tick + hit.1)))
    <$> list_find (fun comp => Patch.comp_name comp = nm) l.
Proof.
  unfold findIdByName. revert tick.
  induction l as [|comp l IH]; intros tick; [done|].
  rewrite imap_cons. cbn [List.find list_find newComponent sc_name].
  destruct (decide (Patch.comp_name comp = nm)) as [Heq|Hne].
  - rewrite bool_decide_eq_true_2 by done. cbn. by rewrite Nat.add_0_r.
  - rewrite bool_decide_eq_false_2 by done.
    rewrite (imap_ext _ (fun i comp => newComponent (clock (S tick + i)) comp))
      by (intros i c _; cbn; by rewrite Nat.add_succ_r).
    rewrite IH. destruct (list_find _ l) as [[i c]|]; [|done].
    cbn. by rewrite Nat.add_succ_r.
Qed.

(** X15. How the endpoints of an inserted net are rewritten. An endpoint is
    matched against the names of the components of the patch: when its
    [componentId] is the name of a component, it is rewritten to the new
    identifier of the first such component; when it is the name of none, it
    is copied as it stands, whether it is the identifier of a component of
    the patch or not. *)
Theorem inserted_endpoints (clock : nat → N) (tick : nat)
    (patch : Patch.PatchData) (conn : Patch.Connection) :
  remap (newComponentsAt clock tick patch) conn
  = match list_find (fun comp => Patch.comp_name comp = Patch.componentId conn)
                    (Patch.components patch) with
    | Some (i, comp) =>
        stamped (Patch.comp_id comp) (clock (tick + i))
        +:+ "." +:+ Patch.pinName conn
    | None => Patch.componentId conn +:+ "." +:+ Patch.pinName conn
    end.
Proof.
  unfold remap, newComponentsAt. rewrite find_new.
  destruct (list_find _ (Patch.components patch)) as [[i comp]|]; [|done].
  cbn [fmap option_fmap option_map fst snd].
  by destruct (stamped_nonempty (Patch.comp_id comp) (clock (tick + i)))
    as (c & rest & ->).
Qed.

(** X16. A second shift-click on the same component undoes the first: the
    selection is what it was before the two clicks. *)
Theorem shift_click_twice (component : SchematicComponent)
    (selectedComponentIds : gset string) :
  handleCanvasClick true (Some component)
    (handleCanvasClick true (Some component) selectedComponentIds)
  = selectedComponentIds.
Proof.
  cbn [handleCanvasClick].
  destruct (decide (sc_id component ∈ selectedComponentIds)) as [Hin|Hin].
  - rewrite (bool_decide_eq_true_2 _ Hin).
    rewrite bool_decide_eq_false_2
      by (intros [_ H]%elem_of_difference; apply H; by apply elem_of_singleton).
    apply set_eq. intros x.
    rewrite elem_of_union, elem_of_difference, elem_of_singleton. split.
    + intros [->|[? _]]; done.
    + intros Hx. destruct (decide (x = sc_id component)); [by left | by right].
  - rewrite (bool_decide_eq_false_2 _ Hin).
    rewrite bool_decide_eq_true_2
      by (apply elem_of_union; left; by apply elem_of_singleton).
    apply set_eq. intros x.
    rewrite elem_of_difference, elem_of_union, elem_of_singleton. split.
    + intros [[->|?] ?]; done.
    + intros Hx. split; [by right|]. intros ->. done.
Qed.

End InserterLaws.

(** ** lib/patch-manager.ts *)
Module ManagerLaws.
Import Js Patch Manager StringSpec StringFacts InserterSpec ManagerSpec ManagerProps
  StringLaws.

Section Store.
Variable config : PatchStorageConfig.
Variable pathJoin : string → string → string.
Variable writeError : string → option string.
Variable clock : nat → N.
Variable toISOString : N → string.

Abbreviation savePatch :=
  (savePatch config pathJoin writeError clock toISOString).
Abbreviation deletePatch := (deletePatch config pathJoin writeError clock).
Abbreviation exportPatch := (exportPatch config pathJoin writeError).
Abbreviation importPatch :=
  (importPatch config pathJoin writeError clock toISOString).
Abbreviation loadPatch := (loadPatch clock toISOString).
Abbreviation validatePatchId := (validatePatchId clock toISOString).
Abbreviation indexPath := (indexPath config pathJoin).
Abbreviation newPatchManager := (newPatchManager config pathJoin).

(** The world a call of [savePatch] that returns leaves. *)
Lemma savePatch_exact (w : World) (r : nat) (filename : option string)
    (saved : string) :
  (savePatch r filename w).1 = Ok saved →
  let now := toISOString (clock (ticks w)) in
  let patch := withModifiedAt now (heap w r) in
  let nm := fileNameFor filename patch in
  let path := pathJoin (patchDir config) nm in
  let backupPath :=
    pathJoin (backupDir config)
      (nm +:+ "." +:+ ofN (clock (S (ticks w))) +:+ ".backup") in
  let kept := match fs w !! path with
              | Some content => <[backupPath := content]> (fs w)
              | None => fs w
              end in
  let t := match fs w !! path with
           | Some _ => S (S (ticks w))
           | None => S (ticks w)
           end in
  let index := <[derivedId patch :=
                 {| entry_id := derivedId patch;
                    entry_name := name (metadata patch);
                    filePath := path;
                    entry_metadata := metadata patch;
                    previewSvg := None;
                    lastUsed := Some (toISOString (clock t)) |}]>
               (libraryIndex w) in
  savePatch r filename w
  = (Ok path,
     {| heap := touched now r w;
        allocated := allocated w;
        fs := <[indexPath := IndexFile ((map_to_list index).*2)]>
                (<[path := stringifyPatch patch]> kept);
        libraryIndex := index;
        ticks := S t |}).
Proof.
  intros Hsaved now patch nm path backup kept t index.
  destruct (savePatch_returned _ _ _ _ _ w r filename saved Hsaved)
    as (Hok & Hdir & _).
  rewrite (savePatch_run _ _ _ _ _ w r filename Hok).
  unfold firstWrite in Hdir. subst index t kept.
  change (targetPath config pathJoin w r filename) with path in *.
  change (backupPath config pathJoin clock w r filename) with backup in *.
  destruct (fs w !! path) as [content|] eqn:Hfile.
  - rewrite bool_decide_eq_true_2 in Hdir by by eexists. by rewrite Hdir.
  - rewrite bool_decide_eq_false_2 in Hdir by by intros [? [=]].
    by rewrite Hdir.
Qed.

Lemma savePatch_returns (w : World) (r : nat) (filename : option string)
    (path : string) :
  (savePatch r filename w).1 = Ok path →
  hasErrors (validatePatch (heap w r)) = false.
Proof.
  destruct (hasErrors (validatePatch (heap w r))) eqn:Herr; [|done].
  by rewrite (savePatch_rejected _ _ _ _ _ w r filename Herr).
Qed.

Lemma fileNameFor_withModifiedAt filename now p :
  fileNameFor filename (withModifiedAt now p) = fileNameFor filename p.
Proof. done. Qed.

Lemma derivedId_withModifiedAt now p :
  derivedId (withModifiedAt now p) = derivedId p.
Proof. done. Qed.

(** X17. What [savePatch] does to the files: the file it overwrites is
    kept, with the content it had, in the backup directory under the file
    name and the clock reading; the patch file, the index file and that
    backup apart, no file is touched. *)
Theorem savePatch_files (w : World) (r : nat) (filename : option string)
    (path : string) :
  (savePatch r filename w).1 = Ok path →
  let backupPath :=
    pathJoin (backupDir config)
      (fileNameFor filename (heap w r) +:+ "."
       +:+ ofN (clock (S (ticks w))) +:+ ".backup") in
  (∀ content, fs w !! path = Some content →
     backupPath ≠ path → backupPath ≠ indexPath →
     fs (exec (savePatch r filename) w) !! backupPath = Some content)
  ∧ (∀ q, q ≠ path → q ≠ indexPath → q ≠ backupPath →
       fs (exec (savePatch r filename) w) !! q = fs w !! q).
Proof.
  intros Hsave backupPath.
  pose proof (savePatch_exact w r filename path Hsave) as Hexact.
  cbv zeta in Hexact. unfold exec. rewrite Hexact in Hsave |- *.
  cbn [fst snd fs] in Hsave |- *. injection Hsave as <-.
  rewrite fileNameFor_withModifiedAt. fold backupPath. split.
  - intros content Hfile Hne1 Hne2. rewrite Hfile.
    rewrite !lookup_insert_ne by done. apply lookup_insert_eq.
  - intros q Hq1 Hq2 Hq3. rewrite !lookup_insert_ne by done.
    destruct (fs w !! _); [by rewrite lookup_insert_ne | done].
Qed.

Lemma loadPatch_stored (w : World) (path : string) (p : PatchData) :
  fs w !! path = Some (stringifyPatch p) →
  schemaVersion p ≠ EmptyString →
  loadPatch path w
  = (Ok (allocated w),
     setAllocated (S (allocated w))
       (setHeap (fun r' => if bool_decide (r' = allocated w) then p
                           else heap w r') w)).
Proof.
  intros Hfile Hversion.
  unfold Manager.loadPatch, existsSync, readFileSync, allocPatch, liftOutcome,
    mbind, M_bind, mret, M_ret.
  cbv beta. rewrite Hfile. rewrite bool_decide_eq_true_2 by by eexists.
  cbn [negb]. cbv beta. rewrite Hfile.
  cbn [parsePatchJson stringifyPatch j_metadata].
  destruct (stored_patch_reloads EmptyString EmptyString p Hversion)
    as (json & [= <-] & _ & ->). done.
Qed.

(** X18. What [savePatch] writes, [loadPatch] reads back: loading the returned
    path gives a fresh patch object equal to the saved one, and changes no
    other object, no file and no index entry. *)
Theorem save_then_load (w : World) (r : nat) (filename : option string)
    (path : string) :
  (savePatch r filename w).1 = Ok path →
  schemaVersion (heap w r) ≠ EmptyString →
  path ≠ indexPath →
  ∃ w2, loadPatch path (exec (savePatch r filename) w)
        = (Ok (allocated w), w2)
        ∧ heap w2 (allocated w) = heap (exec (savePatch r filename) w) r
        ∧ (∀ r', r' ≠ allocated w →
             heap w2 r' = heap (exec (savePatch r filename) w) r')
        ∧ fs w2 = fs (exec (savePatch r filename) w)
        ∧ libraryIndex w2 = libraryIndex (exec (savePatch r filename) w).
Proof.
  intros Hsave Hversion Hne.
  pose proof (savePatch_exact w r filename path Hsave) as Hexact.
  cbv zeta in Hexact. unfold exec. rewrite Hexact in Hsave |- *.
  cbn [fst snd] in Hsave |- *. injection Hsave as <-.
  set (patch := withModifiedAt (toISOString (clock (ticks w))) (heap w r)) in *.
  match goal with |- context [loadPatch _ ?w1] => set (w1' := w1) end.
  assert (fs w1' !! pathJoin (patchDir config) (fileNameFor filename patch)
          = Some (stringifyPatch patch)) as Hfile.
  { subst w1'. cbn [fs]. rewrite lookup_insert_ne by done.
    apply lookup_insert_eq. }
  eexists. split; [apply (loadPatch_stored w1' _ patch Hfile Hversion)|].
  subst w1'. cbn [heap fs libraryIndex allocated setAllocated setHeap].
  split; [|split; [|done]].
  - rewrite bool_decide_eq_true_2 by done.
    unfold touched. by rewrite bool_decide_eq_true_2.
  - intros r' Hr'. by rewrite bool_decide_eq_false_2.
Qed.

(** *** The index file *)

Lemma foldl_insert_entries (l : list (string * PatchLibraryEntry))
    (m0 : gmap string PatchLibraryEntry) :
  NoDup l.*1 → (∀ k e, (k, e) ∈ l → entry_id e = k) →
  foldl (fun index entry => <[entry_id entry := entry]> index) m0 l.*2
  = list_to_map l ∪ m0.
Proof.
  revert m0. induction l as [|[k e] l IH]; intros m0 Hnd Hkey.
  - cbn. by rewrite (left_id_L ∅ (∪)).
  - apply NoDup_cons in Hnd as [Hk Hnd]. cbn [fmap list_fmap foldl snd].
    rewrite IH; [|done | intros k' e' Hin; apply Hkey; by right].
    rewrite (Hkey k e) by left. cbn [list_to_map foldr].
    rewrite <- insert_union_l. symmetry. apply insert_union_r.
    by apply not_elem_of_list_to_map_1.
Qed.

Lemma reload_keyed (index : gmap string PatchLibraryEntry) :
  keyed index →
  foldl (fun index entry => <[entry_id entry := entry]> index) ∅
        (map_to_list index).*2
  = index.
Proof.
  intros Hkeyed. rewrite foldl_insert_entries.
  - by rewrite list_to_map_to_list, (right_id_L ∅ (∪)).
  - apply NoDup_fst_map_to_list.
  - intros k e Hin%elem_of_map_to_list. by apply Hkeyed.
Qed.

Lemma newPatchManager_reads objects next files tick index :
  keyed index →
  files !! indexPath = Some (IndexFile ((map_to_list index).*2)) →
  libraryIndex (newPatchManager objects next files tick) = index.
Proof.
  intros Hkeyed Hfile.
  unfold Manager.newPatchManager, exec, loadLibraryIndex, tryCatch, existsSync,
    readFileSync, liftOutcome, indexSetAll, mbind, M_bind, mret, M_ret.
  cbn [fs]. rewrite Hfile. rewrite bool_decide_eq_true_2 by by eexists.
  cbv beta. cbn [fs]. rewrite Hfile. cbn. by apply reload_keyed.
Qed.

Lemma deletePatch_exact (w : World) (patchId : string)
    (entry : PatchLibraryEntry) :
  libraryIndex w !! patchId = Some entry →
  (deletePatch patchId w).1 = Ok true →
  deletePatch patchId w
  = (Ok true,
     {| heap := heap w;
        allocated := allocated w;
        fs := <[indexPath :=
                  IndexFile ((map_to_list (delete patchId (libraryIndex w))).*2)]>
                (match fs w !! filePath entry with
                 | Some content =>
                     <[pathJoin (backupDir config)
                         ("deleted_" +:+ ofN (clock (ticks w)) +:+ "_"
                          +:+ entry_name entry +:+ ".tscircuit") := content]>
                       (fs w)
                 | None => fs w
                 end);
        libraryIndex := delete patchId (libraryIndex w);
        ticks := match fs w !! filePath entry with
                 | Some _ => S (ticks w)
                 | None => ticks w
                 end |}).
Proof.
  intros Hentry. rewrite (deletePatch_run _ _ _ _ w patchId entry Hentry).
  destruct (fs w !! filePath entry) as [content|]; [|done].
  by destruct (refused _ _ _ _ _).
Qed.

(** X19. The index survives a restart: after a [savePatch] that returns or a
    [deletePatch] that returns [true], a manager made anew over the files
    holds the entries the old one held. *)
Theorem index_survives_restart (w : World) (objects : nat → PatchData)
    (next tick : nat) :
  keyed (libraryIndex w) →
  (∀ r filename path,
     (savePatch r filename w).1 = Ok path →
     libraryIndex (newPatchManager objects next
                     (fs (exec (savePatch r filename) w)) tick)
     = libraryIndex (exec (savePatch r filename) w))
  ∧ (∀ patchId,
       (deletePatch patchId w).1 = Ok true →
       libraryIndex (newPatchManager objects next
                       (fs (exec (deletePatch patchId) w)) tick)
       = libraryIndex (exec (deletePatch patchId) w)).
Proof.
  intros Hkeyed. split.
  - intros r filename path Hsave.
    pose proof (preserves_savePatch config pathJoin writeError clock
                  toISOString r filename w Hkeyed) as Hkeyed'.
    revert Hkeyed'. unfold exec.
    rewrite (savePatch_exact w r filename path Hsave).
    cbn [snd fs libraryIndex].
    intros Hkeyed'. apply newPatchManager_reads; [done|].
    apply lookup_insert_eq.
  - intros patchId Hdel.
    pose proof (preserves_deletePatch config pathJoin writeError clock
                  patchId w Hkeyed) as Hkeyed'.
    revert Hkeyed' Hdel. unfold exec.
    destruct (libraryIndex w !! patchId) as [entry|] eqn:Hentry.
    + intros Hkeyed' Hdel. revert Hkeyed'.
      rewrite (deletePatch_exact w patchId entry Hentry Hdel).
      cbn [snd fs libraryIndex]. intros Hkeyed'.
      apply newPatchManager_reads; [done|]. apply lookup_insert_eq.
    + unfold Manager.deletePatch.
      rewrite (bind_ok _ _ w w (libraryIndex w)) by done. rewrite Hentry.
      intros _ [=].
Qed.

(** [deletePatch] is idempotent: after a call that returned [true], and
    for an identifier that the index does not hold, a further call for the
    same identifier returns [false] and changes nothing. *)
Lemma deletePatch_twice (w : World) (patchId : string) :
  (deletePatch patchId w).1 = Ok true ∨ libraryIndex w !! patchId = None →
  deletePatch patchId (exec (deletePatch patchId) w)
  = (Ok false, exec (deletePatch patchId) w).
Proof.
  assert (∀ w', libraryIndex w' !! patchId = None →
                deletePatch patchId w' = (Ok false, w')) as Hnone.
  { intros w' Hentry. unfold Manager.deletePatch.
    rewrite (bind_ok _ _ w' w' (libraryIndex w')) by done. by rewrite Hentry. }
  destruct (libraryIndex w !! patchId) as [entry|] eqn:Hentry.
  - intros [Hdel|[=]]. unfold exec.
    rewrite (deletePatch_exact w patchId entry Hentry Hdel).
    cbn [snd]. apply Hnone. cbn [libraryIndex]. apply lookup_delete_eq.
  - intros _. unfold exec. rewrite (Hnone w Hentry). cbn [snd]. by apply Hnone.
Qed.

(** X20. A patch is saved under an identifier that was free, and that
    identifier is deleted again. The patch file stays where it was
    written. When the file system takes the backup of the deletion, the
    call returns [true] and every identifier of the index has the entry it
    had before the save, as far as the fields go that are the entry's own;
    when it refuses the backup, the call returns [false] and the index
    stays as the save left it. *)
Theorem save_then_delete (w : World) (r : nat) (filename : option string)
    (path : string) :
  (savePatch r filename w).1 = Ok path →
  libraryIndex w !! derivedId (heap w r) = None →
  path ≠ indexPath →
  let w1 := exec (savePatch r filename) w in
  let backup :=
    pathJoin (backupDir config)
      ("deleted_" +:+ ofN (clock (ticks w1)) +:+ "_"
       +:+ name (metadata (heap w r)) +:+ ".tscircuit") in
  let w2 := exec (deletePatch (derivedId (heap w r))) w1 in
  is_Some (fs w2 !! path)
  ∧ match refused config pathJoin writeError backup w1 with
    | None =>
        (deletePatch (derivedId (heap w r)) w1).1 = Ok true
        ∧ ownFields <$> libraryIndex w2 = ownFields <$> libraryIndex w
    | Some _ =>
        (deletePatch (derivedId (heap w r)) w1).1 = Ok false
        ∧ libraryIndex w2 = libraryIndex w1
    end.
Proof.
  intros Hsave Hfree Hne w1 backup w2. subst w2 backup w1.
  pose proof (savePatch_exact w r filename path Hsave) as Hexact.
  cbv zeta in Hexact.
  rewrite Hexact in Hsave. cbn [fst] in Hsave. injection Hsave as Hpath.
  rewrite fileNameFor_withModifiedAt in Hpath.
  assert (∃ entry, libraryIndex (exec (savePatch r filename) w)
                     !! derivedId (heap w r) = Some entry
                   ∧ filePath entry = path
                   ∧ entry_name entry = name (metadata (heap w r)))
    as (entry & He & Hp & Hname).
  { unfold exec. rewrite Hexact. cbn [snd libraryIndex].
    rewrite derivedId_withModifiedAt. eexists. split; [apply lookup_insert_eq|].
    cbn [filePath entry_name]. by rewrite fileNameFor_withModifiedAt. }
  assert (libraryIndex (exec (savePatch r filename) w)
          = <[derivedId (heap w r) := entry]> (libraryIndex w)) as Hindex.
  { revert He. unfold exec. rewrite Hexact. cbn [snd libraryIndex].
    rewrite derivedId_withModifiedAt, lookup_insert_eq. by intros [= <-]. }
  assert (is_Some (fs (exec (savePatch r filename) w) !! path)) as [content Hin].
  { unfold exec. rewrite Hexact. cbn [snd fs].
    rewrite fileNameFor_withModifiedAt, Hpath.
    rewrite lookup_insert_ne by done. rewrite lookup_insert_eq. by eexists. }
  generalize dependent (exec (savePatch r filename) w). intros w1 He Hindex Hin.
  unfold exec. rewrite (deletePatch_run _ _ _ _ w1 _ entry He).
  rewrite Hp, Hin, Hname.
  destruct (refused _ _ _ _ w1); cbn [fst snd fs libraryIndex].
  - split; [by eexists | done].
  - split; [|split; [done|]].
    + rewrite lookup_insert_ne by done.
      apply lookup_insert_is_Some'. right. by eexists.
    + by rewrite Hindex, delete_insert_eq, delete_id.
Qed.

(** *** A saved patch in the other calls *)

Lemma validatePatch_withModifiedAt now p :
  validatePatch (withModifiedAt now p) = validatePatch p.
Proof. done. Qed.

(** The facts about the world a returning [savePatch] leaves that the calls
    below start from. *)
Lemma saved_world (w : World) (r : nat) (filename : option string)
    (path : string) :
  (savePatch r filename w).1 = Ok path →
  path ≠ indexPath →
  heap (exec (savePatch r filename) w) r
  = withModifiedAt (toISOString (clock (ticks w))) (heap w r)
  ∧ allocated (exec (savePatch r filename) w) = allocated w
  ∧ fs (exec (savePatch r filename) w) !! path
    = Some (stringifyPatch (heap (exec (savePatch r filename) w) r))
  ∧ ∃ entry,
      libraryIndex (exec (savePatch r filename) w) !! derivedId (heap w r)
      = Some entry
      ∧ filePath entry = path
      ∧ entry_name entry = name (metadata (heap w r))
      ∧ entry_id entry = derivedId (heap w r).
Proof.
  intros Hsave Hne.
  pose proof (savePatch_exact w r filename path Hsave) as Hexact.
  cbv zeta in Hexact.
  rewrite Hexact in Hsave. cbn [fst] in Hsave. injection Hsave as Hpath.
  unfold exec. rewrite Hexact. cbn [snd heap allocated fs libraryIndex].
  assert (touched (toISOString (clock (ticks w))) r w r
          = withModifiedAt (toISOString (clock (ticks w))) (heap w r)) as ->.
  { unfold touched. by rewrite bool_decide_eq_true_2. }
  split; [done|]. split; [done|]. split.
  - rewrite Hpath. rewrite lookup_insert_ne by done. apply lookup_insert_eq.
  - rewrite derivedId_withModifiedAt. eexists.
    split; [apply lookup_insert_eq|]. by rewrite <- Hpath.
Qed.

(** X21. A saved patch passes [validatePatchId]: the call reloads the file and
    returns the results of the validation of the saved patch, none of which
    is of severity error. *)
Theorem save_then_validate (w : World) (r : nat) (filename : option string)
    (path : string) :
  (savePatch r filename w).1 = Ok path →
  schemaVersion (heap w r) ≠ EmptyString →
  path ≠ indexPath →
  (validatePatchId (derivedId (heap w r)) (exec (savePatch r filename) w)).1
  = Ok (validatePatch (heap w r))
  ∧ hasErrors (validatePatch (heap w r)) = false.
Proof.
  intros Hsave Hversion Hne.
  pose proof (savePatch_returns _ _ _ _ Hsave) as Hok.
  destruct (saved_world w r filename path Hsave Hne)
    as (Hheap & _ & Hfile & entry & He & Hp & _).
  split; [|done].
  generalize dependent (exec (savePatch r filename) w).
  intros w1 Hheap Hfile He. rewrite Hheap in Hfile.
  unfold Manager.validatePatchId.
  rewrite (bind_ok _ _ w1 w1 (libraryIndex w1)) by done. rewrite He, Hp.
  erewrite bind_ok; [|by apply loadPatch_stored].
  unfold readPatch, mbind, M_bind, mret, M_ret.
  cbn [heap setAllocated setHeap fst]. by rewrite bool_decide_eq_true_2.
Qed.

(** X22. A saved patch is exported when the file system takes the write
    at the output path: [exportPatch] under the identifier of the patch
    then returns [true] and writes a copy of the patch file to the output
    path, touching nothing else. When the file system refuses the write,
    the call returns [false] and changes nothing. *)
Theorem save_then_export (w : World) (r : nat) (filename : option string)
    (path outputPath : string) :
  (savePatch r filename w).1 = Ok path →
  path ≠ indexPath →
  let w1 := exec (savePatch r filename) w in
  exportPatch (derivedId (heap w r)) outputPath w1
  = match refused config pathJoin writeError outputPath w1 with
    | None =>
        (Ok true,
         setFs (<[outputPath := stringifyPatch (heap w1 r)]> (fs w1)) w1)
    | Some _ => (Ok false, w1)
    end.
Proof.
  intros Hsave Hne w1. subst w1.
  destruct (saved_world w r filename path Hsave Hne)
    as (_ & _ & Hfile & entry & He & Hp & _).
  generalize dependent (exec (savePatch r filename) w). intros w1 Hfile He.
  unfold Manager.exportPatch.
  rewrite (bind_ok _ _ w1 w1 (libraryIndex w1)) by done. rewrite He, Hp.
  unfold tryCatch, readFileSync, Manager.writeFileSync, mbind, M_bind, mret,
    M_ret.
  rewrite Hfile. by destruct (refused _ _ _ _ w1).
Qed.

(** X23. A saved patch is found by its name, in whatever letter case the name
    is typed: the search returns an entry for the returned path. *)
Theorem save_then_search (w : World) (r : nat) (filename : option string)
    (path query : string) :
  (savePatch r filename w).1 = Ok path →
  path ≠ indexPath →
  toLowerCase query = toLowerCase (name (metadata (heap w r))) →
  ∃ results entry,
    searchPatches query (exec (savePatch r filename) w)
    = (Ok results, exec (savePatch r filename) w)
    ∧ entry ∈ results
    ∧ entry_id entry = derivedId (heap w r)
    ∧ filePath entry = path.
Proof.
  intros Hsave Hne Hquery.
  destruct (saved_world w r filename path Hsave Hne)
    as (_ & _ & _ & entry & He & Hp & Hname & Hid).
  generalize dependent (exec (savePatch r filename) w). intros w1 He.
  eexists _, entry. split; [reflexivity|]. split; [|done].
  apply list_elem_of_In, filter_In. split.
  - apply list_elem_of_In, list_elem_of_fmap. exists (derivedId (heap w r), entry).
    split; [done|]. by apply elem_of_map_to_list.
  - unfold matchesQuery. by rewrite Hquery, Hname, includes_refl.
Qed.

(** *** Imports that fail *)



End Store.

Lemma savePatch_files_witness :
  fs (exec (Manager.savePatch storage slashJoin flatStorage tickingClock isoStamp 0 None)
           afterSave)
    !! slashJoin (backupDir storage)
         (fileNameFor None (heap afterSave 0) +:+ "."
          +:+ ofN (tickingClock (S (ticks afterSave))) +:+ ".backup")
  = Some (stringifyPatch (heap afterSave 0)).
Proof.
  apply (proj1 (savePatch_files storage slashJoin flatStorage tickingClock isoStamp
                  afterSave 0 None savedPath ltac:(vm_compute; reflexivity))).
  - vm_compute. reflexivity.
  - vm_compute. discriminate.
  - vm_compute. discriminate.
Defined.

Lemma save_then_load_witness :
  ∃ w2, Manager.loadPatch tickingClock isoStamp savedPath
          (exec (Manager.savePatch storage slashJoin flatStorage tickingClock isoStamp
                   0 None) accepted)
        = (Ok (allocated accepted), w2)
        ∧ heap w2 (allocated accepted)
          = heap (exec (Manager.savePatch storage slashJoin flatStorage tickingClock
                          isoStamp 0 None) accepted) 0
        ∧ (∀ r', r' ≠ allocated accepted →
             heap w2 r'
             = heap (exec (Manager.savePatch storage slashJoin flatStorage tickingClock
                             isoStamp 0 None) accepted) r')
        ∧ fs w2
          = fs (exec (Manager.savePatch storage slashJoin flatStorage tickingClock
                        isoStamp 0 None) accepted)
        ∧ libraryIndex w2
          = libraryIndex (exec (Manager.savePatch storage slashJoin
                                  flatStorage tickingClock isoStamp 0 None)
                            accepted).
Proof.
  apply (save_then_load storage slashJoin flatStorage tickingClock isoStamp
           accepted 0 None savedPath).
  - vm_compute. reflexivity.
  - vm_compute. discriminate.
  - vm_compute. discriminate.
Defined.

Lemma index_survives_restart_witness :
  libraryIndex (Manager.newPatchManager storage slashJoin
                  (fun _ => PatchSpec.savedTestPatch) 1
                  (fs (exec (Manager.savePatch storage slashJoin flatStorage tickingClock
                               isoStamp 0 None) accepted)) 0)
  = libraryIndex (exec (Manager.savePatch storage slashJoin flatStorage tickingClock
                          isoStamp 0 None) accepted).
Proof.
  apply (proj1 (index_survives_restart storage slashJoin flatStorage tickingClock isoStamp
                  accepted (fun _ => PatchSpec.savedTestPatch) 1 0
                  ltac:(intros k e H; vm_compute in H; discriminate H))
           0 None savedPath).
  vm_compute. reflexivity.
Defined.

Lemma save_then_delete_witness :
  let w1 := exec (Manager.savePatch storage slashJoin flatStorage tickingClock
                    isoStamp 0 None) accepted in
  let backup :=
    slashJoin (backupDir storage)
      ("deleted_" +:+ ofN (tickingClock (ticks w1)) +:+ "_"
       +:+ name (metadata (heap accepted 0)) +:+ ".tscircuit") in
  let w2 := exec (Manager.deletePatch storage slashJoin flatStorage
                    tickingClock (derivedId (heap accepted 0))) w1 in
  is_Some (fs w2 !! savedPath)
  ∧ match refused storage slashJoin flatStorage backup w1 with
    | None =>
        (Manager.deletePatch storage slashJoin flatStorage tickingClock
           (derivedId (heap accepted 0)) w1).1 = Ok true
        ∧ ownFields <$> libraryIndex w2 = ownFields <$> libraryIndex accepted
    | Some _ =>
        (Manager.deletePatch storage slashJoin flatStorage tickingClock
           (derivedId (heap accepted 0)) w1).1 = Ok false
        ∧ libraryIndex w2 = libraryIndex w1
    end.
Proof.
  apply (save_then_delete storage slashJoin flatStorage tickingClock isoStamp
           accepted 0 None savedPath).
  - vm_compute. reflexivity.
  - vm_compute. reflexivity.
  - vm_compute. discriminate.
Defined.

Lemma save_then_validate_witness :
  (Manager.validatePatchId tickingClock isoStamp (derivedId (heap accepted 0))
     (exec (Manager.savePatch storage slashJoin flatStorage tickingClock isoStamp 0 None)
           accepted)).1
  = Ok (validatePatch (heap accepted 0))
  ∧ hasErrors (validatePatch (heap accepted 0)) = false.
Proof.
  apply (save_then_validate storage slashJoin flatStorage tickingClock isoStamp
           accepted 0 None savedPath).
  - vm_compute. reflexivity.
  - vm_compute. discriminate.
  - vm_compute. discriminate.
Defined.

Lemma save_then_export_witness :
  let w1 := exec (Manager.savePatch storage slashJoin flatStorage tickingClock
                    isoStamp 0 None) accepted in
  exportPatch storage slashJoin flatStorage (derivedId (heap accepted 0))
    "./patches/copy.tscircuit" w1
  = match refused storage slashJoin flatStorage
            "./patches/copy.tscircuit" w1 with
    | None =>
        (Ok true,
         setFs (<["./patches/copy.tscircuit" :=
                    stringifyPatch (heap w1 0)]> (fs w1)) w1)
    | Some _ => (Ok false, w1)
    end.
Proof.
  apply (save_then_export storage slashJoin flatStorage tickingClock isoStamp
           accepted 0 None savedPath "./patches/copy.tscircuit").
  - vm_compute. reflexivity.
  - vm_compute. discriminate.
Defined.

(** On the sample store the export to a path in the patch directory
    returns [true], and the export to a path in a directory that does not
    exist returns [false]. *)
Lemma exportPatch_samples :
  let w1 := exec (Manager.savePatch storage slashJoin flatStorage tickingClock
                    isoStamp 0 None) accepted in
  (exportPatch storage slashJoin flatStorage (derivedId (heap accepted 0))
     "./patches/copy.tscircuit" w1).1 = Ok true
  ∧ exportPatch storage slashJoin flatStorage (derivedId (heap accepted 0))
      "./out/copy.tscircuit" w1 = (Ok false, w1).
Proof. split; vm_compute; reflexivity. Qed.

Lemma save_then_search_witness :
  ∃ results entry,
    searchPatches "SAVE test PATCH"
      (exec (Manager.savePatch storage slashJoin flatStorage tickingClock isoStamp 0 None)
            accepted)
    = (Ok results,
       exec (Manager.savePatch storage slashJoin flatStorage tickingClock isoStamp 0 None)
            accepted)
    ∧ entry ∈ results
    ∧ entry_id entry = derivedId (heap accepted 0)
    ∧ filePath entry = savedPath.
Proof.
  apply (save_then_search storage slashJoin flatStorage tickingClock isoStamp
           accepted 0 None savedPath "SAVE test PATCH").
  - vm_compute. reflexivity.
  - vm_compute. discriminate.
  - vm_compute. reflexivity.
Defined.


End ManagerLaws.

(** ** lib/project-manager.ts *)
Module ProjectLaws.
Import Js Project InserterSpec ManagerSpec ProjectTerms.

Lemma elem_of_removeFirst x y l :
  x ∈ removeFirst y l → x ∈ l.
Proof.
  induction l as [|z l IH]; cbn [removeFirst]; [done|].
  case_bool_decide; [by right|].
  intros [->|?]%elem_of_cons; [left | right; by apply IH].
Qed.

Lemma removeFirst_keeps x y l :
  x ∈ l → x ≠ y → x ∈ removeFirst y l.
Proof.
  induction l as [|z l IH]; cbn [removeFirst]; [done|].
  intros [->|Hin]%elem_of_cons Hne.
  - rewrite bool_decide_eq_false_2 by done. left.
  - case_bool_decide; [done|]. right. by apply IH.
Qed.

Lemma removeFirst_NoDup y l : NoDup l → NoDup (removeFirst y l).
Proof.
  induction l as [|z l IH]; cbn [removeFirst]; [done|].
  intros [Hz Hnd]%NoDup_cons. case_bool_decide; [done|].
  apply NoDup_cons. split; [|by apply IH].
  intros Hin. by apply Hz, (elem_of_removeFirst _ y).
Qed.

Lemma removeFirst_gone y l : NoDup l → y ∉ removeFirst y l.
Proof.
  induction l as [|z l IH]; cbn [removeFirst]; [by intros _ ?%elem_of_nil|].
  intros [Hz Hnd]%NoDup_cons. case_bool_decide as Heq; [by subst|].
  intros [->|Hin]%elem_of_cons; [done | by apply IH].
Qed.

Lemma removeFirst_snoc y l : y ∉ l → removeFirst y (l ++ [y]) = l.
Proof.
  induction l as [|z l IH]; intros Hy; cbn [removeFirst app].
  - by rewrite bool_decide_eq_true_2.
  - rewrite bool_decide_eq_false_2 by (intros ->; apply Hy; left).
    rewrite IH; [done|]. intros Hin. apply Hy. by right.
Qed.

Section Clock.
Variable clock : nat → N.
Variable toISOString : N → string.

Abbreviation createProject := (createProject clock toISOString).
Abbreviation saveProjectManifest := (saveProjectManifest clock toISOString).
Abbreviation addPatchFile := (addPatchFile clock toISOString).
Abbreviation removePatchFile := (removePatchFile clock toISOString).
Abbreviation apply := (apply clock toISOString).
Abbreviation reached := (projectAfter clock toISOString).

Lemma wellFiled_save pm : wellFiled pm → wellFiled (saveProjectManifest pm).2.
Proof.
  intros (m & Hm & Hnd & Hfiles & Hinj). unfold Project.saveProjectManifest.
  rewrite Hm. cbn. eexists. split; [reflexivity|]. by cbn.
Qed.

Lemma wellFiled_add patchPath patchName pm :
  wellFiled pm → wellFiled (addPatchFile patchPath patchName pm).
Proof.
  intros Hwell. pose proof Hwell as (m & Hm & Hnd & Hfiles & Hinj).
  unfold Project.addPatchFile. rewrite Hm.
  case_bool_decide as Hin; [done|].
  apply wellFiled_save. eexists. split; [reflexivity|].
  cbn [manifest fileIndex patches withPatches]. split; [|split].
  - apply NoDup_app. split; [done|]. split; [|apply NoDup_singleton].
    intros x Hx ->%list_elem_of_singleton. done.
  - intros nm f. rewrite lookup_insert. case_decide as Heq.
    + intros [= <-]. cbn. split; [|done]. apply elem_of_app. right. left.
    + intros Hf. destruct (Hfiles nm f Hf) as (Hp & Hn & Ht).
      split; [|done]. apply elem_of_app. by left.
  - intros n1 n2 f1 f2. rewrite !lookup_insert.
    case_decide as H1; case_decide as H2.
    + congruence.
    + intros [= <-] Hf2 Hpath. cbn in Hpath. exfalso. apply Hin.
      rewrite Hpath. by apply (Hfiles n2 f2).
    + intros Hf1 [= <-] Hpath. cbn in Hpath. exfalso. apply Hin.
      rewrite <- Hpath. by apply (Hfiles n1 f1).
    + apply Hinj.
Qed.

Lemma wellFiled_remove patchName pm :
  wellFiled pm → wellFiled (removePatchFile patchName pm).2.
Proof.
  intros Hwell. pose proof Hwell as (m & Hm & Hnd & Hfiles & Hinj).
  unfold Project.removePatchFile. rewrite Hm.
  destruct (fileIndex pm !! patchName) as [file|] eqn:Hfile; [|done].
  case_bool_decide as Hin; [|done]. cbn [snd].
  apply wellFiled_save. eexists. split; [reflexivity|].
  cbn [manifest fileIndex patches withPatches]. split; [|split].
  - by apply removeFirst_NoDup.
  - intros nm f. rewrite lookup_delete. case_decide as Heq; [done|].
    intros Hf. destruct (Hfiles nm f Hf) as (Hp & Hn & Ht).
    split; [|done]. apply removeFirst_keeps; [done|].
    intros Hpath. apply Heq. symmetry. by apply (Hinj nm patchName f file).
  - intros n1 n2 f1 f2. rewrite !lookup_delete.
    case_decide; [done|]. case_decide; [done|]. apply Hinj.
Qed.

Lemma wellFiled_after rootDir tick nm mainFileName edits :
  wellFiled (reached rootDir tick nm mainFileName edits).
Proof.
  unfold projectAfter.
  assert (wellFiled (createProject nm mainFileName
                       (newProjectManager rootDir tick)).2) as Hstart.
  { eexists. split; [reflexivity|]. cbn. split; [constructor|].
    split; intros ? ?; by rewrite ?lookup_empty. }
  revert Hstart. generalize (createProject nm mainFileName
                               (newProjectManager rootDir tick)).2.
  induction edits as [|e edits IH]; intros pm Hpm; [done|].
  cbn [foldl]. apply IH. destruct e; cbn [Project.apply].
  - by apply wellFiled_add.
  - by apply wellFiled_remove.
  - by apply wellFiled_save.
Qed.

(** X25. Whatever patch files are added to and removed from a new project, in
    whatever order, the patch files stay filed well. *)
Theorem project_files_invariant (rootDir : string) (tick : nat)
    (nm mainFileName : string) (edits : list Edit) :
  wellFiled (reached rootDir tick nm mainFileName edits).
Proof. apply wellFiled_after. Qed.

(** X26. In a project made by [createProject] and changed by edits only,
    [removePatchFile] returns [true] exactly for the names that are filed,
    and it then takes the name out of the index and the path of the file
    out of the manifest. *)
Theorem removePatchFile_succeeds (rootDir : string) (tick : nat)
    (nm mainFileName : string) (edits : list Edit) (patchName : string) :
  ((removePatchFile patchName
      (reached rootDir tick nm mainFileName edits)).1 = true
   ↔ is_Some (fileIndex (reached rootDir tick nm mainFileName edits)
              !! patchName))
  ∧ (∀ file,
       fileIndex (reached rootDir tick nm mainFileName edits) !! patchName
       = Some file →
       fileIndex (removePatchFile patchName
                    (reached rootDir tick nm mainFileName edits)).2
         !! patchName = None
       ∧ ∃ m, manifest (removePatchFile patchName
                          (reached rootDir tick nm mainFileName edits)).2
              = Some m
              ∧ path file ∉ patches m).
Proof.
  pose proof (wellFiled_after rootDir tick nm mainFileName edits)
    as (m & Hm & Hnd & Hfiles & Hinj).
  generalize dependent (reached rootDir tick nm mainFileName edits).
  intros pm Hm Hfiles Hinj. unfold Project.removePatchFile. rewrite Hm.
  destruct (fileIndex pm !! patchName) as [file|] eqn:Hfile.
  - rewrite bool_decide_eq_true_2 by by apply (Hfiles patchName file).
    cbn [fst snd Project.saveProjectManifest manifest fileIndex].
    split; [split; [by eexists | done]|].
    intros ? [= <-]. split; [apply lookup_delete_eq|].
    eexists. split; [reflexivity|]. cbn. by apply removeFirst_gone.
  - cbn. split; [|done]. split; [done | by intros [? [=]]].
Qed.

(** X27. A patch file that is added and removed again leaves the patch paths of
    the manifest and the file index as they were. *)
Theorem add_then_remove (pm : ProjectManager) (m : ProjectManifest)
    (patchPath patchName : string) :
  manifest pm = Some m →
  patchPath ∉ patches m →
  fileIndex pm !! patchName = None →
  (removePatchFile patchName (addPatchFile patchPath patchName pm)).1 = true
  ∧ fileIndex (removePatchFile patchName
                 (addPatchFile patchPath patchName pm)).2
    = fileIndex pm
  ∧ patches <$> manifest (removePatchFile patchName
                            (addPatchFile patchPath patchName pm)).2
    = Some (patches m).
Proof.
  intros Hm Hpath Hname. unfold Project.addPatchFile. rewrite Hm.
  rewrite bool_decide_eq_false_2 by done.
  cbn [Project.saveProjectManifest manifest snd].
  unfold Project.removePatchFile.
  cbn [manifest fileIndex]. rewrite lookup_insert_eq. cbn [path patches withModified withPatches].
  rewrite bool_decide_eq_true_2 by (apply elem_of_app; right; left).
  cbn [fst snd Project.saveProjectManifest manifest fileIndex].
  split; [done|]. split.
  - rewrite delete_insert_eq. by apply delete_id.
  - cbn. by rewrite removeFirst_snoc.
Qed.

(** *** [VersionControlSystem] *)

Abbreviation createSnapshot := (createSnapshot clock toISOString).

Lemma versionsOf_insert patchId other l v :
  default [] (<[patchId := l]> (versions v) !! other)
  = if bool_decide (other = patchId) then l else versionsOf other v.
Proof.
  unfold versionsOf. case_bool_decide as Heq.
  - subst. by rewrite lookup_insert_eq.
  - by rewrite lookup_insert_ne.
Qed.

(** X28. [cleanupOldVersions] keeps the latest versions: for a count that is not
    negative the versions of the patch become the last [keepCount] of them,
    all of them when there are fewer; the number returned is the number of
    versions that went; the versions of the other patches stay; and a second
    call removes nothing. *)
Theorem cleanupOldVersions_keeps_latest (patchId : string) (keepCount : Z)
    (v : VersionControlSystem) :
  (0 ≤ keepCount)%Z →
  getVersions patchId (cleanupOldVersions patchId keepCount v).2
  = drop (length (getVersions patchId v) - Z.to_nat keepCount)
         (getVersions patchId v)
  ∧ (cleanupOldVersions patchId keepCount v).1
    = (Z.of_nat (length (getVersions patchId v))
       - Z.of_nat (length (getVersions patchId
                             (cleanupOldVersions patchId keepCount v).2)))%Z
  ∧ (∀ other, other ≠ patchId →
       getVersions other (cleanupOldVersions patchId keepCount v).2
       = getVersions other v)
  ∧ cleanupOldVersions patchId keepCount
      (cleanupOldVersions patchId keepCount v).2
    = (0%Z, (cleanupOldVersions patchId keepCount v).2).
Proof.
  intros Hkeep.
  assert (∀ v', cleanupOldVersions patchId keepCount v'
                = if (Z.to_nat keepCount <? length (versionsOf patchId v'))%nat
                  then (Z.of_nat (length (versionsOf patchId v')
                                  - Z.to_nat keepCount),
                        {| vcs_root := vcs_root v';
                           versions :=
                             <[patchId := drop (length (versionsOf patchId v')
                                                - Z.to_nat keepCount)
                                               (versionsOf patchId v')]>
                               (versions v');
                           vcs_readings := vcs_readings v' |})
                  else (0%Z, v')) as Hexact.
  { intros v'. unfold cleanupOldVersions.
    destruct (Z.ltb_spec 0 (Z.max 0 (Z.of_nat (length (versionsOf patchId v'))
                                     - keepCount))) as [Hpos|Hnone];
      destruct (Nat.ltb_spec (Z.to_nat keepCount)
                  (length (versionsOf patchId v'))) as [Hlt|Hge]; try lia.
    - f_equal; [lia|]. do 3 f_equal. lia.
    - f_equal. lia. }
  unfold getVersions. rewrite (Hexact v).
  destruct (Nat.ltb_spec (Z.to_nat keepCount) (length (versionsOf patchId v)))
    as [Hlt|Hge]; cbn [fst snd].
  - set (vs := versionsOf patchId v) in *.
    assert (∀ other,
              versionsOf other
                {| vcs_root := vcs_root v;
                   versions := <[patchId := drop (length vs - Z.to_nat keepCount)
                                                 vs]> (versions v);
                   vcs_readings := vcs_readings v |}
              = if bool_decide (other = patchId)
                then drop (length vs - Z.to_nat keepCount) vs
                else versionsOf other v) as Hafter.
    { intros other. unfold versionsOf at 1. cbn [versions].
      apply versionsOf_insert. }
    rewrite Hafter, bool_decide_eq_true_2 by done.
    split; [done|]. split; [rewrite length_drop; lia|]. split.
    + intros other Hother. by rewrite Hafter, bool_decide_eq_false_2.
    + rewrite Hexact, Hafter, bool_decide_eq_true_2 by done.
      rewrite length_drop.
      destruct (Nat.ltb_spec (Z.to_nat keepCount)
                  (length vs - (length vs - Z.to_nat keepCount))); [lia|done].
  - assert ((length (versionsOf patchId v) - Z.to_nat keepCount)%nat = 0%nat)
      as -> by lia.
    rewrite drop_0. split; [done|]. split; [lia|]. split; [done|].
    rewrite Hexact.
    by destruct (Nat.ltb_spec (Z.to_nat keepCount)
                   (length (versionsOf patchId v))); [lia|].
Qed.

(** X29. A snapshot can be restored as soon as it is made and as long as a
    cleanup keeps one version at least: it is the last version of its
    patch, the earlier versions can still be restored, and it survives
    [cleanupOldVersions] for every count of one or more. *)
Theorem snapshot_restorable (patchId patchContent : string)
    (v : VersionControlSystem) :
  restoreVersion patchId (createSnapshot patchId patchContent v).1
    (createSnapshot patchId patchContent v).2 = true
  ∧ getVersions patchId (createSnapshot patchId patchContent v).2
    = getVersions patchId v ++ [(createSnapshot patchId patchContent v).1]
  ∧ (∀ versionId, restoreVersion patchId versionId v = true →
       restoreVersion patchId versionId
         (createSnapshot patchId patchContent v).2 = true)
  ∧ (∀ keepCount, (1 ≤ keepCount)%Z →
       restoreVersion patchId (createSnapshot patchId patchContent v).1
         (cleanupOldVersions patchId keepCount
            (createSnapshot patchId patchContent v).2).2 = true).
Proof.
  set (versionId := (createSnapshot patchId patchContent v).1).
  assert (versionsOf patchId (createSnapshot patchId patchContent v).2
          = versionsOf patchId v ++ [versionId]) as Hafter.
  { unfold versionsOf at 1. cbn [Project.createSnapshot snd versions].
    by rewrite lookup_insert_eq. }
  unfold restoreVersion, getVersions. rewrite !Hafter.
  split; [|split; [done|split]].
  - apply bool_decide_eq_true, elem_of_app. right. left.
  - intros old Hold%bool_decide_eq_true.
    apply bool_decide_eq_true, elem_of_app. by left.
  - intros keepCount Hkeep. apply bool_decide_eq_true.
    unfold cleanupOldVersions. rewrite Hafter.
    set (vs := versionsOf patchId v ++ [versionId]).
    destruct (Z.ltb_spec 0 (Z.max 0 (Z.of_nat (length vs) - keepCount)));
      cbn [snd].
    + unfold versionsOf. cbn [versions]. rewrite lookup_insert_eq.
      cbn [default]. subst vs. rewrite drop_app_le.
      * apply elem_of_app. right. left.
      * rewrite length_app in *. cbn [length] in *. lia.
    + rewrite Hafter. apply elem_of_app. right. left.
Qed.

End Clock.

Lemma add_then_remove_witness :
  (Project.removePatchFile tickingClock isoStamp "LED Circuit"
     (Project.addPatchFile tickingClock isoStamp
        "./patches/led-circuit.tscircuit" "LED Circuit" testProject)).1 = true
  ∧ fileIndex
      (Project.removePatchFile tickingClock isoStamp "LED Circuit"
         (Project.addPatchFile tickingClock isoStamp
            "./patches/led-circuit.tscircuit" "LED Circuit" testProject)).2
    = fileIndex testProject
  ∧ patches
    <$> manifest
          (Project.removePatchFile tickingClock isoStamp "LED Circuit"
             (Project.addPatchFile tickingClock isoStamp
                "./patches/led-circuit.tscircuit" "LED Circuit" testProject)).2
    = Some (patches
              (Project.createProject tickingClock isoStamp
                 "Test Project" "main.tscircuit"
                 (newProjectManager "./test-project" 0)).1).
Proof.
  apply (add_then_remove tickingClock isoStamp testProject
           (Project.createProject tickingClock isoStamp
              "Test Project" "main.tscircuit"
              (newProjectManager "./test-project" 0)).1
           "./patches/led-circuit.tscircuit" "LED Circuit").
  - reflexivity.
  - intros Hin. by apply elem_of_nil in Hin.
  - reflexivity.
Defined.

Lemma cleanupOldVersions_keeps_latest_witness :
  getVersions "patch1" (cleanupOldVersions "patch1" 2 threeSnapshots).2
  = drop (length (getVersions "patch1" threeSnapshots) - Z.to_nat 2)
         (getVersions "patch1" threeSnapshots)
  ∧ (cleanupOldVersions "patch1" 2 threeSnapshots).1
    = (Z.of_nat (length (getVersions "patch1" threeSnapshots))
       - Z.of_nat (length (getVersions "patch1"
                             (cleanupOldVersions "patch1" 2
                                threeSnapshots).2)))%Z
  ∧ (∀ other, other ≠ "patch1" →
       getVersions other (cleanupOldVersions "patch1" 2 threeSnapshots).2
       = getVersions other threeSnapshots)
  ∧ cleanupOldVersions "patch1" 2
      (cleanupOldVersions "patch1" 2 threeSnapshots).2
    = (0%Z, (cleanupOldVersions "patch1" 2 threeSnapshots).2).
Proof.
  apply (cleanupOldVersions_keeps_latest "patch1" 2 threeSnapshots). lia.
Defined.

End ProjectLaws.

(** ** lib/symbol-library.ts *)
Module SymbolLaws.
Import Js SymbolLibrary StringLaws SymbolTerms.

Lemma categoryName_inj c1 c2 : categoryName c1 = categoryName c2 → c1 = c2.
Proof. by destruct c1, c2. Qed.

Lemma registered_snoc l symbol :
  registered (l ++ [symbol]) = registerSymbol symbol (registered l).
Proof. unfold registered. by rewrite foldl_app. Qed.

Lemma registered_categories l c :
  categories (registered l) !! categoryName c
  = Some (List.filter (fun symbol => bool_decide (category symbol = c)) l).
Proof.
  induction l as [|symbol l IH] using rev_ind.
  - by destruct c.
  - rewrite registered_snoc. cbn [registerSymbol categories].
    rewrite List.filter_app. cbn [List.filter].
    destruct (decide (category symbol = c)) as [Heq|Hne].
    + rewrite (bool_decide_eq_true_2 _ Heq). subst c.
      rewrite lookup_insert_eq. unfold getSymbolsByCategory. by rewrite IH.
    + rewrite (bool_decide_eq_false_2 _ Hne), app_nil_r.
      rewrite lookup_insert_ne; [done|].
      intros Heq%categoryName_inj. done.
Qed.

Lemma registered_symbols l ident :
  symbols (registered l) !! ident
  = last (List.filter (fun symbol => bool_decide (symbol_id symbol = ident)) l).
Proof.
  induction l as [|symbol l IH] using rev_ind; [done|].
  rewrite registered_snoc. cbn [registerSymbol symbols].
  rewrite List.filter_app. cbn [List.filter].
  destruct (decide (symbol_id symbol = ident)) as [Heq|Hne].
  - rewrite (bool_decide_eq_true_2 _ Heq). subst ident.
    by rewrite lookup_insert_eq, last_snoc.
  - rewrite (bool_decide_eq_false_2 _ Hne), app_nil_r.
    by rewrite lookup_insert_ne.
Qed.

Lemma registered_dom l :
  dom (symbols (registered l)) = list_to_set (symbol_id <$> l).
Proof.
  induction l as [|symbol l IH] using rev_ind; [done|].
  rewrite registered_snoc. cbn [registerSymbol symbols].
  rewrite dom_insert_L, IH, fmap_app, list_to_set_app_L. cbn.
  apply set_eq. intros x. rewrite !elem_of_union, elem_of_singleton.
  rewrite elem_of_empty. tauto.
Qed.

(** X30. What a library holds after a run of registrations. The list of a
    category holds every symbol registered for the category, in the order of
    the registrations, a symbol registered twice being listed twice; under
    an identifier the library holds the symbol registered last with it; and
    the statistics count the distinct identifiers as the total and the
    registrations per category. *)
Theorem registered_library (l : list Symbol) :
  (∀ c, getSymbolsByCategory (categoryName c) (registered l)
        = List.filter (fun symbol => bool_decide (category symbol = c)) l)
  ∧ (∀ ident, getSymbol ident (registered l)
              = last (List.filter
                        (fun symbol => bool_decide (symbol_id symbol = ident)) l))
  ∧ totalSymbols (getStatistics (registered l))
    = size (list_to_set (C := gset string) (symbol_id <$> l))
  ∧ (∀ c, symbolsByCategory (getStatistics (registered l)) !! categoryName c
          = Some (length (List.filter
                            (fun symbol => bool_decide (category symbol = c))
                            l))).
Proof.
  split; [|split; [|split]].
  - intros c. unfold getSymbolsByCategory. by rewrite registered_categories.
  - intros ident. apply registered_symbols.
  - cbn [getStatistics totalSymbols]. by rewrite <- registered_dom, size_dom.
  - intros c. cbn [getStatistics symbolsByCategory].
    by rewrite lookup_fmap, registered_categories.
Qed.

(** A symbol that the library returns for an identifier is listed in its
    category, and is found by a search for its name in any letter case. *)
Lemma symbol_is_listed (l : list Symbol) (ident : string) (symbol : Symbol) :
  getSymbol ident (registered l) = Some symbol →
  symbol ∈ getSymbolsByCategory (categoryName (category symbol)) (registered l)
  ∧ ∀ query, toLowerCase query = toLowerCase (symbol_name symbol) →
             symbol ∈ searchSymbols query (registered l).
Proof.
  unfold getSymbol, getSymbolsByCategory. intros Hget.
  rewrite registered_categories. cbn [default]. split.
  - rewrite registered_symbols in Hget. apply last_Some in Hget as [k Hk].
    assert (In symbol (List.filter
              (fun s => bool_decide (symbol_id s = ident)) l)) as Hin.
    { rewrite Hk. apply in_or_app. right. by left. }
    apply filter_In in Hin as [Hin _].
    apply list_elem_of_In, filter_In. split; [done|].
    by apply bool_decide_eq_true.
  - intros query Hquery. unfold searchSymbols.
    apply list_elem_of_In, filter_In. split.
    + apply list_elem_of_In, list_elem_of_fmap. exists (ident, symbol).
      split; [done|]. by apply elem_of_map_to_list.
    + rewrite Hquery. apply orb_true_iff. left.
      apply includes_refl.
Qed.

End SymbolLaws.
